(** * Tree-structured CRFs of supar: strided stripes and inside recurrences

    This development embeds [supar/utils/fn.py] ([stripe]) and
    [supar/modules/treecrf.py] ([CRFDependency], [CRF2oDependency],
    [CRFConstituency]) and states their documented behaviour as theorems.

    - Part I models tensors the way the tensor library stores them: a flat
      storage shared between views, and per view an offset, a size and a
      stride list.  [stripe] is the stride arithmetic of the source.
    - Part II models the dynamic-programming tables of the inside
      algorithms as row-major buffers over an abstract log-potential
      domain, read through the same stride arithmetic. *)

From Stdlib Require Import Reals Lra Lia String.
From stdpp Require Import base numbers list option.

(* ===================================================================== *)
(** * Part I: strided tensors and [stripe] *)
(* ===================================================================== *)

Module Tensor.

(** A tensor is a view: the storage it lives in, the offset of its first
    element in that storage, its size and its strides (in elements). *)
Record tensor := mkTensor {
  tloc : nat;
  toffset : nat;
  tsize : list nat;
  tstride : list nat
}.

(** [x[0, 0].numel()] for a trailing shape; also the element count. *)
Fixpoint numel (size : list nat) : nat :=
  match size with
  | [] => 1
  | d :: size' => d * numel size'
  end.

(** Strides of a freshly allocated (row-major) tensor of that size. *)
Fixpoint row_major (size : list nat) : list nat :=
  match size with
  | [] => []
  | _ :: size' => numel size' :: row_major size'
  end.

Fixpoint in_range (idx size : list nat) : bool :=
  match idx, size with
  | [], [] => true
  | i :: idx', d :: size' => (i <? d) && in_range idx' size'
  | _, _ => false
  end.

Fixpoint dot (idx stride : list nat) : nat :=
  match idx, stride with
  | i :: idx', s :: stride' => i * s + dot idx' stride'
  | _, _ => 0
  end.

Definition addr (t : tensor) (idx : list nat) : nat :=
  toffset t + dot idx (tstride t).

(** The library's contiguity test: dimensions of size 1 may carry any
    stride, an empty tensor is always contiguous. *)
Fixpoint strides_ok (size stride : list nat) : bool :=
  match size, stride with
  | [], [] => true
  | d :: size', s :: stride' =>
      ((d =? 1) || (s =? numel size')) && strides_ok size' stride'
  | _, _ => false
  end.

Definition is_contiguous (t : tensor) : bool :=
  (numel (tsize t) =? 0) || strides_ok (tsize t) (tstride t).

(** Storage needed by a view, as the library's bounds check computes it. *)
Definition storage_need (size stride : list nat) (off : nat) : nat :=
  if numel size =? 0 then 0 else off + dot (pred <$> size) stride + 1.

(** The store: storage number [l] is the [l]-th buffer. *)
Abbreviation heap A := (list (list A)).

Section Heap.
Context {A : Type}.

Definition read (h : heap A) (t : tensor) (idx : list nat) : option A :=
  if in_range idx (tsize t) then h !! tloc t ≫= (.!! addr t idx) else None.

Definition write (h : heap A) (t : tensor) (idx : list nat) (v : A)
  : option (heap A) :=
  if in_range idx (tsize t) then
    st ← h !! tloc t;
    if decide (addr t idx < length st)
    then Some (<[tloc t := <[addr t idx := v]> st]> h)
    else None
  else None.

(** Elements of a view in row-major order. *)
Fixpoint flatten (st : list A) (off : nat) (size stride : list nat)
  : option (list A) :=
  match size, stride with
  | [], _ => x ← st !! off; Some [x]
  | d :: size', s :: stride' =>
      mjoin <$> mapM (λ i, flatten st (off + i * s) size' stride') (seq 0 d)
  | _ :: _, [] => None
  end.

(** [x.contiguous()]: the tensor itself when it is contiguous, otherwise a
    row-major copy in a new storage. *)
Definition contiguous (h : heap A) (x : tensor) : option (heap A * tensor) :=
  if is_contiguous x then Some (h, x)
  else
    st ← h !! tloc x;
    data ← flatten st (toffset x) (tsize x) (tstride x);
    Some (h ++ [data],
          mkTensor (length h) 0 (tsize x) (row_major (tsize x))).

(** [x.as_strided(size, stride, storage_offset)]: a view of the storage of
    [x]; the offset counts from the start of the storage, not from [x]. *)
Definition as_strided (h : heap A) (x : tensor) (size stride : list nat)
    (storage_offset : nat) : option tensor :=
  st ← h !! tloc x;
  if decide (storage_need size stride storage_offset ≤ length st)
  then Some (mkTensor (tloc x) storage_offset size stride)
  else None.

(** [stripe(x, n, w, offset, dim)] of [supar/utils/fn.py]. *)
Definition stripe (h : heap A) (x : tensor) (n w : nat) (offset : nat * nat)
    (dim : nat) : option (heap A * tensor) :=
  '(h', x') ← contiguous h x;
  match tsize x' with
  | d0 :: seq_len :: rest =>
      if (d0 =? 0) || (seq_len =? 0) then None
      else
        let numel := numel rest in
        let stride :=
          (seq_len + 1) * numel
            :: (if dim =? 1 then 1 else seq_len) * numel
            :: drop 2 (tstride x') in
        v ← as_strided h' x' (n :: w :: rest) stride
              ((offset.1 * seq_len + offset.2) * numel);
        Some (h', v)
  | _ => None
  end.

(** A tensor is valid in a store when it has one stride per dimension and
    each of its elements lies in its storage. *)
Definition valid (h : heap A) (x : tensor) : Prop :=
  length (tstride x) = length (tsize x) ∧
  ∃ st, h !! tloc x = Some st ∧
        ∀ idx, in_range idx (tsize x) = true → addr x idx < length st.

(** The element of [x] that position [(r, c)] of a stripe stands for. *)
Definition stripe_src (offset : nat * nat) (dim r c : nat) : nat * nat :=
  if dim =? 1 then (offset.1 + r, offset.2 + r + c)
  else (offset.1 + r + c, offset.2 + r).

End Heap.

(** All positions of a stripe stand for elements of the table. *)
Definition stripe_in_bounds (d0 d1 n w : nat) (offset : nat * nat)
    (dim : nat) : Prop :=
  ∀ r c, r < n → c < w →
    (stripe_src offset dim r c).1 < d0 ∧ (stripe_src offset dim r c).2 < d1.

End Tensor.

(* ===================================================================== *)
(** * Part II: log-potentials and dynamic-programming tables *)
(* ===================================================================== *)

(** Scores are log-potentials.  The recurrences use only the operations
    below, so they are stated over any carrier that provides them; rounding
    is not modelled. *)
Class LogDomain (A : Type) := {
  ninf : A;                (* float('-inf') *)
  zero : A;                (* 0 *)
  add : A → A → A;         (* x + y *)
  lse : list A → A;        (* logsumexp over the last axis *)
  tsum : list A → A        (* .sum() *)
}.

(** The two further operations of the loss [(logZ - score) / total]. *)
Class LossDomain (A : Type) `{LogDomain A} := {
  sub : A → A → A;         (* x - y *)
  divn : A → nat → A       (* x / count *)
}.

Module Table.
Import Tensor.

Section Ops.
Context {A : Type} `{LogDomain A}.

(** A table of shape [[d0, d1, B]] is a row-major tensor alone in its
    storage; the last axis is the batch. *)
Definition tview (d0 d1 B : nat) : tensor :=
  mkTensor 0 0 [d0; d1; B] (row_major [d0; d1; B]).

(** [torch.full_like(scores, a)] *)
Definition full (d0 d1 B : nat) (a : A) : list A :=
  replicate (d0 * d1 * B) a.

(** [s[i, j, b]] *)
Definition tget (d0 d1 B : nat) (s : list A) (i j b : nat) : A :=
  default ninf (read [s] (tview d0 d1 B) [i; j; b]).

(** [s[i, j, b] = a], in place *)
Definition tset (d0 d1 B : nat) (s : list A) (i j b : nat) (a : A) : list A :=
  match write [s] (tview d0 d1 B) [i; j; b] a with
  | Some (s' :: _) => s'
  | _ => s
  end.

(** [stripe(s, n, w, offset, dim)[r, c, b]] *)
Definition stripe_get (d0 d1 B : nat) (s : list A) (n w : nat)
    (offset : nat * nat) (dim : nat) (r c b : nat) : A :=
  default ninf ('(h, v) ← stripe [s] (tview d0 d1 B) n w offset dim;
                read h v [r; c; b]).

(** Position [k] of [diagonal(offset)]: above the main diagonal for a
    positive offset, below for a negative one. *)
Definition diagonal_index (offset : Z) (k : nat) : nat * nat :=
  if (0 <=? offset)%Z then (k, k + Z.to_nat offset)
  else (k + Z.to_nat (- offset), k).

Definition diagonal_len (S : nat) (offset : Z) : nat :=
  S - Z.to_nat (Z.abs offset).

(** [x.diagonal(offset)[b, k]] of a tensor given by its elements *)
Definition diagonal (x : nat → nat → nat → A) (offset : Z) (b k : nat) : A :=
  x (diagonal_index offset k).1 (diagonal_index offset k).2 b.

(** [s.diagonal(offset).copy_(v)] for [v] of shape [[B, n]] *)
Definition diagonal_copy (S B : nat) (s : list A) (offset : Z)
    (v : nat → nat → A) : list A :=
  foldl (λ s k,
    foldl (λ s b,
      tset S S B s (diagonal_index offset k).1 (diagonal_index offset k).2 b
           (v b k))
      s (seq 0 B))
    s (seq 0 (diagonal_len S offset)).

(** [x.permute(2, 0, 1).logsumexp(-1)[b, k]] for [x] of shape [[n, w, B]] *)
Definition logsumexp (w : nat) (x : nat → nat → nat → A) (b k : nat) : A :=
  lse ((λ c, x k c b) <$> seq 0 w).

(** [mask.sum(1)] *)
Definition mask_lens (S : nat) (mask : nat → nat → bool) (b : nat) : nat :=
  length (filter (λ i, mask b i = true) (seq 0 S)).

(** [mask.sum()] *)
Definition mask_total (S B : nat) (mask : nat → nat → bool) : nat :=
  sum_list (mask_lens S mask <$> seq 0 B).

(** [s_c[0, w][lens.ne(w)] = float('-inf')] *)
Definition root_mask (S B : nat) (s : list A) (lens : nat → nat) (w : nat)
  : list A :=
  foldl (λ s b, if lens b =? w then s else tset S S B s 0 w b ninf)
        s (seq 0 B).

(** The candidate restriction of both dependency CRFs: arc scores in the
    permuted layout [[head, dependent, batch]], set to [-inf] where the
    candidate heads exclude the arc. *)
Definition restrict (mask : nat → nat → bool) (cands : nat → nat → Z)
    (scores : nat → nat → nat → A) : nat → nat → nat → A :=
  let mask0 b i := if i =? 0 then true else mask b i in
  let mask2 b i j := mask0 b j && mask0 b i in
  let cands0 b i := if i =? 0 then (-1)%Z else cands b i in
  let allowed b i j := (cands0 b i =? Z.of_nat j)%Z || (cands0 b i <? 0)%Z in
  λ x y b, if allowed b y x && mask2 b y x then scores x y b else ninf.

(** [s[0].gather(0, lens.unsqueeze(0))]: one entry per sentence; an index
    outside the table is an error. *)
Definition gather_lens (S B : nat) (s : list A) (lens : nat → nat)
  : option (list A) :=
  if S =? 0 then None
  else mapM (λ b, if lens b <? S then Some (tget S S B s 0 (lens b) b)
                  else None)
            (seq 0 B).

(** A fresh row-major tensor of shape [[d0, d1, B]] with the given
    elements, as advanced indexing builds it. *)
Definition tabulate (d0 d1 B : nat) (x : nat → nat → nat → A) : list A :=
  (λ p, x (p / B / d1) ((p / B) `mod` d1) (p `mod` B)) <$> seq 0 (d0 * d1 * B).

(** Positions [(b, i)] of a [[B, S]] tensor in row-major order. *)
Definition positions (S B : nat) : list (nat * nat) :=
  b ← seq 0 B; (λ i, (b, i)) <$> seq 0 S.

(** [x[mask]] for [x] given at every position. *)
Definition masked_select {X : Type} (S B : nat) (x : list X)
    (mask : nat → nat → bool) : list X :=
  (filter (λ px, mask px.1.1 px.1.2 = true) (zip (positions S B) x)).*2.

End Ops.

(** What a [forward] call returns: [probs], or [(loss, probs)]. *)
Inductive output (A P : Type) :=
  | Probs (probs : P)
  | LossProbs (loss : A) (probs : P).
Arguments Probs {A P} probs.
Arguments LossProbs {A P} loss probs.

(** [autograd.grad(logZ, scores)] on the [logZ] of an inside pass over [S]
    positions; [grad f x] stands for the gradient of [f] at [x].  The tables
    of a pass are fresh tensors ([torch.full_like]) that do not require
    grad, and only the body of [for w in range(1, seq_len)] copies values
    computed from the scores into them.  With fewer than two positions the
    body never runs: [logZ] has no [grad_fn] and [autograd.grad] raises. *)
Definition autograd_grad {A P : Type} (grad : (P → A) → P → P) (S : nat)
    (logZ : P → A) (scores : P) : option P :=
  if S <? 2 then None else Some (grad logZ scores).

End Table.

(* ===================================================================== *)
(** * First-order dependency CRF *)
(* ===================================================================== *)

Module CRFDependency.
Import Tensor Table.

Section Dep.
Context {A : Type} `{LossDomain A}.

(** Input scores of shape [[B, S, S]]: [scores b i j] is the score of
    position [j] heading position [i]. *)
Definition arc_scores := nat → nat → nat → A.

Record tables := mkTables { s_i : list A; s_c : list A }.

(** One iteration of the loop [for w in range(1, seq_len)]; [scores] is the
    permuted (and possibly restricted) score tensor. *)
Definition inside_step (S B : nat) (scores : nat → nat → nat → A)
    (lens : nat → nat) (t : tables) (w : nat) : tables :=
  let n := S - w in
  let ilr r c b :=
    add (stripe_get S S B (s_c t) n w (0, 0) 1 r c b)
        (stripe_get S S B (s_c t) n w (w, 1) 1 r c b) in
  let il := logsumexp w ilr in
  let ir := il in
  let s_i1 :=
    diagonal_copy S B (s_i t) (- Z.of_nat w)
      (λ b k, add (il b k) (diagonal scores (- Z.of_nat w) b k)) in
  let s_i2 :=
    diagonal_copy S B s_i1 (Z.of_nat w)
      (λ b k, add (ir b k) (diagonal scores (Z.of_nat w) b k)) in
  let cl r c b :=
    add (stripe_get S S B (s_c t) n w (0, 0) 0 r c b)
        (stripe_get S S B s_i2 n w (w, 0) 1 r c b) in
  let s_c1 := diagonal_copy S B (s_c t) (- Z.of_nat w) (logsumexp w cl) in
  let cr r c b :=
    add (stripe_get S S B s_i2 n w (0, 1) 1 r c b)
        (stripe_get S S B s_c1 n w (1, w) 0 r c b) in
  let s_c2 := diagonal_copy S B s_c1 (Z.of_nat w) (logsumexp w cr) in
  let s_c3 := root_mask S B s_c2 lens w in
  mkTables s_i2 s_c3.

(** The tables before the loop. *)
Definition inside_init (S B : nat) : tables :=
  mkTables (full S S B ninf)
           (diagonal_copy S B (full S S B ninf) 0 (λ _ _, zero)).

(** The score tensor the loop reads: [scores.permute(2, 1, 0)], restricted
    by the candidates when they are given. *)
Definition inside_scores (scores : arc_scores) (mask : nat → nat → bool)
    (cands : option (nat → nat → Z)) : nat → nat → nat → A :=
  let scores := λ x y b, scores b y x in
  match cands with
  | None => scores
  | Some cands => restrict mask cands scores
  end.

(** [CRFDependency.inside(scores, mask, cands)] *)
Definition inside (S B : nat) (scores : arc_scores)
    (mask : nat → nat → bool) (cands : option (nat → nat → Z)) : tables :=
  let lens := mask_lens S mask in
  foldl (inside_step S B (inside_scores scores mask cands) lens)
        (inside_init S B) (seq 1 (S - 1)).

(** [s_c[0].gather(0, lens.unsqueeze(0)).sum()] *)
Definition partition (S B : nat) (scores : arc_scores)
    (mask : nat → nat → bool) (cands : option (nat → nat → Z)) : option A :=
  tsum <$> gather_lens S B (s_c (inside S B scores mask cands))
                       (mask_lens S mask).

(** [scores.gather(-1, target.unsqueeze(-1)).squeeze(-1)[mask]]: the gather
    reads every position, so every target index has to be in range. *)
Definition gold_scores (S B : nat) (scores : arc_scores)
    (target : nat → nat → Z) (mask : nat → nat → bool) : option (list A) :=
  g ← mapM (λ p : nat * nat,
              let t := target p.1 p.2 in
              if decide (0 ≤ t < Z.of_nat S)%Z
              then Some (scores p.1 p.2 (Z.to_nat t)) else None)
           (positions S B);
  Some (masked_select S B g mask).

(** [CRFDependency.forward(scores, mask, target, mbr, partial)];
    [grad f x] stands for the gradient that [autograd.grad(f(x), x)]
    returns when it does not raise. *)
Definition forward (grad : (arc_scores → A) → arc_scores → arc_scores)
    (S B : nat) (scores : arc_scores) (mask : nat → nat → bool)
    (target : option (nat → nat → Z)) (mbr partial : bool)
  : option (output A arc_scores) :=
  let total := mask_total S B mask in
  logZ ← partition S B scores mask None;
  probs ← (if mbr
           then autograd_grad grad S
                  (λ x, default logZ (partition S B x mask None)) scores
           else Some scores);
  match target with
  | None => Some (Probs probs)
  | Some target =>
      score ← (if partial
               then gather_lens S B
                      (s_c (inside S B scores mask (Some target)))
                      (mask_lens S mask)
               else gold_scores S B scores target mask);
      Some (LossProbs (divn (sub logZ (tsum score)) total) probs)
  end.

End Dep.
Arguments tables A : clear implicits.
Arguments arc_scores A : clear implicits.
End CRFDependency.

(* ===================================================================== *)
(** * Second-order dependency CRF *)
(* ===================================================================== *)

Module CRF2oDependency.
Import Tensor Table.

Section Dep2o.
Context {A : Type} `{LossDomain A}.

(** Arc scores [[B, S, S]] as for the first-order CRF; sibling scores
    [[B, S, S, S]]: [s_sib b i j k] scores head [j], dependent [i] and
    sibling [k]. *)
Definition arc_scores := nat → nat → nat → A.
Definition sib_scores := nat → nat → nat → nat → A.

Record tables := mkTables { s_i : list A; s_s : list A; s_c : list A }.

(** One iteration of the loop; [s_arc] and [s_sib] are the permuted
    tensors: [s_arc head dep b] and [s_sib head dep sib b]. *)
Definition inside_step (S B : nat) (s_arc : nat → nat → nat → A)
    (s_sib : nat → nat → nat → nat → A) (lens : nat → nat)
    (t : tables) (w : nat) : tables :=
  let n := S - w in
  (* I(j->i) *)
  let il r c b :=
    add (stripe_get S S B (s_i t) n w (w, 1) 1 r c b)
        (stripe_get S S B (s_s t) n w (1, 0) 0 r c b) in
  let sib_l := tabulate n S B (λ k m b, s_sib (w + k) k m b) in
  let il r c b := add (il r c b) (stripe_get n S B sib_l n w (0, 1) 1 r c b) in
  let il0 r c b :=
    add (stripe_get S S B (s_c t) n 1 (w, w) 1 r c b)
        (stripe_get S S B (s_c t) n 1 (0, w - 1) 1 r c b) in
  let il0 r c b := if r =? 0 then zero else il0 r c b in
  let il r c b := if c =? w - 1 then il0 r 0 b else il r c b in
  let il := logsumexp w il in
  let s_i1 :=
    diagonal_copy S B (s_i t) (- Z.of_nat w)
      (λ b k, add (il b k) (diagonal s_arc (- Z.of_nat w) b k)) in
  (* I(i->j) *)
  let ir r c b :=
    add (stripe_get S S B s_i1 n w (0, 0) 1 r c b)
        (stripe_get S S B (s_s t) n w (0, w) 0 r c b) in
  let sib_r := tabulate n S B (λ k m b, s_sib k (w + k) m b) in
  let ir r c b := add (ir r c b) (stripe_get n S B sib_r n w (0, 0) 1 r c b) in
  let ir r c b := if r =? 0 then ninf else ir r c b in
  let ir0 r c b :=
    add (stripe_get S S B (s_c t) n 1 (0, 0) 1 r c b)
        (stripe_get S S B (s_c t) n 1 (w, 1) 1 r c b) in
  let ir r c b := if c =? 0 then ir0 r 0 b else ir r c b in
  let ir := logsumexp w ir in
  let s_i2 :=
    diagonal_copy S B s_i1 (Z.of_nat w)
      (λ b k, add (ir b k) (diagonal s_arc (Z.of_nat w) b k)) in
  (* S(j, i) and S(i, j) *)
  let slr r c b :=
    add (stripe_get S S B (s_c t) n w (0, 0) 1 r c b)
        (stripe_get S S B (s_c t) n w (w, 1) 1 r c b) in
  let slr := logsumexp w slr in
  let s_s1 := diagonal_copy S B (s_s t) (- Z.of_nat w) slr in
  let s_s2 := diagonal_copy S B s_s1 (Z.of_nat w) slr in
  (* C(j->i) *)
  let cl r c b :=
    add (stripe_get S S B (s_c t) n w (0, 0) 0 r c b)
        (stripe_get S S B s_i2 n w (w, 0) 1 r c b) in
  let s_c1 := diagonal_copy S B (s_c t) (- Z.of_nat w) (logsumexp w cl) in
  (* C(i->j) *)
  let cr r c b :=
    add (stripe_get S S B s_i2 n w (0, 1) 1 r c b)
        (stripe_get S S B s_c1 n w (1, w) 0 r c b) in
  let s_c2 := diagonal_copy S B s_c1 (Z.of_nat w) (logsumexp w cr) in
  let s_c3 := root_mask S B s_c2 lens w in
  mkTables s_i2 s_s2 s_c3.

Definition inside_init (S B : nat) : tables :=
  mkTables (full S S B ninf) (full S S B ninf)
           (diagonal_copy S B (full S S B ninf) 0 (λ _ _, zero)).

(** [s_arc.permute(2, 1, 0)], restricted by the candidates if given. *)
Definition inside_arc (s_arc : arc_scores) (mask : nat → nat → bool)
    (cands : option (nat → nat → Z)) : nat → nat → nat → A :=
  let s_arc := λ x y b, s_arc b y x in
  match cands with
  | None => s_arc
  | Some cands => restrict mask cands s_arc
  end.

(** [s_sib.permute(2, 1, 3, 0)] *)
Definition inside_sib (s_sib : sib_scores) : nat → nat → nat → nat → A :=
  λ x y z b, s_sib b y x z.

(** [CRF2oDependency.inside(scores, mask, cands)] *)
Definition inside (S B : nat) (s_arc : arc_scores) (s_sib : sib_scores)
    (mask : nat → nat → bool) (cands : option (nat → nat → Z)) : tables :=
  let lens := mask_lens S mask in
  foldl (inside_step S B (inside_arc s_arc mask cands) (inside_sib s_sib)
                     lens)
        (inside_init S B) (seq 1 (S - 1)).

Definition partition (S B : nat) (s_arc : arc_scores) (s_sib : sib_scores)
    (mask : nat → nat → bool) (cands : option (nat → nat → Z)) : option A :=
  tsum <$> gather_lens S B (s_c (inside S B s_arc s_sib mask cands))
                       (mask_lens S mask).

(** The gold score under full supervision: arcs and siblings are read at
    the valid positions only; an index outside [0, S) is an error. *)
Definition gold_scores (S B : nat) (s_arc : arc_scores) (s_sib : sib_scores)
    (arcs sibs : nat → nat → Z) (mask : nat → nat → bool) : option A :=
  let valid_pos := filter (λ p, mask p.1 p.2 = true) (positions S B) in
  ga ← mapM (λ p : nat * nat,
               let a := arcs p.1 p.2 in
               if decide (0 ≤ a < Z.of_nat S)%Z
               then Some (s_arc p.1 p.2 (Z.to_nat a)) else None)
            valid_pos;
  gs ← mapM (λ p : nat * nat,
               let k := sibs p.1 p.2 in
               if decide (k < Z.of_nat S)%Z
               then Some (s_sib p.1 p.2 (Z.to_nat (arcs p.1 p.2)) (Z.to_nat k))
               else None)
            (filter (λ p, (0 < sibs p.1 p.2)%Z) valid_pos);
  Some (add (tsum ga) (tsum gs)).

(** [CRF2oDependency.forward(scores, mask, target, mbr, partial)] with
    [scores = (s_arc, s_sib)] and [target = (arcs, sibs)]; the marginals
    are the gradient with respect to the arc scores. *)
Definition forward (grad : (arc_scores → A) → arc_scores → arc_scores)
    (S B : nat) (scores : arc_scores * sib_scores) (mask : nat → nat → bool)
    (target : option ((nat → nat → Z) * (nat → nat → Z)))
    (mbr partial : bool) : option (output A arc_scores) :=
  let total := mask_total S B mask in
  let '(s_arc, s_sib) := scores in
  logZ ← partition S B s_arc s_sib mask None;
  probs ← (if mbr
           then autograd_grad grad S
                  (λ x, default logZ (partition S B x s_sib mask None)) s_arc
           else Some s_arc);
  match target with
  | None => Some (Probs probs)
  | Some (arcs, sibs) =>
      score ← (if partial
               then partition S B s_arc s_sib mask (Some arcs)
               else gold_scores S B s_arc s_sib arcs sibs mask);
      Some (LossProbs (divn (sub logZ score) total) probs)
  end.

End Dep2o.
Arguments tables A : clear implicits.
Arguments arc_scores A : clear implicits.
Arguments sib_scores A : clear implicits.
End CRF2oDependency.

(* ===================================================================== *)
(** * Constituency CRF *)
(* ===================================================================== *)

Module CRFConstituency.
Import Tensor Table.

Section Con.
Context {A : Type} `{LossDomain A}.

(** Span scores of shape [[B, S, S]]: [scores b i j] scores the span
    [(i, j)]. *)
Definition span_scores := nat → nat → nat → A.

(** One iteration of the loop; [scores] is [scores.permute(1, 2, 0)]. *)
Definition inside_step (S B : nat) (scores : nat → nat → nat → A)
    (s : list A) (w : nat) : list A :=
  let n := S - w in
  if w =? 1 then diagonal_copy S B s (Z.of_nat w) (diagonal scores (Z.of_nat w))
  else
    let s_s r c b :=
      add (stripe_get S S B s n (w - 1) (0, 1) 1 r c b)
          (stripe_get S S B s n (w - 1) (1, w) 0 r c b) in
    let s_s := logsumexp (w - 1) s_s in
    diagonal_copy S B s (Z.of_nat w)
      (λ b k, add (s_s b k) (diagonal scores (Z.of_nat w) b k)).

(** [CRFConstituency.inside(scores, mask)]; the mask is not read. *)
Definition inside (S B : nat) (scores : span_scores)
    (mask : nat → nat → nat → bool) : list A :=
  let scores := λ i j b, scores b i j in
  foldl (inside_step S B scores) (full S S B ninf) (seq 1 (S - 1)).

(** [mask[:, 0].sum(-1)] *)
Definition lens (S : nat) (mask : nat → nat → nat → bool) (b : nat) : nat :=
  length (filter (λ j, mask b 0 j = true) (seq 0 S)).

Definition partition (S B : nat) (scores : span_scores)
    (mask : nat → nat → nat → bool) : option A :=
  tsum <$> gather_lens S B (inside S B scores mask) (lens S mask).

(** Spans [(b, i, j)] of a [[B, S, S]] tensor in row-major order. *)
Definition spans (S B : nat) : list (nat * nat * nat) :=
  b ← seq 0 B; i ← seq 0 S; (λ j, (b, i, j)) <$> seq 0 S.

(** [scores[mask & target]] *)
Definition gold_scores (S B : nat) (scores : span_scores)
    (mask target : nat → nat → nat → bool) : list A :=
  (λ p : nat * nat * nat, scores p.1.1 p.1.2 p.2)
    <$> filter (λ p : nat * nat * nat,
                  mask p.1.1 p.1.2 p.2 && target p.1.1 p.1.2 p.2 = true)
               (spans S B).

(** [CRFConstituency.forward(scores, mask, target, mbr)] *)
Definition forward (grad : (span_scores → A) → span_scores → span_scores)
    (S B : nat) (scores : span_scores) (mask : nat → nat → nat → bool)
    (target : option (nat → nat → nat → bool)) (mbr : bool)
  : option (output A span_scores) :=
  let total := sum_list (lens S mask <$> seq 0 B) in
  logZ ← partition S B scores mask;
  probs ← (if mbr
           then autograd_grad grad S
                  (λ x, default logZ (partition S B x mask)) scores
           else Some scores);
  match target with
  | None => Some (Probs probs)
  | Some target =>
      Some (LossProbs
              (divn (sub logZ (tsum (gold_scores S B scores mask target)))
                    total)
              probs)
  end.

End Con.
Arguments span_scores A : clear implicits.
End CRFConstituency.

(* ===================================================================== *)
(** * The signatures of the three [forward] entry points *)
(* ===================================================================== *)

Module Signature.

Inductive component := CRFDependency | CRF2oDependency | CRFConstituency.

Inductive pyvalue := PyNone | PyBool (b : bool).

(** A parameter after [self]: its name and its default value, if any. *)
Record parameter := mkParam { pname : string; pdefault : option pyvalue }.

Definition forward_signature (c : component) : list parameter :=
  match c with
  | CRFDependency =>
      [ mkParam "scores" None; mkParam "mask" None;
        mkParam "target" (Some PyNone);
        mkParam "mbr" (Some (PyBool false));
        mkParam "partial" (Some (PyBool false)) ]
  | CRF2oDependency =>
      [ mkParam "scores" None; mkParam "mask" None;
        mkParam "target" (Some PyNone);
        mkParam "mbr" (Some (PyBool true));
        mkParam "partial" (Some (PyBool false)) ]
  | CRFConstituency =>
      [ mkParam "scores" None; mkParam "mask" None;
        mkParam "target" (Some PyNone);
        mkParam "mbr" (Some (PyBool false)) ]
  end.

(** The signature the interface description gives to every component; the
    marginal flag is the parameter [mbr] of the source. *)
Definition described_signature : list parameter :=
  [ mkParam "scores" None; mkParam "mask" None;
    mkParam "target" (Some PyNone);
    mkParam "mbr" (Some (PyBool false));
    mkParam "partial" (Some (PyBool false)) ].

End Signature.

(* ===================================================================== *)
(** * Concrete carriers: extended reals and counting polynomials *)
(* ===================================================================== *)

Module ExtReal.

(** The values a score can take in exact arithmetic: a real number, an
    infinity, or NaN.  Real numbers are neither rounded nor bounded: a sum
    of reals is a real, where the 64-bit floats of the program round and
    overflow to an infinity.  What is proved on this carrier is a property
    of the recurrences in exact arithmetic. *)
Inductive ext := NInf | Fin (x : R) | PInf | NaN.

Definition eadd (a b : ext) : ext :=
  match a, b with
  | NaN, _ | _, NaN => NaN
  | NInf, PInf | PInf, NInf => NaN
  | NInf, _ | _, NInf => NInf
  | PInf, _ | _, PInf => PInf
  | Fin x, Fin y => Fin (x + y)
  end.

Definition is_nan (a : ext) : bool :=
  match a with NaN => true | _ => false end.

Definition is_pinf (a : ext) : bool :=
  match a with PInf => true | _ => false end.

Definition fin_part (a : ext) : option R :=
  match a with Fin x => Some x | _ => None end.

Definition Rsum (l : list R) : R := foldr Rplus 0%R l.

(** [logsumexp]: the logarithm of the sum of the exponentials; an empty or
    all [-inf] input gives [-inf]. *)
Definition elogsumexp (l : list ext) : ext :=
  if existsb is_nan l then NaN
  else if existsb is_pinf l then PInf
  else match omap fin_part l with
       | [] => NInf
       | xs => Fin (ln (Rsum (exp <$> xs)))
       end.

Definition esum (l : list ext) : ext := foldr eadd (Fin 0) l.

Definition eneg (a : ext) : ext :=
  match a with
  | NInf => PInf
  | PInf => NInf
  | Fin x => Fin (- x)
  | NaN => NaN
  end.

Definition esub (a b : ext) : ext := eadd a (eneg b).

Definition edivn (a : ext) (n : nat) : ext :=
  match a with
  | Fin x =>
      if n =? 0
      then if Rlt_dec 0 x then PInf else if Rlt_dec x 0 then NInf else NaN
      else Fin (x / INR n)
  | _ => a
  end.

#[export] Instance ext_domain : LogDomain ext :=
  {| ninf := NInf; zero := Fin 0; add := eadd; lse := elogsumexp;
     tsum := esum |}.

#[export] Instance ext_loss : LossDomain ext :=
  {| sub := esub; divn := edivn |}.

(** The real number a finite value stands for. *)
Definition real_of (a : ext) : R :=
  match a with Fin x => x | _ => 0%R end.

End ExtReal.

Module Poly.

(** Polynomials with natural coefficients, lowest degree first.  A
    polynomial stands for a weight, the exponential of a log-potential:
    constants count derivations, the variable is the weight of one marked
    arc. *)
Definition poly := list nat.

Fixpoint padd (p q : poly) : poly :=
  match p, q with
  | [], _ => q
  | _, [] => p
  | a :: p', b :: q' => (a + b) :: padd p' q'
  end.

Definition pscale (a : nat) (q : poly) : poly := Nat.mul a <$> q.

Fixpoint pmul (p q : poly) : poly :=
  match p with
  | [] => []
  | a :: p' => padd (pscale a q) (0 :: pmul p' q)
  end.

Fixpoint eval (p : poly) (x : R) : R :=
  match p with
  | [] => 0
  | a :: p' => INR a + x * eval p' x
  end.

(** Weights multiply where log-potentials add, and add where
    log-potentials are combined by [logsumexp]. *)
#[export] Instance poly_domain : LogDomain poly :=
  {| ninf := []; zero := [1]; add := pmul; lse := foldr padd [];
     tsum := foldr pmul [1] |}.

(** The log-potential of a weight. *)
Definition log_weight (a : R) : ExtReal.ext :=
  if Req_dec_T a 0 then ExtReal.NInf else ExtReal.Fin (ln a).

Definition log_poly (x : R) (p : poly) : ExtReal.ext := log_weight (eval p x).

End Poly.

(* ===================================================================== *)
(** * Concrete inputs *)
(* ===================================================================== *)

Module Inputs.
Import ExtReal Poly.

(** One sentence whose [n] words sit at positions [1 .. n]; position [0]
    is the root and is masked out. *)
Definition words (n : nat) : nat → nat → bool :=
  λ _ i, (0 <? i) && (i <=? n).

(** All scores equal to zero. *)
Definition zeros : nat → nat → nat → ext := λ _ _ _, Fin 0.

(** The weights of the all-zero scores. *)
Definition ones : nat → nat → nat → poly := λ _ _ _, [1].

(** All sibling scores equal to zero, and their weights. *)
Definition sib_zeros : nat → nat → nat → nat → ext := λ _ _ _ _, Fin 0.
Definition sib_ones : nat → nat → nat → nat → poly := λ _ _ _ _, [1].

(** The transpose of the 2 x 2 tensor [[0, 1], [2, 3]]: a non-contiguous
    view of the storage [0, 1, 2, 3]. *)
Definition transposed_heap : Tensor.heap nat := [[0; 1; 2; 3]].
Definition transposed : Tensor.tensor := Tensor.mkTensor 0 0 [2; 2] [1; 2].

(** [x = torch.arange(50).view(2, 5, 5)[1]]: a contiguous 5 x 5 tensor that
    starts at element 25 of its storage. *)
Definition arange_heap : Tensor.heap nat := [seq 0 50].
Definition second_block : Tensor.tensor := Tensor.mkTensor 0 25 [5; 5] [5; 1].

(** [torch.arange(25).view(5, 5)], the example of the docstring. *)
Definition docstring_heap : Tensor.heap nat := [seq 0 25].
Definition docstring_x : Tensor.tensor := Tensor.mkTensor 0 0 [5; 5] [5; 1].

(** Zero scores, except that the arc from head [hd] to dependent [d] has
    score [t]; in the weights that arc is the variable. *)
Definition bump (d hd : nat) (t : R) : nat → nat → nat → ext :=
  λ _ i j, if (i =? d) && (j =? hd) then Fin t else Fin 0.

Definition marked (d hd : nat) : nat → nat → nat → poly :=
  λ _ i j, if (i =? d) && (j =? hd) then [0; 1] else [1].


(** [logZ] of the first-order CRF on [S - 1] words, as a function of the
    scores; the fallback is the value [forward] has already computed. *)
Definition logZ_of (S : nat) (logZ : ext) (x : nat → nat → nat → ext) : ext :=
  default logZ (CRFDependency.partition S 1 x (words (S - 1)) None).

End Inputs.

(* ===================================================================== *)
(** * Projective single-root trees, by enumeration *)
(* ===================================================================== *)

(** The structures the dependency CRFs sum over, used to name the numbers
    the inside algorithm returns on all-zero scores. *)
Module Trees.

(** A head assignment for the words [1 .. n]: entry [d - 1] is the head of
    word [d]; head [0] is the root. *)
Definition head_of (hs : list nat) (d : nat) : nat := nth (d - 1) hs 0.

Fixpoint assignments (n len : nat) : list (list nat) :=
  match len with
  | 0 => [[]]
  | Datatypes.S len' => hd ← seq 0 (n + 1); (cons hd) <$> assignments n len'
  end.

(** [a] is [d] or one of its ancestors, within [fuel] steps. *)
Fixpoint ancestor (hs : list nat) (fuel a d : nat) : bool :=
  (d =? a)
  || match fuel with
     | 0 => false
     | Datatypes.S fuel' =>
         if d =? 0 then false else ancestor hs fuel' a (head_of hs d)
     end.

Definition single_root (hs : list nat) : bool :=
  length (filter (λ hd, hd = 0) hs) =? 1.

Definition connected (n : nat) (hs : list nat) : bool :=
  forallb (λ d, ancestor hs n 0 d) (seq 1 n).

(** Every word strictly between a head and its dependent descends from the
    head. *)
Definition projective (n : nat) (hs : list nat) : bool :=
  forallb (λ d,
    let hd := head_of hs d in
    forallb (λ k, ancestor hs n hd k)
            (seq (hd `min` d + 1) (hd `max` d - hd `min` d - 1)))
    (seq 1 n).

Definition trees (n : nat) : list (list nat) :=
  filter (λ hs, single_root hs && connected n hs && projective n hs = true)
         (assignments n n).

(** The trees that contain the arc from head [hd] to dependent [d]. *)
Definition trees_with (n d hd : nat) : list (list nat) :=
  filter (λ hs, head_of hs d = hd) (trees n).

(** The arcs [(d, hd)] over [n] words. *)
Definition arcs (n : nat) : list (nat * nat) :=
  d ← seq 1 n; hd ← seq 0 (n + 1); if d =? hd then [] else [(d, hd)].

End Trees.

(* ===================================================================== *)
(** * The recurrences as the interface description states them *)
(* ===================================================================== *)

Module Described.
Import Table ExtReal.

(** First-order CRF: every span satisfies the four equations, with no
    exception for the spans that start at the root. *)
Definition first_order_recurrence {A : Type} `{LogDomain A} (S B : nat)
    (scores : CRFDependency.arc_scores A) (mask : nat → nat → bool) : Prop :=
  let t := CRFDependency.inside S B scores mask None in
  let sc := CRFDependency.inside_scores scores mask None in
  let I := tget S S B (CRFDependency.s_i t) in
  let C := tget S S B (CRFDependency.s_c t) in
  ∀ w i b, 1 ≤ w → i + w < S → b < B →
    I (i + w) i b
      = add (lse ((λ r, add (C i r b) (C (i + w) (r + 1) b)) <$> seq i w))
            (sc (i + w) i b)
    ∧ I i (i + w) b
      = add (lse ((λ r, add (C i r b) (C (i + w) (r + 1) b)) <$> seq i w))
            (sc i (i + w) b)
    ∧ C (i + w) i b
      = lse ((λ r, add (C r i b) (I (i + w) r b)) <$> seq i w)
    ∧ C i (i + w) b
      = lse ((λ r, add (I i r b) (C r (i + w) b)) <$> seq (i + 1) w).

(** Second-order CRF: the incomplete span towards the left aggregates the
    inner splits and the first-child term [C(j,j) + C(i,j-1)], which is
    kept as it is when the span starts at position 0. *)
Definition second_order_left {A : Type} `{LogDomain A} (S B : nat)
    (s_arc : CRF2oDependency.arc_scores A)
    (s_sib : CRF2oDependency.sib_scores A) (mask : nat → nat → bool) : Prop :=
  let t := CRF2oDependency.inside S B s_arc s_sib mask None in
  let sa := CRF2oDependency.inside_arc s_arc mask None in
  let sb := CRF2oDependency.inside_sib s_sib in
  let I := tget S S B (CRF2oDependency.s_i t) in
  let Sb := tget S S B (CRF2oDependency.s_s t) in
  let C := tget S S B (CRF2oDependency.s_c t) in
  ∀ w i b, 1 ≤ w → i + w < S → b < B →
    I (i + w) i b
      = add (lse (((λ r, add (add (I (i + w) r b) (Sb r i b))
                             (sb (i + w) i r b))
                     <$> seq (i + 1) (w - 1))
                  ++ [add (C (i + w) (i + w) b) (C i (i + w - 1) b)]))
            (sa (i + w) i b).

(** [stripe] as described: on every valid table with at least two
    dimensions and for every in-bounds stripe, the result has shape
    [(n, w, ...)], its element [(r, c)] is the table element the stripe
    stands for, and a write through it changes that table element. *)
Definition stripe_contract {A : Type} (h : Tensor.heap A) (x : Tensor.tensor)
    (n w : nat) (offset : nat * nat) (dim : nat) : Prop :=
  ∀ d0 d1 rest,
    Tensor.valid h x → Tensor.tsize x = d0 :: d1 :: rest →
    Tensor.stripe_in_bounds d0 d1 n w offset dim →
    ∃ h' v, Tensor.stripe h x n w offset dim = Some (h', v) ∧
      Tensor.tsize v = n :: w :: rest ∧
      ∀ r c k a, r < n → c < w → Tensor.in_range k rest = true →
        Tensor.read h' v (r :: c :: k)
        = Tensor.read h x ((Tensor.stripe_src offset dim r c).1
                             :: (Tensor.stripe_src offset dim r c).2 :: k)
        ∧ ∃ h'', Tensor.write h' v (r :: c :: k) a = Some h'' ∧
                 Tensor.read h'' x ((Tensor.stripe_src offset dim r c).1
                                      :: (Tensor.stripe_src offset dim r c).2
                                      :: k)
                 = Some a.

(** The entry points as described: one signature for all three
    components. *)
Definition uniform_signature : Prop :=
  ∀ c, Signature.forward_signature c = Signature.described_signature.

(** The end-to-end example as described: [logZ] of the all-zero scores of
    one sentence of three words is [log 3]. *)
Definition logZ_is_log3 (S : nat) (mask : nat → nat → bool) : Prop :=
  CRFDependency.partition S 1 Inputs.zeros mask None
  = Some (ExtReal.Fin (ln 3)).

End Described.

(* ===================================================================== *)
(** * Padding a list of tensors *)
(* ===================================================================== *)

Module Pad.
Import Tensor.

Section Pad.
Context {A : Type}.

(** A tensor value: its size and its elements in row-major order. *)
Record ndarray := mkArray { shape : list nat; elems : list A }.

(** [t[idx]] *)
Definition get (t : ndarray) (idx : list nat) : option A :=
  if in_range idx (shape t)
  then elems t !! dot idx (row_major (shape t)) else None.

(** The indices of a size, in row-major order. *)
Fixpoint indices (size : list nat) : list (list nat) :=
  match size with
  | [] => [[]]
  | d :: size' => i ← seq 0 d; cons i <$> indices size'
  end.

(** [max(tensor.size(i) for tensor in tensors)]; [size(i)] raises on a
    tensor with fewer dimensions. *)
Definition max_size (tensors : list ndarray) (i : nat) : option nat :=
  sizes ← mapM (λ t, shape t !! i) tensors;
  match sizes with
  | [] => None
  | s :: sizes' => Some (foldl Nat.max s sizes')
  end.

(** [out_tensor[i][[slice(0, s) for s in tensor.size()]] = tensor] for an
    [out_tensor] of size [n :: dims]: the list of slices is read as a
    tuple of slices, one per dimension of [tensor]; more indices than
    [out_tensor[i]] has dimensions raise, and so does the empty list on a
    0-dim tensor.  The elements are copied through the sliced view. *)
Definition assign (dims : list nat) (out : list A) (i : nat) (t : ndarray)
  : option (list A) :=
  if (length (shape t) =? 0) || negb (length (shape t) =? length dims)
  then None
  else
    let v := mkTensor 0 (i * numel dims) (shape t) (row_major dims) in
    foldl (λ acc idx,
             out ← acc; x ← get t idx;
             h ← write [out] v idx x; h !! 0)
          (Some out) (indices (shape t)).

(** [pad(tensors, padding_value, total_length)] of [supar/utils/fn.py] *)
Definition pad (tensors : list ndarray) (padding_value : A)
    (total_length : option nat) : option ndarray :=
  t0 ← head tensors;
  dims ← mapM (max_size tensors) (seq 0 (length (shape t0)));
  dims ← match total_length with
          | None => Some dims
          | Some total =>
              match dims with
              | [] => None
              | d :: dims' => if total <? d then None else Some (total :: dims')
              end
          end;
  let size := length tensors :: dims in
  out ← foldl (λ acc it, out ← acc; assign dims out it.1 it.2)
              (Some (replicate (numel size) padding_value))
              (imap pair tensors);
  Some (mkArray size out).

(** A tensor holds one element per index. *)
Definition well_formed (t : ndarray) : Prop :=
  length (elems t) = numel (shape t).

(** The size of the result in dimension [k]: the largest size among the
    tensors. *)
Definition is_max_size (tensors : list ndarray) (k d : nat) : Prop :=
  (∀ t, t ∈ tensors → ∃ s, shape t !! k = Some s ∧ s ≤ d)
  ∧ ∃ t, t ∈ tensors ∧ shape t !! k = Some d.

End Pad.
Arguments ndarray A : clear implicits.
End Pad.

(* ===================================================================== *)
(** * The token tests of [supar/utils/fn.py] *)
(* ===================================================================== *)

Module Tokens.

(** A Python [str]: its code points. *)
Definition pystr := list N.

(** The values a token can yield when iterated: one-character strings
    (the items of a [str]) and integers. *)
Inductive pyobj := PyStr (s : pystr) | PyInt (z : Z).

(** Iterating a [str] yields its characters, each a [str] of length 1. *)
Definition chars (token : pystr) : list pyobj := (λ c, PyStr [c]) <$> token.

(** [set(range(10))] *)
Definition num_set : list Z := Z.of_nat <$> seq 0 10.

(** [x in num_set]: a string is never equal to an integer. *)
Definition in_num_set (x : pyobj) : bool :=
  match x with
  | PyInt z => bool_decide (z ∈ num_set)
  | PyStr _ => false
  end.

(** [has_number(token)], on the items the token yields. *)
Fixpoint has_number (token : list pyobj) : bool :=
  match token with
  | [] => false
  | char :: token' => if in_num_set char then true else has_number token'
  end.

(** [all(f(x) for x in l)]: stops at the first false item; an item that
    raises makes the call raise. *)
Fixpoint py_all {X : Type} (f : X → option bool) (l : list X) : option bool :=
  match l with
  | [] => Some true
  | x :: l' =>
      match f x with
      | None => None
      | Some false => Some false
      | Some true => py_all f l'
      end
  end.

(** [sub in s] for strings. *)
Fixpoint contains (sub s : string) : bool :=
  String.prefix sub s
  || match s with
     | EmptyString => false
     | String _ s' => contains sub s'
     end.

Section Unicodedata.
(** The tables of the module [unicodedata]; [name] raises on a character
    that has no name. *)
Variables (category : N → string) (east_asian_width : N → string)
          (name : N → option string).

Definition ispunct (token : pystr) : option bool :=
  py_all (λ c, Some (String.prefix "P" (category c))) token.

Definition isfullwidth (token : pystr) : option bool :=
  py_all (λ c, Some (existsb (String.eqb (east_asian_width c))
                             ["W"; "F"; "A"]%string))
         token.

Definition islatin (token : pystr) : option bool :=
  py_all (λ c, contains "LATIN" <$> name c) token.

Definition isdigit (token : pystr) : option bool :=
  py_all (λ c, contains "DIGIT" <$> name c) token.

End Unicodedata.
End Tokens.

(* ===================================================================== *)
(** * Predicates of the further properties *)
(* ===================================================================== *)

Module Finite.
Import ExtReal.

(** A value that is a real number. *)
Definition is_finite (a : ext) : bool :=
  match a with Fin _ => true | _ => false end.

(** A value that is a real number or [-inf]: neither NaN nor [+inf]. *)
Definition finite_or_ninf (a : ext) : bool :=
  match a with NInf | Fin _ => true | _ => false end.

End Finite.

Module ExtOrder.
Import ExtReal.

(** The order of the values that are real numbers or [-inf]. *)
Definition ext_le (a b : ext) : Prop :=
  match a, b with
  | NInf, NInf | NInf, Fin _ => True
  | Fin x, Fin y => (x <= y)%R
  | _, _ => False
  end.

End ExtOrder.

Module StripeFlat.
Import Tensor.

(** The position, in row-major order over the first two dimensions, of
    the element that position [(r, c)] of a stripe stands for. *)
Definition stripe_flat (d1 : nat) (offset : nat * nat) (dim r c : nat) : nat :=
  (stripe_src offset dim r c).1 * d1 + (stripe_src offset dim r c).2.

End StripeFlat.

(* ===================================================================== *)
(** * Properties of strided views *)
(* ===================================================================== *)

Module TensorFacts.
Import Tensor.

Lemma in_range_cons i idx d size :
  in_range (i :: idx) (d :: size) = true ↔ i < d ∧ in_range idx size = true.
Proof.
  simpl. rewrite andb_true_iff, Nat.ltb_lt. tauto.
Qed.

Lemma in_range_length idx size :
  in_range idx size = true → length idx = length size.
Proof.
  revert size. induction idx as [|i idx IH]; intros [|d size]; simpl; try done.
  rewrite andb_true_iff. intros [_ H]. f_equal. by apply IH.
Qed.

Lemma in_range_numel idx size : in_range idx size = true → 0 < numel size.
Proof.
  revert size. induction idx as [|i idx IH]; intros [|d size]; simpl; try done.
  - lia.
  - rewrite andb_true_iff, Nat.ltb_lt. intros [Hi H]. apply IH in H. nia.
Qed.

Lemma in_range_pred size : 0 < numel size → in_range (pred <$> size) size = true.
Proof.
  induction size as [|d size IH]; simpl; [done|].
  intros H. apply andb_true_iff. split.
  - apply Nat.ltb_lt. destruct d; simpl in *; lia.
  - apply IH. destruct (numel size); lia.
Qed.

Lemma dot_strides_ok size stride idx :
  strides_ok size stride = true → in_range idx size = true →
  dot idx stride = dot idx (row_major size).
Proof.
  revert stride idx.
  induction size as [|d size IH]; intros [|s stride] [|i idx]; simpl; try done.
  rewrite !andb_true_iff, orb_true_iff, !Nat.eqb_eq, Nat.ltb_lt.
  intros [Hs Hok] [Hi Hr]. rewrite (IH _ _ Hok Hr).
  destruct Hs as [-> | ->]; [|done].
  by replace i with 0 by lia.
Qed.

Lemma dot_row_major_lt idx size :
  in_range idx size = true → dot idx (row_major size) < numel size.
Proof.
  revert size. induction idx as [|i idx IH]; intros [|d size]; simpl; try done.
  - lia.
  - rewrite andb_true_iff, Nat.ltb_lt. intros [Hi H]. apply IH in H. nia.
Qed.

Lemma strides_ok_row_major size : strides_ok size (row_major size) = true.
Proof.
  induction size as [|d size IH]; simpl; [done|].
  rewrite IH, Nat.eqb_refl. by rewrite orb_true_r.
Qed.

Lemma strides_ok_length size stride :
  strides_ok size stride = true → length stride = length size.
Proof.
  revert stride. induction size as [|d size IH]; intros [|s stride]; simpl; try done.
  rewrite andb_true_iff. intros [_ H]. f_equal. by apply IH.
Qed.

Section HeapFacts.
Context {A : Type}.
Implicit Types (h : list (list A)) (x v : tensor) (st : list A).

(** Blocks of equal length: position [i * m + j] of the concatenation is
    position [j] of block [i]. *)
Lemma lookup_join_blocks (ls : list (list A)) m i j b :
  Forall (λ l, length l = m) ls → ls !! i = Some b → j < m →
  mjoin ls !! (i * m + j) = b !! j.
Proof.
  revert i. induction ls as [|l ls IH]; intros i Hall Hi Hj; [done|].
  pose proof (Forall_inv Hall) as Hl. apply Forall_inv_tail in Hall.
  simpl in Hl. destruct i as [|i]; simpl in *.
  - injection Hi as ->. rewrite lookup_app_l by lia. done.
  - rewrite lookup_app_r by lia.
    replace (m + i * m + j - length l) with (i * m + j) by lia.
    by apply IH.
Qed.

Lemma length_join_blocks (ls : list (list A)) m :
  Forall (λ l, length l = m) ls → length (mjoin ls) = length ls * m.
Proof.
  induction 1 as [|l ls Hl _ IH]; simpl; [done|].
  rewrite length_app, IH. lia.
Qed.

Lemma flatten_length st off size stride data :
  flatten st off size stride = Some data → length data = numel size.
Proof.
  revert off stride data.
  induction size as [|d size IH]; intros off stride data; simpl.
  - destruct (st !! off); simpl; [|done]. by intros [= <-].
  - destruct stride as [|s stride]; [done|].
    destruct (mapM _ _) as [blocks|] eqn:Hm; simpl; [|done].
    intros [= <-]. apply mapM_Some in Hm.
    rewrite (length_join_blocks _ (numel size)).
    + apply Forall2_length in Hm. rewrite length_seq in Hm. by rewrite <- Hm.
    + clear -Hm IH. induction Hm as [|i b js bs Hb _ IHm]; constructor; eauto.
Qed.

Lemma flatten_lookup st off size stride data idx :
  flatten st off size stride = Some data → in_range idx size = true →
  data !! dot idx (row_major size) = st !! (off + dot idx stride).
Proof.
  revert off stride data idx.
  induction size as [|d size IH]; intros off stride data idx; simpl.
  - destruct idx; [|done]. simpl.
    destruct (st !! off) as [a|] eqn:Ha; simpl; [|done].
    intros [= <-] _. by rewrite Nat.add_0_r, Ha.
  - destruct stride as [|s stride]; [done|].
    destruct idx as [|i idx]; [done|].
    destruct (mapM _ _) as [blocks|] eqn:Hm; simpl; [|done].
    intros [= <-]. rewrite andb_true_iff, Nat.ltb_lt. intros [Hi Hr].
    apply mapM_Some in Hm.
    assert (Hall : Forall (λ l, length l = numel size) blocks).
    { clear -Hm. induction Hm as [|j b js bs Hb _ IHm]; constructor; eauto.
      by eapply flatten_length. }
    destruct (Forall2_lookup_l _ _ _ i (0 + i) Hm) as (b & Hb & Hfb).
    { by apply lookup_seq_lt. }
    simpl in Hfb.
    rewrite (lookup_join_blocks _ _ _ _ b Hall Hb)
      by by apply dot_row_major_lt.
    rewrite (IH _ _ _ _ Hfb Hr). f_equal. lia.
Qed.

Lemma flatten_is_Some st off size stride :
  length stride = length size →
  (∀ idx, in_range idx size = true → off + dot idx stride < length st) →
  is_Some (flatten st off size stride).
Proof.
  revert off stride.
  induction size as [|d size IH]; intros off stride Hlen Hin; simpl.
  - specialize (Hin [] eq_refl). simpl in Hin.
    destruct (lookup_lt_is_Some_2 st off) as [a ->]; [lia|]. by eexists.
  - destruct stride as [|s stride]; [done|]. simpl in Hlen.
    apply fmap_is_Some, mapM_is_Some, Forall_forall.
    intros i Hi%in_seq. simpl. apply IH; [lia|].
    intros idx Hr.
    assert (Hlt : off + dot (i :: idx) (s :: stride) < length st).
    { apply Hin, in_range_cons. split; [lia|done]. }
    simpl in Hlt. lia.
Qed.

Lemma valid_lookup h x :
  valid h x → ∃ st, h !! tloc x = Some st.
Proof. intros (_ & st & Hst & _). eauto. Qed.

(** What [contiguous] returns on a valid tensor. *)
Lemma contiguous_spec h x :
  valid h x →
  ∃ h' x', contiguous h x = Some (h', x') ∧
    tsize x' = tsize x ∧ valid h' x' ∧ is_contiguous x' = true ∧
    (∀ idx, read h' x' idx = read h x idx) ∧
    (if is_contiguous x then h' = h ∧ x' = x
     else ∃ data, h' = h ++ [data] ∧ tloc x' = length h ∧ toffset x' = 0).
Proof.
  intros Hv. unfold contiguous.
  destruct (is_contiguous x) eqn:Hc.
  { exists h, x. split_and!; try done. }
  destruct Hv as (Hlen & st & Hst & Hin). rewrite Hst. simpl.
  destruct (flatten_is_Some st (toffset x) (tsize x) (tstride x) Hlen Hin)
    as [data Hdata].
  rewrite Hdata. simpl.
  eexists _, _. split; [done|]. simpl.
  assert (Hnew : (h ++ [data]) !! length h = Some data).
  { rewrite lookup_app_r by lia. by rewrite Nat.sub_diag. }
  split_and!; simpl.
  - done.
  - split; simpl; [apply strides_ok_length, strides_ok_row_major|].
    exists data. split; [done|]. intros idx Hr. unfold addr. simpl.
    rewrite (flatten_length _ _ _ _ _ Hdata). by apply dot_row_major_lt.
  - unfold is_contiguous. simpl. rewrite strides_ok_row_major.
    by rewrite orb_true_r.
  - intros idx. unfold read, addr. simpl.
    destruct (in_range idx (tsize x)) eqn:Hr; [|done].
    rewrite Hnew, Hst. simpl. by apply flatten_lookup.
  - by exists data.
Qed.

(** The stride arithmetic of [stripe]: on a contiguous tensor that starts
    at the beginning of its storage, position [(r, c, k)] of the stripe
    and position [(i, j, k)] of the tensor have the same address. *)
Lemma stripe_addr x d0 d1 rest offset dim r c k :
  tsize x = d0 :: d1 :: rest → is_contiguous x = true → toffset x = 0 →
  in_range k rest = true →
  (stripe_src offset dim r c).1 < d0 → (stripe_src offset dim r c).2 < d1 →
  (offset.1 * d1 + offset.2) * numel rest
    + dot (r :: c :: k)
        ((d1 + 1) * numel rest
           :: (if dim =? 1 then 1 else d1) * numel rest
           :: drop 2 (tstride x))
  = addr x ((stripe_src offset dim r c).1 :: (stripe_src offset dim r c).2 :: k).
Proof.
  intros Hsz Hc Hoff Hk Hi Hj. unfold addr. rewrite Hoff.
  unfold is_contiguous in Hc. rewrite Hsz in Hc.
  pose proof (in_range_numel _ _ Hk) as Hpos.
  apply orb_true_iff in Hc as [Hc | Hc].
  { apply Nat.eqb_eq in Hc. simpl in Hc.
    assert (0 < d0 * (d1 * numel rest)) by (repeat apply Nat.mul_pos_pos; lia).
    lia. }
  destruct (tstride x) as [|s0 [|s1 srest]]; simpl in Hc; try done.
  { by rewrite andb_false_r in Hc. }
  rewrite !andb_true_iff, !orb_true_iff, !Nat.eqb_eq in Hc.
  destruct Hc as (H0 & H1 & Hrest). simpl.
  rewrite (dot_strides_ok _ _ _ Hrest Hk).
  set (i := (stripe_src offset dim r c).1) in *.
  set (j := (stripe_src offset dim r c).2) in *.
  assert (Ei : i * s0 = i * (d1 * numel rest)).
  { destruct H0 as [-> | ->]; [|done]. by replace i with 0 by lia. }
  assert (Ej : j * s1 = j * numel rest).
  { destruct H1 as [-> | ->]; [|done]. by replace j with 0 by lia. }
  rewrite Ei, Ej. subst i j. unfold stripe_src.
  change (drop 0 srest) with srest. rewrite (dot_strides_ok _ _ _ Hrest Hk).
  destruct (dim =? 1); simpl; ring.
Qed.

Lemma read_write_same h x idx a h' :
  write h x idx a = Some h' → read h' x idx = Some a.
Proof.
  unfold write, read. destruct (in_range idx (tsize x)); [|done].
  destruct (h !! tloc x) as [st|] eqn:Hst; simpl; [|done].
  case_decide; [|done]. intros [= <-].
  rewrite list_lookup_insert_eq by by eapply lookup_lt_Some.
  simpl. by rewrite list_lookup_insert_eq.
Qed.

Lemma read_write_other_storage h x y idx idx' a h' :
  write h y idx a = Some h' → tloc y ≠ tloc x →
  read h' x idx' = read h x idx'.
Proof.
  unfold write, read. destruct (in_range idx (tsize y)); [|done].
  destruct (h !! tloc y) as [st|] eqn:Hst; simpl; [|done].
  case_decide; [|done]. intros [= <-] Hne.
  by rewrite list_lookup_insert_ne.
Qed.

(** Two views that resolve an index pair to the same cell of the same
    storage read and write the same. *)
Lemma read_same_cell h x y idx idy :
  tloc x = tloc y → addr x idx = addr y idy →
  in_range idx (tsize x) = true → in_range idy (tsize y) = true →
  read h x idx = read h y idy.
Proof.
  intros Hl Ha Hx Hy. unfold read. by rewrite Hx, Hy, Hl, Ha.
Qed.

Lemma write_same_cell h x y idx idy a :
  tloc x = tloc y → addr x idx = addr y idy →
  in_range idx (tsize x) = true → in_range idy (tsize y) = true →
  write h x idx a = write h y idy a.
Proof.
  intros Hl Ha Hx Hy. unfold write. by rewrite Hx, Hy, Hl, Ha.
Qed.

Lemma write_is_Some h x idx a :
  valid h x → in_range idx (tsize x) = true → is_Some (write h x idx a).
Proof.
  intros (_ & st & Hst & Hin) Hr. unfold write. rewrite Hr, Hst. simpl.
  rewrite decide_True by by apply Hin. by eexists.
Qed.

Lemma read_is_Some h x idx :
  valid h x → in_range idx (tsize x) = true → is_Some (read h x idx).
Proof.
  intros (_ & st & Hst & Hin) Hr. unfold read. rewrite Hr, Hst. simpl.
  by apply lookup_lt_is_Some_2, Hin.
Qed.

Lemma stripe_on_contiguous h x d0 d1 rest n w offset dim :
  valid h x → is_contiguous x = true → toffset x = 0 →
  tsize x = d0 :: d1 :: rest → 0 < d0 → 0 < d1 →
  stripe_in_bounds d0 d1 n w offset dim →
  ∃ v, stripe h x n w offset dim = Some (h, v) ∧
       tloc v = tloc x ∧ tsize v = n :: w :: rest ∧
       ∀ r c k, r < n → c < w → in_range k rest = true →
         addr v (r :: c :: k)
         = addr x ((stripe_src offset dim r c).1
                     :: (stripe_src offset dim r c).2 :: k).
Proof.
  intros Hv Hc Hoff Hsz Hd0 Hd1 Hb.
  unfold stripe, contiguous. rewrite Hc. simpl. rewrite Hsz.
  assert ((d0 =? 0) || (d1 =? 0) = false) as ->.
  { apply orb_false_iff. split; apply Nat.eqb_neq; lia. }
  destruct Hv as (Hlen & st & Hst & Hin).
  unfold as_strided. rewrite Hst. simpl.
  set (stride := (d1 + 1) * numel rest
                   :: (if dim =? 1 then 1 else d1) * numel rest
                   :: drop 2 (tstride x)).
  set (off := (offset.1 * d1 + offset.2) * numel rest).
  assert (Haddr : ∀ r c k, r < n → c < w → in_range k rest = true →
            off + dot (r :: c :: k) stride
            = addr x ((stripe_src offset dim r c).1
                        :: (stripe_src offset dim r c).2 :: k)).
  { intros r c k Hr Hcw Hk. destruct (Hb r c Hr Hcw) as [Hi Hj].
    by apply (stripe_addr x d0). }
  rewrite decide_True.
  { eexists. split; [done|]. by repeat split. }
  unfold storage_need.
  destruct (numel (n :: w :: rest) =? 0) eqn:Hz; [lia|].
  apply Nat.eqb_neq in Hz. simpl in Hz.
  assert (0 < n ∧ 0 < w ∧ 0 < numel rest) as (Hn & Hw & Hrest) by nia.
  pose proof (in_range_pred rest Hrest) as Hk.
  change (pred <$> n :: w :: rest)
    with (pred n :: pred w :: (pred <$> rest)).
  rewrite (Haddr (pred n) (pred w) (pred <$> rest)) by (done || lia).
  destruct (Hb (pred n) (pred w)) as [Hi Hj]; [lia..|].
  assert (Hr : in_range ((stripe_src offset dim (pred n) (pred w)).1
                 :: (stripe_src offset dim (pred n) (pred w)).2
                 :: (pred <$> rest)) (tsize x) = true).
  { rewrite Hsz. apply in_range_cons. split; [done|].
    apply in_range_cons. by split. }
  specialize (Hin _ Hr). lia.
Qed.

Lemma stripe_via_contiguous h x h' x' n w offset dim :
  contiguous h x = Some (h', x') → is_contiguous x' = true →
  stripe h x n w offset dim = stripe h' x' n w offset dim.
Proof.
  intros Hx Hc. unfold stripe at 1 2. rewrite Hx. simpl.
  unfold contiguous. by rewrite Hc.
Qed.

Lemma read_app_old h x idx data :
  valid h x → read (h ++ [data]) x idx = read h x idx.
Proof.
  intros (_ & st & Hst & _). unfold read.
  destruct (in_range idx (tsize x)); [|done].
  by rewrite (lookup_app_l_Some _ _ _ _ Hst), Hst.
Qed.

(** The behaviour of [stripe] on a valid table whose first two dimensions
    are not empty and which, when contiguous, starts at the beginning of
    its storage. *)
Lemma stripe_behaviour h x d0 d1 rest n w offset dim :
  valid h x → tsize x = d0 :: d1 :: rest → 0 < d0 → 0 < d1 →
  (is_contiguous x = true → toffset x = 0) →
  stripe_in_bounds d0 d1 n w offset dim →
  ∃ h' v, stripe h x n w offset dim = Some (h', v) ∧
    tsize v = n :: w :: rest ∧
    (∀ r c k, r < n → c < w → in_range k rest = true →
       is_Some (read h' v (r :: c :: k)) ∧
       read h' v (r :: c :: k)
       = read h x ((stripe_src offset dim r c).1
                     :: (stripe_src offset dim r c).2 :: k)) ∧
    (is_contiguous x = true →
       h' = h ∧ tloc v = tloc x ∧
       ∀ r c k a, r < n → c < w → in_range k rest = true →
         ∃ h'', write h' v (r :: c :: k) a = Some h'' ∧
                read h'' x ((stripe_src offset dim r c).1
                              :: (stripe_src offset dim r c).2 :: k)
                = Some a) ∧
    (is_contiguous x = false →
       tloc v = length h ∧
       ∀ idx a h'', write h' v idx a = Some h'' →
         ∀ idx', read h'' x idx' = read h x idx').
Proof.
  intros Hv Hsz Hd0 Hd1 Hoff Hb.
  destruct (contiguous_spec h x Hv)
    as (h' & x' & Hx & Hsz' & Hv' & Hc' & Hread & Hcase).
  assert (Hoff' : toffset x' = 0).
  { destruct (is_contiguous x).
    - destruct Hcase as [_ ->]. by apply Hoff.
    - by destruct Hcase as (_ & _ & _ & ->). }
  rewrite Hsz in Hsz'.
  destruct (stripe_on_contiguous h' x' d0 d1 rest n w offset dim
              Hv' Hc' Hoff' Hsz' Hd0 Hd1 Hb)
    as (v & Hs & Hloc & Hvsz & Haddr).
  exists h', v.
  rewrite (stripe_via_contiguous _ _ _ _ _ _ _ _ Hx Hc').
  assert (Hrv : ∀ r c k, r < n → c < w → in_range k rest = true →
            in_range (r :: c :: k) (tsize v) = true).
  { intros r c k Hr Hcw Hk. rewrite Hvsz.
    apply in_range_cons. split; [done|]. apply in_range_cons. by split. }
  assert (Hrx : ∀ r c k, r < n → c < w → in_range k rest = true →
            in_range ((stripe_src offset dim r c).1
                        :: (stripe_src offset dim r c).2 :: k) (tsize x')
            = true).
  { intros r c k Hr Hcw Hk. rewrite Hsz'. destruct (Hb r c Hr Hcw).
    apply in_range_cons. split; [done|]. apply in_range_cons. by split. }
  split_and!; [done|done|..].
  - intros r c k Hr Hcw Hk.
    rewrite (read_same_cell h' v x' _ _ Hloc (Haddr r c k Hr Hcw Hk))
      by eauto.
    split; [apply read_is_Some; eauto | apply Hread].
  - intros Hc. rewrite Hc in Hcase. destruct Hcase as [-> ->].
    split_and!; [done|done|].
    intros r c k a Hr Hcw Hk.
    rewrite (write_same_cell h v x _ _ a Hloc (Haddr r c k Hr Hcw Hk))
      by eauto.
    destruct (write_is_Some h x _ a Hv (Hrx r c k Hr Hcw Hk)) as [h'' Hw].
    exists h''. split; [done|]. by eapply read_write_same.
  - intros Hc. rewrite Hc in Hcase.
    destruct Hcase as (data & -> & Hl & _).
    split; [congruence|].
    intros idx a h'' Hw idx'.
    rewrite (read_write_other_storage _ x v idx idx' a h'' Hw).
    + by apply read_app_old.
    + destruct (valid_lookup h x Hv) as [st Hst].
      apply lookup_lt_Some in Hst. lia.
Qed.

End HeapFacts.
End TensorFacts.

(* ===================================================================== *)
(** * Properties of the table operations *)
(* ===================================================================== *)

Module TableFacts.
Import Tensor Table TensorFacts.

(** Row-major address of [s[i, j, b]]. *)
Definition flat (d1 B i j b : nat) : nat := (i * d1 + j) * B + b.

Lemma flat_lt d0 d1 B i j b :
  i < d0 → j < d1 → b < B → flat d1 B i j b < d0 * d1 * B.
Proof.
  unfold flat. intros Hi Hj Hb.
  assert (i * d1 + j + 1 ≤ d0 * d1) by nia.
  assert ((i * d1 + j + 1) * B ≤ d0 * d1 * B) by (apply Nat.mul_le_mono_r; lia).
  lia.
Qed.

Lemma flat_inj d1 B i j b i' j' b' :
  j < d1 → b < B → j' < d1 → b' < B →
  flat d1 B i j b = flat d1 B i' j' b' → i = i' ∧ j = j' ∧ b = b'.
Proof.
  unfold flat. intros Hj Hb Hj' Hb' E.
  destruct (Nat.div_mod_unique B (i * d1 + j) (i' * d1 + j') b b')
    as [E1 ->]; [done|done|lia|].
  destruct (Nat.div_mod_unique d1 i i' j j') as [-> ->]; [done|done|lia|].
  done.
Qed.

Section Facts.
Context {A : Type} `{LogDomain A}.
Implicit Types (s : list A).

Lemma tget_flat d0 d1 B s i j b :
  i < d0 → j < d1 → b < B →
  tget d0 d1 B s i j b = default ninf (s !! flat d1 B i j b).
Proof.
  intros Hi Hj Hb. unfold tget, read, addr, flat. simpl.
  rewrite !(proj2 (Nat.ltb_lt _ _)) by done. simpl.
  do 2 f_equal. ring.
Qed.

Lemma tset_flat d0 d1 B s i j b a :
  i < d0 → j < d1 → b < B →
  tset d0 d1 B s i j b a = <[flat d1 B i j b := a]> s.
Proof.
  intros Hi Hj Hb. unfold tset, write, addr, flat. simpl.
  rewrite !(proj2 (Nat.ltb_lt _ _)) by done. simpl.
  replace (i * (d1 * (B * 1)) + (j * (B * 1) + (b * 1 + 0)))
    with ((i * d1 + j) * B + b) by ring.
  case_decide; [done|]. by rewrite list_insert_ge by lia.
Qed.

Lemma length_tset d0 d1 B s i j b a :
  length (tset d0 d1 B s i j b a) = length s.
Proof.
  unfold tset, write. simpl.
  destruct (_ && _); [|done]. simpl.
  case_decide; [|done]. simpl. by rewrite length_insert.
Qed.

Lemma tget_tset_eq d0 d1 B s i j b a :
  length s = d0 * d1 * B → i < d0 → j < d1 → b < B →
  tget d0 d1 B (tset d0 d1 B s i j b a) i j b = a.
Proof.
  intros Hlen Hi Hj Hb.
  rewrite tget_flat, tset_flat by done.
  rewrite list_lookup_insert_eq; [done|].
  rewrite Hlen. by apply flat_lt.
Qed.

Lemma tget_tset_ne d0 d1 B s i j b a i' j' b' :
  i < d0 → j < d1 → b < B → i' < d0 → j' < d1 → b' < B →
  (i, j, b) ≠ (i', j', b') →
  tget d0 d1 B (tset d0 d1 B s i j b a) i' j' b' = tget d0 d1 B s i' j' b'.
Proof.
  intros Hi Hj Hb Hi' Hj' Hb' Hne.
  rewrite !tget_flat, tset_flat by done.
  rewrite list_lookup_insert_ne; [done|].
  intros E. apply flat_inj in E as (-> & -> & ->); done.
Qed.

Lemma tview_valid d0 d1 B s :
  length s = d0 * d1 * B → valid [s] (tview d0 d1 B).
Proof.
  intros Hlen. split; [done|]. exists s. split; [done|].
  intros idx Hr. unfold addr. simpl toffset. simpl tstride.
  pose proof (dot_row_major_lt idx [d0; d1; B] Hr) as Hlt.
  simpl in Hlt. simpl. lia.
Qed.

(** Reading a stripe of a table is reading the table at the position the
    stripe stands for: the in-bounds case of [stripe]. *)
Lemma stripe_get_tget d0 d1 B s n w offset dim r c b :
  length s = d0 * d1 * B → 0 < d0 → 0 < d1 →
  stripe_in_bounds d0 d1 n w offset dim →
  r < n → c < w → b < B →
  stripe_get d0 d1 B s n w offset dim r c b
  = tget d0 d1 B s (stripe_src offset dim r c).1
                   (stripe_src offset dim r c).2 b.
Proof.
  intros Hlen Hd0 Hd1 Hb Hr Hc Hbb.
  destruct (stripe_behaviour [s] (tview d0 d1 B) d0 d1 [B] n w offset dim)
    as (h' & v & Hs & _ & Hread & _); try done.
  { by apply tview_valid. }
  unfold stripe_get, tget. rewrite Hs. simpl.
  destruct (Hread r c [b]) as [_ ->]; try done.
  simpl. by rewrite (proj2 (Nat.ltb_lt _ _)).
Qed.

Lemma length_full d0 d1 B (a : A) : length (full d0 d1 B a) = d0 * d1 * B.
Proof. apply length_replicate. Qed.

Lemma tget_full d0 d1 B (a : A) i j b :
  i < d0 → j < d1 → b < B → tget d0 d1 B (full d0 d1 B a) i j b = a.
Proof.
  intros Hi Hj Hb. rewrite tget_flat by done. unfold full.
  rewrite lookup_replicate_2; [done|]. by apply flat_lt.
Qed.

(** Writing one table entry for every sentence of the batch. *)
Lemma length_foldl_batch d0 d1 B s i j (f : nat → A) l :
  length (foldl (λ s b, tset d0 d1 B s i j b (f b)) s l) = length s.
Proof.
  revert s. induction l as [|b l IH]; intros s; simpl; [done|].
  by rewrite IH, length_tset.
Qed.

Lemma tget_foldl_batch d0 d1 B s i j (f : nat → A) m x y b :
  length s = d0 * d1 * B → i < d0 → j < d1 → m ≤ B →
  x < d0 → y < d1 → b < B →
  tget d0 d1 B (foldl (λ s b, tset d0 d1 B s i j b (f b)) s (seq 0 m)) x y b
  = if decide (x = i ∧ y = j ∧ b < m) then f b else tget d0 d1 B s x y b.
Proof.
  intros Hlen Hi Hj Hm Hx Hy Hb.
  induction m as [|m IH].
  { simpl. rewrite decide_False by lia. done. }
  rewrite seq_S, foldl_app. simpl.
  destruct (decide ((i, j, m) = (x, y, b))) as [[= -> -> ->]|Hne].
  - rewrite tget_tset_eq; try done.
    + rewrite decide_True by lia. done.
    + by rewrite length_foldl_batch.
  - rewrite tget_tset_ne by (done || lia). rewrite IH by lia.
    destruct (decide (x = i ∧ y = j ∧ b < m)) as [Hd|Hd].
    + rewrite decide_True by lia. done.
    + rewrite decide_False; [done|].
      intros (-> & -> & Hlt). apply Hd. split_and!; try done.
      destruct (decide (b = m)) as [->|]; [done|lia].
Qed.

Lemma diagonal_index_spec offset k :
  diagonal_index offset k
  = (k + Z.to_nat (- offset)%Z, k + Z.to_nat offset).
Proof.
  unfold diagonal_index. destruct (Z.leb_spec 0 offset).
  - replace (Z.to_nat (- offset)) with 0 by lia. by rewrite Nat.add_0_r.
  - replace (Z.to_nat offset) with 0 by lia. by rewrite Nat.add_0_r.
Qed.

Lemma length_diagonal_copy S B s offset (v : nat → nat → A) :
  length (diagonal_copy S B s offset v) = length s.
Proof.
  unfold diagonal_copy. generalize (seq 0 (diagonal_len S offset)).
  intros l. revert s. induction l as [|k l IH]; intros s; simpl; [done|].
  by rewrite IH, length_foldl_batch.
Qed.

(** [s.diagonal(offset).copy_(v)] writes [v[b, k]] to the entries with
    [y - x = offset] and leaves the others alone. *)
Lemma tget_diagonal_copy S B s offset (v : nat → nat → A) x y b :
  length s = S * S * B → x < S → y < S → b < B →
  tget S S B (diagonal_copy S B s offset v) x y b
  = if decide (Z.of_nat y - Z.of_nat x = offset)%Z
    then v b (x `min` y) else tget S S B s x y b.
Proof.
  intros Hlen Hx Hy Hb. unfold diagonal_copy.
  assert (Hgen : ∀ m, m ≤ diagonal_len S offset →
    (tget S S B
      (foldl (λ s k,
         foldl (λ s b,
           tset S S B s (diagonal_index offset k).1
                (diagonal_index offset k).2 b (v b k)) s (seq 0 B))
         s (seq 0 m)) x y b
    = if decide ((Z.of_nat y - Z.of_nat x = offset)%Z ∧ x `min` y < m)
      then v b (x `min` y) else tget S S B s x y b)
    ∧ length (foldl (λ s k,
         foldl (λ s b,
           tset S S B s (diagonal_index offset k).1
                (diagonal_index offset k).2 b (v b k)) s (seq 0 B))
         s (seq 0 m)) = length s).
  { induction m as [|m IH]; intros Hm.
    { simpl. rewrite decide_False by lia. done. }
    destruct IH as [IH IHlen]; [lia|].
    rewrite seq_S, foldl_app. simpl.
    rewrite length_foldl_batch. split; [|done].
    unfold diagonal_len in Hm. rewrite diagonal_index_spec. simpl.
    rewrite tget_foldl_batch by lia. rewrite IH.
    destruct (decide (x = m + Z.to_nat (- offset)%Z
                      ∧ y = m + Z.to_nat offset ∧ b < B)) as [Hd|Hd].
    - destruct Hd as (-> & -> & _).
      rewrite decide_True by lia. f_equal. lia.
    - destruct (decide ((Z.of_nat y - Z.of_nat x = offset)%Z
                        ∧ x `min` y < m)) as [Hd'|Hd'].
      + rewrite decide_True by lia. done.
      + rewrite decide_False; [done|]. intros [Ho Hlt].
        destruct (decide (x `min` y = m)) as [E|]; [|lia].
        apply Hd. lia. }
  destruct (Hgen (diagonal_len S offset)) as [-> _]; [done|].
  unfold diagonal_len.
  destruct (decide (Z.of_nat y - Z.of_nat x = offset)%Z) as [Hd|Hd].
  - rewrite decide_True by lia. done.
  - rewrite decide_False by tauto. done.
Qed.

Lemma length_root_mask S B s lens w :
  length (root_mask S B s lens w) = length s.
Proof.
  unfold root_mask. generalize (seq 0 B). intros l. revert s.
  induction l as [|b l IH]; intros s; simpl; [done|].
  rewrite IH. destruct (lens b =? w); [done|]. apply length_tset.
Qed.

(** The root mask writes [-inf] to [s[0, w]] of the sentences whose length
    is not [w]. *)
Lemma tget_root_mask S B s lens w x y b :
  length s = S * S * B → w < S → x < S → y < S → b < B →
  tget S S B (root_mask S B s lens w) x y b
  = if decide (x = 0 ∧ y = w ∧ lens b ≠ w) then ninf
    else tget S S B s x y b.
Proof.
  intros Hlen Hw Hx Hy Hb. unfold root_mask.
  assert (Hgen : ∀ m, m ≤ B →
    (tget S S B
      (foldl (λ s b, if lens b =? w then s else tset S S B s 0 w b ninf)
             s (seq 0 m)) x y b
    = if decide (x = 0 ∧ y = w ∧ lens b ≠ w ∧ b < m) then ninf
      else tget S S B s x y b)
    ∧ length (foldl (λ s b, if lens b =? w then s
                            else tset S S B s 0 w b ninf) s (seq 0 m))
      = length s).
  { induction m as [|m IH]; intros Hm.
    { simpl. rewrite decide_False by lia. done. }
    destruct IH as [IH IHlen]; [lia|].
    rewrite seq_S, foldl_app. simpl.
    destruct (Nat.eqb_spec (lens m) w) as [E|E].
    - split; [|done]. rewrite IH.
      destruct (decide (x = 0 ∧ y = w ∧ lens b ≠ w ∧ b < m)) as [Hd|Hd].
      + rewrite decide_True by lia. done.
      + rewrite decide_False; [done|]. intros (-> & -> & Hl & Hlt).
        destruct (decide (b = m)) as [->|]; [done|]. apply Hd. lia.
    - rewrite length_tset. split; [|done].
      destruct (decide ((0, w, m) = (x, y, b))) as [[= <- <- <-]|Hne].
      + rewrite tget_tset_eq by lia. rewrite decide_True by lia. done.
      + rewrite tget_tset_ne by (done || lia). rewrite IH.
        destruct (decide (x = 0 ∧ y = w ∧ lens b ≠ w ∧ b < m)) as [Hd|Hd].
        * rewrite decide_True by lia. done.
        * rewrite decide_False; [done|]. intros (-> & -> & Hl & Hlt).
          destruct (decide (b = m)) as [->|]; [done|]. apply Hd. lia. }
  destruct (Hgen B) as [-> _]; [done|].
  destruct (decide (x = 0 ∧ y = w ∧ lens b ≠ w)) as [Hd|Hd].
  - rewrite decide_True by lia. done.
  - rewrite decide_False by tauto. done.
Qed.

End Facts.
End TableFacts.

(* ===================================================================== *)
(** * The inside recurrence of the first-order dependency CRF *)
(* ===================================================================== *)

Module CRFDependencyFacts.
Import Tensor Table TensorFacts TableFacts CRFDependency.

Lemma fmap_seq_ext {X : Type} (f g : nat → X) (start n : nat) :
  (∀ c, start ≤ c < start + n → f c = g c) →
  f <$> seq start n = g <$> seq start n.
Proof.
  revert start. induction n as [|n IH]; intros start Hfg; simpl; [done|].
  f_equal; [apply Hfg; lia|]. apply IH. intros c Hc. apply Hfg. lia.
Qed.

Lemma fmap_seq_shift {X : Type} (f : nat → X) (start n : nat) :
  f <$> seq start n = (λ c, f (start + c)) <$> seq 0 n.
Proof.
  replace (seq start n) with (Nat.add start <$> seq 0 n)
    by (rewrite fmap_add_seq; f_equal; lia).
  by rewrite <- list_fmap_compose.
Qed.

(** The stripes taken by the inside loops stay inside the tables. *)
Ltac stripe_bounds :=
  unfold stripe_in_bounds, stripe_src; simpl; intros; lia.

Section Recurrence.
Context {A : Type} `{LogDomain A}.
Variables (S B : nat) (scores : nat → nat → nat → A) (lens : nat → nat).

(** Table entries of a state. *)
Definition I (t : tables A) (x y b : nat) : A := tget S S B (s_i t) x y b.
Definition C (t : tables A) (x y b : nat) : A := tget S S B (s_c t) x y b.

Definition wf (t : tables A) : Prop :=
  length (s_i t) = S * S * B ∧ length (s_c t) = S * S * B.

(** The equations of the spans [(i, i + w)], over any way [Cf], [If] of
    reading the two tables; split points are [i + c]. *)
Definition rec (Cf If : nat → nat → nat → A) (w i b : nat) : Prop :=
  If (i + w) i b
    = add (lse ((λ c, add (Cf i (i + c) b) (Cf (i + w) (i + c + 1) b))
                  <$> seq 0 w))
          (scores (i + w) i b)
  ∧ If i (i + w) b
    = add (lse ((λ c, add (Cf i (i + c) b) (Cf (i + w) (i + c + 1) b))
                  <$> seq 0 w))
          (scores i (i + w) b)
  ∧ Cf (i + w) i b
    = lse ((λ c, add (Cf (i + c) i b) (If (i + w) (i + c) b)) <$> seq 0 w)
  ∧ Cf i (i + w) b
    = if decide (i = 0 ∧ lens b ≠ w) then ninf
      else lse ((λ c, add (If i (i + c + 1) b) (Cf (i + c + 1) (i + w) b))
                  <$> seq 0 w).

Definition width (x y : nat) : nat := (x - y) + (y - x).

Lemma rec_ext Cf If Cf' If' w i b :
  i + w < S →
  (∀ x y, x < S → y < S → width x y ≤ w →
          Cf' x y b = Cf x y b ∧ If' x y b = If x y b) →
  rec Cf If w i b → rec Cf' If' w i b.
Proof.
  unfold width. intros Hi Hext (E1 & E2 & E3 & E4).
  assert (HC : ∀ x y, x < S → y < S → (x - y) + (y - x) ≤ w →
            Cf' x y b = Cf x y b) by (intros; by apply Hext).
  assert (HI : ∀ x y, x < S → y < S → (x - y) + (y - x) ≤ w →
            If' x y b = If x y b) by (intros; by apply Hext).
  unfold rec. split_and!.
  - rewrite HI, E1 by lia. do 2 f_equal. apply fmap_seq_ext.
    intros c Hc. rewrite !HC by lia. done.
  - rewrite HI, E2 by lia. do 2 f_equal. apply fmap_seq_ext.
    intros c Hc. rewrite !HC by lia. done.
  - rewrite HC, E3 by lia. f_equal. apply fmap_seq_ext.
    intros c Hc. rewrite HC, HI by lia. done.
  - rewrite HC, E4 by lia. case_decide; [done|]. f_equal.
    apply fmap_seq_ext. intros c Hc. rewrite HC, HI by lia. done.
Qed.

(** One iteration: the entries of width [w] are written, all others are
    kept. *)
Lemma inside_step_spec t w :
  wf t → 1 ≤ w → w < S →
  let t' := inside_step S B scores lens t w in
  wf t' ∧
  (∀ x y b, x < S → y < S → b < B → width x y ≠ w →
     I t' x y b = I t x y b ∧ C t' x y b = C t x y b) ∧
  (∀ i b, i + w < S → b < B → rec (C t') (I t') w i b).
Proof.
  intros [Hli Hlc] Hw HwS. unfold inside_step.
  set (n := S - w).
  set (ilr := λ r c b,
        add (stripe_get S S B (s_c t) n w (0, 0) 1 r c b)
            (stripe_get S S B (s_c t) n w (w, 1) 1 r c b)).
  set (il := logsumexp w ilr).
  set (s_i1 := diagonal_copy S B (s_i t) (- Z.of_nat w) _).
  set (s_i2 := diagonal_copy S B s_i1 (Z.of_nat w) _).
  set (cl := λ r c b,
        add (stripe_get S S B (s_c t) n w (0, 0) 0 r c b)
            (stripe_get S S B s_i2 n w (w, 0) 1 r c b)).
  set (s_c1 := diagonal_copy S B (s_c t) (- Z.of_nat w) _).
  set (cr := λ r c b,
        add (stripe_get S S B s_i2 n w (0, 1) 1 r c b)
            (stripe_get S S B s_c1 n w (1, w) 0 r c b)).
  set (s_c2 := diagonal_copy S B s_c1 (Z.of_nat w) _).
  set (s_c3 := root_mask S B s_c2 lens w).
  assert (Hl1 : length s_i1 = S * S * B)
    by (subst s_i1; by rewrite length_diagonal_copy).
  assert (Hl2 : length s_i2 = S * S * B)
    by (subst s_i2; by rewrite length_diagonal_copy).
  assert (Hc1 : length s_c1 = S * S * B)
    by (subst s_c1; by rewrite length_diagonal_copy).
  assert (Hc2 : length s_c2 = S * S * B)
    by (subst s_c2; by rewrite length_diagonal_copy).
  assert (Hc3 : length s_c3 = S * S * B)
    by (subst s_c3; by rewrite length_root_mask).
  (* the entries of the new tables *)
  assert (HI2 : ∀ x y b, x < S → y < S → b < B →
    tget S S B s_i2 x y b
    = if decide (Z.of_nat y - Z.of_nat x = Z.of_nat w)%Z
      then add (il b (x `min` y)) (diagonal scores (Z.of_nat w) b (x `min` y))
      else if decide (Z.of_nat y - Z.of_nat x = - Z.of_nat w)%Z
      then add (il b (x `min` y))
               (diagonal scores (- Z.of_nat w) b (x `min` y))
      else tget S S B (s_i t) x y b).
  { intros x y b Hx Hy Hb. subst s_i2 s_i1.
    rewrite tget_diagonal_copy by (done || by rewrite length_diagonal_copy).
    case_decide; [done|]. by rewrite tget_diagonal_copy. }
  assert (HC1 : ∀ x y b, x < S → y < S → b < B →
    tget S S B s_c1 x y b
    = if decide (Z.of_nat y - Z.of_nat x = - Z.of_nat w)%Z
      then logsumexp w cl b (x `min` y) else tget S S B (s_c t) x y b).
  { intros x y b Hx Hy Hb. subst s_c1. by rewrite tget_diagonal_copy. }
  assert (HC3 : ∀ x y b, x < S → y < S → b < B →
    tget S S B s_c3 x y b
    = if decide (x = 0 ∧ y = w ∧ lens b ≠ w) then ninf
      else if decide (Z.of_nat y - Z.of_nat x = Z.of_nat w)%Z
      then logsumexp w cr b (x `min` y)
      else tget S S B s_c1 x y b).
  { intros x y b Hx Hy Hb. subst s_c3 s_c2.
    rewrite tget_root_mask by done. case_decide; [done|].
    by rewrite tget_diagonal_copy. }
  assert (Hil : ∀ i b, i + w < S → b < B →
    il b i = lse ((λ c, add (tget S S B (s_c t) i (i + c) b)
                            (tget S S B (s_c t) (i + w) (i + c + 1) b))
                    <$> seq 0 w)).
  { intros i b Hi Hb. subst il ilr. unfold logsumexp. f_equal.
    apply fmap_seq_ext. intros c Hc.
    rewrite !stripe_get_tget by (done || lia || stripe_bounds).
    unfold stripe_src. simpl. do 2 f_equal; lia. }
  simpl. split_and!; [by split|..].
  - (* frame *)
    unfold width, I, C. simpl. intros x y b Hx Hy Hb Hne.
    rewrite HI2, HC3, HC1 by done.
    rewrite !decide_False by lia. done.
  - (* the entries of width w *)
    intros i b Hi Hb. unfold rec, I, C. simpl. split_and!.
    + rewrite HI2 by lia. rewrite decide_False by lia.
      rewrite decide_True by lia.
      replace ((i + w) `min` i) with i by lia. rewrite Hil by done.
      unfold diagonal. rewrite diagonal_index_spec. simpl.
      f_equal; [f_equal|f_equal; lia].
      apply fmap_seq_ext. intros c Hc.
      rewrite !HC3, !HC1 by lia. rewrite !decide_False by lia. done.
    + rewrite HI2 by lia. rewrite decide_True by lia.
      replace (i `min` (i + w)) with i by lia. rewrite Hil by done.
      unfold diagonal. rewrite diagonal_index_spec. simpl.
      f_equal; [f_equal|f_equal; lia].
      apply fmap_seq_ext. intros c Hc.
      rewrite !HC3, !HC1 by lia. rewrite !decide_False by lia. done.
    + rewrite HC3, HC1 by lia. rewrite decide_False by lia.
      rewrite decide_False by lia. rewrite decide_True by lia.
      replace ((i + w) `min` i) with i by lia.
      unfold logsumexp. f_equal. apply fmap_seq_ext. intros c Hc.
      subst cl. simpl.
      rewrite !stripe_get_tget by (done || lia || stripe_bounds).
      unfold stripe_src. simpl.
      rewrite HC3, HC1 by lia. rewrite !decide_False by lia.
      do 2 f_equal; lia.
    + rewrite HC3 by lia.
      destruct (decide (i = 0 ∧ lens b ≠ w)) as [Hd|Hd].
      { rewrite decide_True by lia. done. }
      rewrite decide_False by lia. rewrite decide_True by lia.
      replace (i `min` (i + w)) with i by lia.
      unfold logsumexp. f_equal. apply fmap_seq_ext. intros c Hc.
      subst cr. simpl.
      rewrite !stripe_get_tget by (done || lia || stripe_bounds).
      unfold stripe_src. simpl.
      rewrite (HC3 (i + c + 1)), !HC1 by lia. rewrite !decide_False by lia.
      do 2 f_equal; lia.
Qed.

Lemma inside_init_spec :
  wf (inside_init S B) ∧
  ∀ x y b, x < S → y < S → b < B →
    I (inside_init S B) x y b = ninf ∧
    C (inside_init S B) x y b = if decide (x = y) then zero else ninf.
Proof.
  unfold wf, I, C, inside_init. simpl.
  rewrite length_diagonal_copy, length_full. split; [done|].
  intros x y b Hx Hy Hb. rewrite tget_full by done. split; [done|].
  rewrite tget_diagonal_copy by (done || apply length_full).
  rewrite tget_full by done.
  destruct (decide (x = y)) as [->|Hne].
  - rewrite decide_True by lia. done.
  - rewrite decide_False by lia. done.
Qed.

(** After the iterations [1 .. m] the spans of width at most [m] satisfy
    their equations and the main diagonal is untouched. *)
Lemma inside_loop_spec m :
  m ≤ S - 1 →
  let t := foldl (inside_step S B scores lens) (inside_init S B) (seq 1 m) in
  wf t ∧
  (∀ w i b, 1 ≤ w ≤ m → i + w < S → b < B → rec (C t) (I t) w i b) ∧
  (∀ x b, x < S → b < B → C t x x b = zero).
Proof.
  induction m as [|m IH]; intros Hm; cbv zeta.
  { simpl. destruct inside_init_spec as [Hwf Hinit]. split_and!; [done|lia|].
    intros x b Hx Hb. destruct (Hinit x x b) as [_ ->]; try done.
    by rewrite decide_True. }
  destruct IH as (Hwf & Hrec & Hdiag); [lia|].
  rewrite seq_S, foldl_app. simpl.
  set (t := foldl _ _ (seq 1 m)) in *.
  destruct (inside_step_spec t (Datatypes.S m) Hwf) as (Hwf' & Hframe & Hnew);
    [lia..|].
  split_and!; [done|..].
  - intros w i b Hw Hi Hb.
    destruct (decide (w = Datatypes.S m)) as [->|Hne]; [by apply Hnew|].
    apply (rec_ext (C t) (I t)); [done| |apply Hrec; lia].
    intros x y Hx Hy Hxy.
    destruct (Hframe x y b) as [-> ->]; try done. lia.
  - intros x b Hx Hb. destruct (Hframe x x b) as [_ ->]; try done.
    + unfold width. lia.
    + by apply Hdiag.
Qed.

End Recurrence.

Section Inside.
Context {A : Type} `{LogDomain A}.

(** The entries of the tables [inside] returns. *)
Lemma inside_spec S B (scores : arc_scores A) mask cands :
  let t := inside S B scores mask cands in
  wf S B t ∧
  (∀ w i b, 1 ≤ w → i + w < S → b < B →
     rec (inside_scores scores mask cands) (mask_lens S mask)
         (C S B t) (I S B t) w i b) ∧
  (∀ x b, x < S → b < B → C S B t x x b = zero).
Proof.
  unfold inside.
  destruct (inside_loop_spec S B (inside_scores scores mask cands)
              (mask_lens S mask) (S - 1)) as (Hwf & Hrec & Hdiag); [done|].
  split_and!; [done| |done].
  intros w i b Hw Hi Hb. apply Hrec; lia.
Qed.

End Inside.
End CRFDependencyFacts.

(* ===================================================================== *)
(** * The inside recurrence of the second-order dependency CRF *)
(* ===================================================================== *)

Module CRF2oDependencyFacts.
Import Tensor Table TensorFacts TableFacts CRF2oDependency.
Import CRFDependencyFacts(fmap_seq_ext, fmap_seq_shift, width).

Ltac stripe_bounds :=
  unfold stripe_in_bounds, stripe_src; simpl; intros; lia.

Lemma fmap_seq_last {X : Type} (f : nat → X) (g : X) (w : nat) :
  1 ≤ w →
  (λ c, if c =? w - 1 then g else f c) <$> seq 0 w
  = (f <$> seq 0 (w - 1)) ++ [g].
Proof.
  intros Hw. destruct w as [|w]; [lia|].
  replace (Datatypes.S w - 1) with w by lia.
  rewrite seq_S, fmap_app. simpl. rewrite Nat.eqb_refl. f_equal.
  apply fmap_seq_ext. intros c Hc.
  by rewrite (proj2 (Nat.eqb_neq _ _)) by lia.
Qed.

Lemma fmap_seq_first {X : Type} (f : nat → X) (g : X) (w : nat) :
  1 ≤ w →
  (λ c, if c =? 0 then g else f c) <$> seq 0 w = g :: (f <$> seq 1 (w - 1)).
Proof.
  intros Hw. destruct w as [|w]; [lia|].
  replace (Datatypes.S w - 1) with w by lia.
  simpl. f_equal. apply fmap_seq_ext. intros c Hc.
  by rewrite (proj2 (Nat.eqb_neq _ _)) by lia.
Qed.

Section Tabulate.
Context {A : Type} `{LogDomain A}.

Lemma length_tabulate d0 d1 B (x : nat → nat → nat → A) :
  length (tabulate d0 d1 B x) = d0 * d1 * B.
Proof. unfold tabulate. by rewrite length_fmap, length_seq. Qed.

Lemma tget_tabulate d0 d1 B (x : nat → nat → nat → A) k m b :
  k < d0 → m < d1 → b < B →
  tget d0 d1 B (tabulate d0 d1 B x) k m b = x k m b.
Proof.
  intros Hk Hm Hb. rewrite tget_flat by done. unfold tabulate.
  rewrite list_lookup_fmap, lookup_seq_lt by by apply flat_lt.
  simpl. unfold flat.
  assert (E1 : ((k * d1 + m) * B + b) / B = k * d1 + m).
  { symmetry. apply (Nat.div_unique _ _ _ b); lia. }
  assert (E2 : ((k * d1 + m) * B + b) `mod` B = b).
  { symmetry. apply (Nat.mod_unique _ _ (k * d1 + m)); lia. }
  assert (E3 : (k * d1 + m) / d1 = k).
  { symmetry. apply (Nat.div_unique _ _ _ m); lia. }
  assert (E4 : (k * d1 + m) `mod` d1 = m).
  { symmetry. apply (Nat.mod_unique _ _ k); lia. }
  by rewrite E1, E2, E3, E4.
Qed.

End Tabulate.

Section Recurrence.
Context {A : Type} `{LogDomain A}.
Variables (S B : nat) (s_arc : nat → nat → nat → A)
          (s_sib : nat → nat → nat → nat → A) (lens : nat → nat).

Definition I (t : tables A) (x y b : nat) : A := tget S S B (s_i t) x y b.
Definition Sb (t : tables A) (x y b : nat) : A := tget S S B (s_s t) x y b.
Definition C (t : tables A) (x y b : nat) : A := tget S S B (s_c t) x y b.

Definition wf (t : tables A) : Prop :=
  length (s_i t) = S * S * B ∧ length (s_s t) = S * S * B
  ∧ length (s_c t) = S * S * B.

(** The equations of the spans [(i, i + w)] as the loop computes them. *)
Definition rec (Cf If Sf : nat → nat → nat → A) (w i b : nat) : Prop :=
  If (i + w) i b
    = add (lse (((λ c, add (add (If (i + w) (i + 1 + c) b)
                                (Sf (i + 1 + c) i b))
                           (s_sib (i + w) i (i + 1 + c) b))
                   <$> seq 0 (w - 1))
                ++ [if decide (i = 0) then zero
                    else add (Cf (i + w) (i + w) b) (Cf i (i + w - 1) b)]))
          (s_arc (i + w) i b)
  ∧ If i (i + w) b
    = add (lse (add (Cf i i b) (Cf (i + w) (i + 1) b)
                :: ((λ c, if decide (i = 0) then ninf
                          else add (add (If i (i + c) b) (Sf (i + c) (i + w) b))
                                   (s_sib i (i + w) (i + c) b))
                      <$> seq 1 (w - 1))))
          (s_arc i (i + w) b)
  ∧ Sf (i + w) i b
    = lse ((λ c, add (Cf i (i + c) b) (Cf (i + w) (i + c + 1) b))
             <$> seq 0 w)
  ∧ Sf i (i + w) b
    = lse ((λ c, add (Cf i (i + c) b) (Cf (i + w) (i + c + 1) b))
             <$> seq 0 w)
  ∧ Cf (i + w) i b
    = lse ((λ c, add (Cf (i + c) i b) (If (i + w) (i + c) b)) <$> seq 0 w)
  ∧ Cf i (i + w) b
    = if decide (i = 0 ∧ lens b ≠ w) then ninf
      else lse ((λ c, add (If i (i + c + 1) b) (Cf (i + c + 1) (i + w) b))
                  <$> seq 0 w).

Lemma rec2o_ext Cf If Sf Cf' If' Sf' w i b :
  1 ≤ w → i + w < S →
  (∀ x y, x < S → y < S → width x y ≤ w →
          Cf' x y b = Cf x y b ∧ If' x y b = If x y b ∧ Sf' x y b = Sf x y b) →
  rec Cf If Sf w i b → rec Cf' If' Sf' w i b.
Proof.
  unfold width. intros Hw Hi Hext (E1 & E2 & E3 & E4 & E5 & E6).
  assert (HC : ∀ x y, x < S → y < S → (x - y) + (y - x) ≤ w →
            Cf' x y b = Cf x y b) by (intros; by apply Hext).
  assert (HI : ∀ x y, x < S → y < S → (x - y) + (y - x) ≤ w →
            If' x y b = If x y b) by (intros; by apply Hext).
  assert (HS : ∀ x y, x < S → y < S → (x - y) + (y - x) ≤ w →
            Sf' x y b = Sf x y b) by (intros; by apply Hext).
  unfold rec. split_and!.
  - rewrite HI, E1 by lia. do 3 f_equal.
    + apply fmap_seq_ext. intros c Hc. rewrite HI, HS by lia. done.
    + destruct (decide (i = 0)); [done|]. rewrite !HC by lia. done.
  - rewrite HI, E2 by lia. do 2 f_equal. f_equal.
    + rewrite !HC by lia. done.
    + apply fmap_seq_ext. intros c Hc. destruct (decide (i = 0)); [done|].
      rewrite HI, HS by lia. done.
  - rewrite HS, E3 by lia. f_equal. apply fmap_seq_ext.
    intros c Hc. rewrite !HC by lia. done.
  - rewrite HS, E4 by lia. f_equal. apply fmap_seq_ext.
    intros c Hc. rewrite !HC by lia. done.
  - rewrite HC, E5 by lia. f_equal. apply fmap_seq_ext.
    intros c Hc. rewrite HC, HI by lia. done.
  - rewrite HC, E6 by lia. case_decide; [done|]. f_equal.
    apply fmap_seq_ext. intros c Hc. rewrite HC, HI by lia. done.
Qed.

Lemma inside2o_step_spec t w :
  wf t → 1 ≤ w → w < S →
  let t' := inside_step S B s_arc s_sib lens t w in
  wf t' ∧
  (∀ x y b, x < S → y < S → b < B → width x y ≠ w →
     I t' x y b = I t x y b ∧ Sb t' x y b = Sb t x y b
     ∧ C t' x y b = C t x y b) ∧
  (∀ i b, i + w < S → b < B → rec (C t') (I t') (Sb t') w i b).
Proof.
  intros (Hli & Hls & Hlc) Hw HwS. unfold inside_step. cbv zeta.
  set (n := S - w).
  set (s_i1 := diagonal_copy S B (s_i t) (- Z.of_nat w) _).
  set (s_i2 := diagonal_copy S B s_i1 (Z.of_nat w) _).
  set (s_s1 := diagonal_copy S B (s_s t) (- Z.of_nat w) _).
  set (s_s2 := diagonal_copy S B s_s1 (Z.of_nat w) _).
  set (s_c1 := diagonal_copy S B (s_c t) (- Z.of_nat w) _).
  set (s_c2 := diagonal_copy S B s_c1 (Z.of_nat w) _).
  set (s_c3 := root_mask S B s_c2 lens w).
  assert (Hl1 : length s_i1 = S * S * B)
    by (subst s_i1; by rewrite length_diagonal_copy).
  assert (Hl2 : length s_i2 = S * S * B)
    by (subst s_i2; by rewrite length_diagonal_copy).
  assert (Hs1 : length s_s1 = S * S * B)
    by (subst s_s1; by rewrite length_diagonal_copy).
  assert (Hs2 : length s_s2 = S * S * B)
    by (subst s_s2; by rewrite length_diagonal_copy).
  assert (Hc1 : length s_c1 = S * S * B)
    by (subst s_c1; by rewrite length_diagonal_copy).
  assert (Hc2 : length s_c2 = S * S * B)
    by (subst s_c2; by rewrite length_diagonal_copy).
  assert (Hc3 : length s_c3 = S * S * B)
    by (subst s_c3; by rewrite length_root_mask).
  (* entries the iteration does not write *)
  assert (HfI1 : ∀ x y b, x < S → y < S → b < B →
            (Z.of_nat y - Z.of_nat x)%Z ≠ (- Z.of_nat w)%Z →
            tget S S B s_i1 x y b = tget S S B (s_i t) x y b).
  { intros x y b Hx Hy Hb Hne. subst s_i1.
    rewrite tget_diagonal_copy by done. by rewrite decide_False. }
  assert (HfI : ∀ x y b, x < S → y < S → b < B → width x y ≠ w →
            tget S S B s_i2 x y b = tget S S B (s_i t) x y b).
  { unfold width. intros x y b Hx Hy Hb Hne. subst s_i2.
    rewrite tget_diagonal_copy by done. rewrite decide_False by lia.
    apply HfI1; lia. }
  assert (HfS : ∀ x y b, x < S → y < S → b < B → width x y ≠ w →
            tget S S B s_s2 x y b = tget S S B (s_s t) x y b).
  { unfold width. intros x y b Hx Hy Hb Hne. subst s_s2 s_s1.
    rewrite tget_diagonal_copy by (done || by rewrite length_diagonal_copy).
    rewrite decide_False by lia.
    rewrite tget_diagonal_copy by done. by rewrite decide_False by lia. }
  assert (HfC1 : ∀ x y b, x < S → y < S → b < B →
            (Z.of_nat y - Z.of_nat x)%Z ≠ (- Z.of_nat w)%Z →
            tget S S B s_c1 x y b = tget S S B (s_c t) x y b).
  { intros x y b Hx Hy Hb Hne. subst s_c1.
    rewrite tget_diagonal_copy by done. by rewrite decide_False. }
  assert (HfC : ∀ x y b, x < S → y < S → b < B → width x y ≠ w →
            tget S S B s_c3 x y b = tget S S B (s_c t) x y b).
  { unfold width. intros x y b Hx Hy Hb Hne. subst s_c3 s_c2.
    rewrite tget_root_mask by done. rewrite decide_False by lia.
    rewrite tget_diagonal_copy by done. rewrite decide_False by lia.
    apply HfC1; lia. }
  simpl. split_and!; [by split_and!|..].
  - unfold I, Sb, C. simpl. intros x y b Hx Hy Hb Hne.
    by rewrite HfI, HfS, HfC.
  - intros i b Hi Hb. unfold rec, I, Sb, C. simpl.
    assert (Hn : 0 < n) by (unfold n; lia).
    split_and!.
    + (* I(j->i) *)
      unfold s_i2 at 1. rewrite tget_diagonal_copy by (done || lia).
      rewrite decide_False by lia.
      unfold s_i1 at 1. rewrite tget_diagonal_copy by (done || lia).
      rewrite decide_True by lia.
      replace ((i + w) `min` i) with i by lia.
      unfold logsumexp, diagonal.
      rewrite diagonal_index_spec. cbv beta. simpl fst. simpl snd.
      rewrite (fmap_seq_last _ _ w Hw).
      f_equal; [f_equal; f_equal|f_equal; lia].
      * apply fmap_seq_ext. intros c Hc.
        rewrite !stripe_get_tget
          by (done || lia || stripe_bounds || apply length_tabulate).
        unfold stripe_src. simpl.
        rewrite tget_tabulate by lia.
        rewrite (HfI (i + w)), (HfS (i + 1 + c)) by (unfold width; lia).
        f_equal; [f_equal|]; f_equal; lia.
      * destruct (Nat.eqb_spec i 0) as [->|Hi0].
        { by rewrite decide_True. }
        rewrite decide_False by done.
        rewrite !stripe_get_tget by (done || lia || stripe_bounds).
        unfold stripe_src. simpl.
        rewrite !HfC by (unfold width; lia). do 3 f_equal; lia.
    + (* I(i->j) *)
      unfold s_i2 at 1. rewrite tget_diagonal_copy by (done || lia).
      rewrite decide_True by lia.
      replace (i `min` (i + w)) with i by lia.
      unfold logsumexp, diagonal.
      rewrite diagonal_index_spec. cbv beta. simpl fst. simpl snd.
      rewrite (fmap_seq_first _ _ w Hw).
      f_equal; [f_equal; f_equal|f_equal; lia].
      * rewrite !stripe_get_tget by (done || lia || stripe_bounds).
        unfold stripe_src. simpl.
        rewrite !HfC by (unfold width; lia). f_equal; f_equal; lia.
      * apply fmap_seq_ext. intros c Hc.
        destruct (Nat.eqb_spec i 0) as [->|Hi0].
        { by rewrite decide_True. }
        rewrite decide_False by done.
        rewrite !stripe_get_tget
          by (done || lia || stripe_bounds || apply length_tabulate).
        unfold stripe_src. simpl.
        rewrite tget_tabulate by lia.
        rewrite HfI1 by lia.
        rewrite (HfI i), (HfS (i + c)) by (unfold width; lia).
        f_equal; [f_equal|]; f_equal; lia.
    + (* S(j, i) *)
      unfold s_s2 at 1. rewrite tget_diagonal_copy by (done || lia).
      rewrite decide_False by lia.
      unfold s_s1 at 1. rewrite tget_diagonal_copy by (done || lia).
      rewrite decide_True by lia.
      replace ((i + w) `min` i) with i by lia.
      unfold logsumexp. f_equal. apply fmap_seq_ext. intros c Hc.
      rewrite !stripe_get_tget by (done || lia || stripe_bounds).
      unfold stripe_src. simpl.
      rewrite !HfC by (unfold width; lia). f_equal; f_equal; lia.
    + (* S(i, j) *)
      unfold s_s2 at 1. rewrite tget_diagonal_copy by (done || lia).
      rewrite decide_True by lia.
      replace (i `min` (i + w)) with i by lia.
      unfold logsumexp. f_equal. apply fmap_seq_ext. intros c Hc.
      rewrite !stripe_get_tget by (done || lia || stripe_bounds).
      unfold stripe_src. simpl.
      rewrite !HfC by (unfold width; lia). f_equal; f_equal; lia.
    + (* C(j->i) *)
      unfold s_c3 at 1. rewrite tget_root_mask by (done || lia).
      rewrite decide_False by lia.
      unfold s_c2 at 1. rewrite tget_diagonal_copy by (done || lia).
      rewrite decide_False by lia.
      unfold s_c1 at 1. rewrite tget_diagonal_copy by (done || lia).
      rewrite decide_True by lia.
      replace ((i + w) `min` i) with i by lia.
      unfold logsumexp. f_equal. apply fmap_seq_ext. intros c Hc.
      rewrite !stripe_get_tget by (done || lia || stripe_bounds).
      unfold stripe_src. simpl.
      rewrite HfC by (unfold width; lia). f_equal; f_equal; lia.
    + (* C(i->j) *)
      unfold s_c3 at 1. rewrite tget_root_mask by (done || lia).
      destruct (decide (i = 0 ∧ lens b ≠ w)) as [Hd|Hd].
      { rewrite decide_True by lia. done. }
      rewrite decide_False by lia.
      unfold s_c2 at 1. rewrite tget_diagonal_copy by (done || lia).
      rewrite decide_True by lia.
      replace (i `min` (i + w)) with i by lia.
      unfold logsumexp. f_equal. apply fmap_seq_ext. intros c Hc.
      rewrite !stripe_get_tget by (done || lia || stripe_bounds).
      unfold stripe_src. simpl.
      rewrite HfC1 by lia. rewrite HfC by (unfold width; lia).
      f_equal; f_equal; lia.
Qed.

Lemma inside2o_init_spec :
  wf (inside_init S B) ∧
  ∀ x b, x < S → b < B → C (inside_init S B) x x b = zero.
Proof.
  unfold wf, C, inside_init. simpl.
  rewrite length_diagonal_copy, !length_full. split; [done|].
  intros x b Hx Hb.
  rewrite tget_diagonal_copy by (done || apply length_full).
  by rewrite decide_True by lia.
Qed.

Lemma inside2o_loop_spec m :
  m ≤ S - 1 →
  let t := foldl (inside_step S B s_arc s_sib lens) (inside_init S B)
                 (seq 1 m) in
  wf t ∧
  (∀ w i b, 1 ≤ w ≤ m → i + w < S → b < B →
     rec (C t) (I t) (Sb t) w i b) ∧
  (∀ x b, x < S → b < B → C t x x b = zero).
Proof.
  induction m as [|m IH]; intros Hm; cbv zeta.
  { simpl. destruct inside2o_init_spec as [Hwf Hinit]. split_and!; [done|lia|done]. }
  destruct IH as (Hwf & Hrec & Hdiag); [lia|].
  rewrite seq_S, foldl_app. simpl.
  set (t := foldl _ _ (seq 1 m)) in *.
  destruct (inside2o_step_spec t (Datatypes.S m) Hwf) as (Hwf' & Hframe & Hnew);
    [lia..|].
  split_and!; [done|..].
  - intros w i b Hw Hi Hb.
    destruct (decide (w = Datatypes.S m)) as [->|Hne]; [by apply Hnew|].
    apply (rec2o_ext (C t) (I t) (Sb t)); [lia|done| |apply Hrec; lia].
    intros x y Hx Hy Hxy.
    destruct (Hframe x y b) as (-> & -> & ->); try done. lia.
  - intros x b Hx Hb. destruct (Hframe x x b) as (_ & _ & ->); try done.
    + unfold width. lia.
    + by apply Hdiag.
Qed.

End Recurrence.

Section Inside.
Context {A : Type} `{LogDomain A}.

(** The entries of the tables [inside] returns. *)
Lemma inside2o_spec S B (s_arc : arc_scores A) (s_sib : sib_scores A)
    mask cands :
  let t := inside S B s_arc s_sib mask cands in
  wf S B t ∧
  (∀ w i b, 1 ≤ w → i + w < S → b < B →
     rec (inside_arc s_arc mask cands) (inside_sib s_sib)
         (mask_lens S mask) (C S B t) (I S B t) (Sb S B t) w i b) ∧
  (∀ x b, x < S → b < B → C S B t x x b = zero).
Proof.
  unfold inside.
  destruct (inside2o_loop_spec S B (inside_arc s_arc mask cands)
              (inside_sib s_sib) (mask_lens S mask) (S - 1))
    as (Hwf & Hrec & Hdiag); [done|].
  split_and!; [done| |done].
  intros w i b Hw Hi Hb. apply Hrec; lia.
Qed.

End Inside.
End CRF2oDependencyFacts.

(* ===================================================================== *)
(** * The inside recurrence of the constituency CRF *)
(* ===================================================================== *)

Module CRFConstituencyFacts.
Import Tensor Table TensorFacts TableFacts CRFConstituency.
Import CRFDependencyFacts(fmap_seq_ext, fmap_seq_shift, width).

Ltac stripe_bounds :=
  unfold stripe_in_bounds, stripe_src; simpl; intros; lia.

Section Recurrence.
Context {A : Type} `{LogDomain A}.
Variables (S B : nat) (scores : nat → nat → nat → A).

(** The equation of the span [(i, i + w)]; split points are [i + 1 + c]. *)
Definition rec (sf : nat → nat → nat → A) (w i b : nat) : Prop :=
  sf i (i + w) b
  = if decide (w = 1) then scores i (i + 1) b
    else add (lse ((λ c, add (sf i (i + 1 + c) b) (sf (i + 1 + c) (i + w) b))
                     <$> seq 0 (w - 1)))
             (scores i (i + w) b).

Lemma chart_rec_ext sf sf' w i b :
  1 ≤ w → i + w < S →
  (∀ x y, x < S → y < S → x < y → y - x ≤ w → sf' x y b = sf x y b) →
  rec sf w i b → rec sf' w i b.
Proof.
  intros Hw Hi Hext E. unfold rec in *. rewrite Hext, E by lia.
  case_decide; [done|]. do 2 f_equal. apply fmap_seq_ext. intros c Hc.
  rewrite !Hext by lia. done.
Qed.

Lemma chart_step_spec s w :
  length s = S * S * B → 1 ≤ w → w < S →
  let s' := inside_step S B scores s w in
  length s' = S * S * B ∧
  (∀ x y b, x < S → y < S → b < B →
     (Z.of_nat y - Z.of_nat x)%Z ≠ Z.of_nat w →
     tget S S B s' x y b = tget S S B s x y b) ∧
  (∀ i b, i + w < S → b < B → rec (tget S S B s') w i b).
Proof.
  intros Hlen Hw HwS. unfold inside_step. cbv zeta.
  destruct (Nat.eqb_spec w 1) as [->|Hw1].
  - split_and!.
    + by rewrite length_diagonal_copy.
    + intros x y b Hx Hy Hb Hne.
      rewrite tget_diagonal_copy by done. by rewrite decide_False.
    + intros i b Hi Hb. unfold rec. rewrite decide_True by done.
      rewrite tget_diagonal_copy by (done || lia).
      rewrite decide_True by lia. unfold diagonal.
      rewrite diagonal_index_spec. simpl. f_equal; lia.
  - assert (Hframe : ∀ x y b, x < S → y < S → b < B →
       (Z.of_nat y - Z.of_nat x)%Z ≠ Z.of_nat w →
       tget S S B (diagonal_copy S B s (Z.of_nat w)
          (λ b k, add (logsumexp (w - 1)
             (λ r c b, add (stripe_get S S B s (S - w) (w - 1) (0, 1) 1 r c b)
                           (stripe_get S S B s (S - w) (w - 1) (1, w) 0 r c b))
             b k) (diagonal scores (Z.of_nat w) b k))) x y b
       = tget S S B s x y b).
    { intros x y b Hx Hy Hb Hne.
      rewrite tget_diagonal_copy by done. by rewrite decide_False. }
    split_and!.
    + by rewrite length_diagonal_copy.
    + done.
    + intros i b Hi Hb. unfold rec. rewrite decide_False by done.
      rewrite tget_diagonal_copy at 1 by (done || lia).
      rewrite decide_True by lia.
      replace (i `min` (i + w)) with i by lia.
      unfold logsumexp, diagonal. rewrite diagonal_index_spec. simpl.
      f_equal; [f_equal|f_equal; lia].
      apply fmap_seq_ext. intros c Hc.
      rewrite !stripe_get_tget by (done || lia || stripe_bounds).
      unfold stripe_src. simpl.
      rewrite !Hframe by lia. f_equal; f_equal; lia.
Qed.

Lemma chart_loop_spec m :
  m ≤ S - 1 →
  let s := foldl (inside_step S B scores) (full S S B ninf) (seq 1 m) in
  length s = S * S * B ∧
  (∀ w i b, 1 ≤ w ≤ m → i + w < S → b < B → rec (tget S S B s) w i b).
Proof.
  induction m as [|m IH]; intros Hm; cbv zeta.
  { simpl. split; [apply length_full|lia]. }
  destruct IH as (Hlen & Hrec); [lia|].
  rewrite seq_S, foldl_app. simpl.
  set (s := foldl _ _ (seq 1 m)) in *.
  destruct (chart_step_spec s (Datatypes.S m) Hlen) as (Hlen' & Hframe & Hnew);
    [lia..|].
  split; [done|].
  intros w i b Hw Hi Hb.
  destruct (decide (w = Datatypes.S m)) as [->|Hne]; [by apply Hnew|].
  apply (chart_rec_ext (tget S S B s)); [lia|done| |apply Hrec; lia].
  intros x y Hx Hy Hxy Hyx. apply Hframe; lia.
Qed.

End Recurrence.

Section Inside.
Context {A : Type} `{LogDomain A}.

Lemma chart_spec S B (scores : span_scores A) mask :
  let s := inside S B scores mask in
  length s = S * S * B ∧
  (∀ w i b, 1 ≤ w → i + w < S → b < B →
     rec (λ i j b, scores b i j) (tget S S B s) w i b).
Proof.
  unfold inside.
  destruct (chart_loop_spec S B (λ i j b, scores b i j) (S - 1))
    as (Hlen & Hrec); [done|].
  split; [done|]. intros w i b Hw Hi Hb. apply Hrec; lia.
Qed.

End Inside.
End CRFConstituencyFacts.

Module PolyFacts.
Import ExtReal Poly.

Section Eval.
Variable x : R.
Hypothesis Hx : (0 < x)%R.

Lemma eval_nonneg p : (0 <= eval p x)%R.
Proof.
  induction p as [|a p IH]; simpl; [lra|].
  pose proof (pos_INR a). nra.
Qed.

Lemma eval_padd p q : eval (padd p q) x = (eval p x + eval q x)%R.
Proof.
  revert q. induction p as [|a p IH]; intros [|b q]; simpl; try lra.
  rewrite IH, plus_INR. lra.
Qed.

Lemma eval_pscale a q : eval (pscale a q) x = (INR a * eval q x)%R.
Proof.
  induction q as [|b q IH]; simpl; [lra|].
  fold (pscale a q). rewrite IH, mult_INR. lra.
Qed.

Lemma eval_pmul p q : eval (pmul p q) x = (eval p x * eval q x)%R.
Proof.
  induction p as [|a p IH]; simpl; [lra|].
  rewrite eval_padd, eval_pscale. simpl. rewrite IH. lra.
Qed.

Lemma log_poly_ninf : log_poly x [] = NInf.
Proof.
  unfold log_poly, log_weight. simpl. by destruct (Req_dec_T 0 0).
Qed.

Lemma log_poly_zero : log_poly x [1] = Fin 0.
Proof.
  unfold log_poly, log_weight. simpl.
  destruct (Req_dec_T _ _) as [E|_]; [lra|].
  f_equal. replace (1 + x * 0)%R with 1%R by lra. apply ln_1.
Qed.

Lemma log_poly_add p q :
  log_poly x (pmul p q) = eadd (log_poly x p) (log_poly x q).
Proof.
  unfold log_poly, log_weight. rewrite eval_pmul.
  pose proof (eval_nonneg p). pose proof (eval_nonneg q).
  destruct (Req_dec_T (eval p x) 0) as [Ep|Ep];
    destruct (Req_dec_T (eval q x) 0) as [Eq|Eq];
    destruct (Req_dec_T _ 0) as [E|E]; simpl; try done; try nra.
  f_equal. apply ln_mult; lra.
Qed.

Lemma log_poly_tsum ps :
  log_poly x (foldr pmul [1] ps) = esum (log_poly x <$> ps).
Proof.
  induction ps as [|p ps IH]; simpl; [apply log_poly_zero|].
  by rewrite log_poly_add, IH.
Qed.

Lemma eval_sum_nonneg ps : (0 <= eval (foldr padd [] ps) x)%R.
Proof. apply eval_nonneg. Qed.

Lemma fins_cons_fin y l : omap fin_part (Fin y :: l) = y :: omap fin_part l.
Proof. done. Qed.

Lemma fins_cons_ninf l : omap fin_part (NInf :: l) = omap fin_part l.
Proof. done. Qed.

Lemma log_poly_fin_parts ps :
  existsb is_nan (log_poly x <$> ps) = false ∧
  existsb is_pinf (log_poly x <$> ps) = false ∧
  Rsum (exp <$> omap fin_part (log_poly x <$> ps))
    = eval (foldr padd [] ps) x ∧
  (omap fin_part (log_poly x <$> ps) = [] → eval (foldr padd [] ps) x = 0%R).
Proof.
  induction ps as [|p ps (IH1 & IH2 & IH3 & IH4)]; [done|].
  rewrite fmap_cons. cbn [foldr]. rewrite eval_padd.
  pose proof (eval_nonneg p).
  destruct (Req_dec_T (eval p x) 0) as [Ep|Ep].
  - assert (log_poly x p = NInf) as ->.
    { unfold log_poly, log_weight. by destruct (Req_dec_T _ _). }
    rewrite fins_cons_ninf, Ep. cbn [existsb is_nan is_pinf orb].
    split_and!; try done; [rewrite IH3; lra|].
    intros E. rewrite IH4; [lra|done].
  - assert (log_poly x p = Fin (ln (eval p x))) as ->.
    { unfold log_poly, log_weight. by destruct (Req_dec_T _ _). }
    rewrite fins_cons_fin, fmap_cons. cbn [existsb is_nan is_pinf orb Rsum foldr].
    split_and!; try done.
    fold (Rsum (exp <$> omap fin_part (log_poly x <$> ps))).
    rewrite exp_ln by lra. by rewrite IH3.
Qed.

Lemma log_poly_lse ps :
  log_poly x (foldr padd [] ps) = elogsumexp (log_poly x <$> ps).
Proof.
  destruct (log_poly_fin_parts ps) as (E1 & E2 & E3 & E4).
  unfold elogsumexp. rewrite E1, E2.
  destruct (omap fin_part (log_poly x <$> ps)) as [|y ys] eqn:Ey.
  - unfold log_poly, log_weight. rewrite E4 by done.
    by destruct (Req_dec_T 0 0).
  - rewrite E3. unfold log_poly, log_weight.
    destruct (Req_dec_T _ 0) as [E|_]; [|done].
    exfalso. rewrite <- E3 in E. rewrite fmap_cons in E.
    cbn [Rsum foldr] in E. fold (Rsum (exp <$> ys)) in E.
    assert (0 <= Rsum (exp <$> ys))%R.
    { clear. induction ys as [|z zs IH]; [simpl; lra|].
      rewrite fmap_cons. cbn [Rsum foldr]. fold (Rsum (exp <$> zs)).
      pose proof (exp_pos z). lra. }
    pose proof (exp_pos y). lra.
Qed.

End Eval.
End PolyFacts.

(* ===================================================================== *)
(** * Changing the carrier along a homomorphism *)
(* ===================================================================== *)

(** The inside algorithms use the carrier only through its operations, so
    a map that commutes with the operations commutes with the algorithms.
    With [Poly.log_poly] this turns the tables over weights, which can be
    computed, into the tables over log-potentials. *)
Module Hom.
Import Tensor Table TensorFacts TableFacts.

Section Hom.
Context {A A' : Type} {DA : LogDomain A} {DA' : LogDomain A'}.
Variable h : A → A'.
Hypothesis h_ninf : h ninf = ninf.
Hypothesis h_zero : h zero = zero.
Hypothesis h_add : ∀ a b, h (add a b) = add (h a) (h b).
Hypothesis h_lse : ∀ l, h (lse l) = lse (h <$> l).
Hypothesis h_tsum : ∀ l, h (tsum l) = tsum (h <$> l).

Lemma read_fmap (s : list A) v idx :
  tloc v = 0 → read [h <$> s] v idx = h <$> read [s] v idx.
Proof.
  intros Hl. unfold read. destruct (in_range idx (tsize v)); [|done].
  rewrite Hl. simpl. by rewrite list_lookup_fmap.
Qed.

Lemma tget_fmap d0 d1 B (s : list A) i j b :
  tget d0 d1 B (h <$> s) i j b = h (tget d0 d1 B s i j b).
Proof.
  unfold tget. rewrite read_fmap by done.
  destruct (read [s] _ _); simpl; [done|]. by rewrite h_ninf.
Qed.

Lemma tset_fmap d0 d1 B (s : list A) i j b a :
  tset d0 d1 B (h <$> s) i j b (h a) = h <$> tset d0 d1 B s i j b a.
Proof.
  unfold tset, write. destruct (in_range _ _); [|done]. simpl.
  rewrite length_fmap. case_decide; [|done]. simpl.
  by rewrite list_fmap_insert.
Qed.

Lemma tview_contiguous d0 d1 B : is_contiguous (tview d0 d1 B) = true.
Proof.
  unfold is_contiguous, tview. cbn [tsize tstride].
  by rewrite strides_ok_row_major, orb_true_r.
Qed.

Lemma stripe_get_fmap d0 d1 B (s : list A) n w offset dim r c b :
  stripe_get d0 d1 B (h <$> s) n w offset dim r c b
  = h (stripe_get d0 d1 B s n w offset dim r c b).
Proof.
  unfold stripe_get, stripe, contiguous.
  rewrite tview_contiguous. cbn [mbind option_bind tsize tview].
  destruct ((d0 =? 0) || (d1 =? 0)); [simpl; by rewrite h_ninf|].
  unfold as_strided.
  change ([h <$> s] !! tloc (tview d0 d1 B)) with (Some (h <$> s)).
  change ([s] !! tloc (tview d0 d1 B)) with (Some s).
  cbn [mbind option_bind].
  rewrite length_fmap. case_decide; cbn [mbind option_bind default];
    [|simpl; by rewrite h_ninf].
  rewrite read_fmap by done.
  destruct (read [s] _ _); simpl; [done|]. by rewrite h_ninf.
Qed.

Lemma full_fmap d0 d1 B (a : A) :
  full d0 d1 B (h a) = h <$> full d0 d1 B a.
Proof. unfold full. by rewrite fmap_replicate. Qed.

Lemma foldl_fmap_commute {X : Type} (f : list A → X → list A)
    (f' : list A' → X → list A') (l : list X) (s : list A) :
  (∀ s x, f' (h <$> s) x = h <$> f s x) →
  foldl f' (h <$> s) l = h <$> foldl f s l.
Proof.
  intros Hf. revert s. induction l as [|x l IH]; intros s; simpl; [done|].
  by rewrite Hf, IH.
Qed.

Lemma diagonal_copy_fmap S B (s : list A) offset (v : nat → nat → A)
    (v' : nat → nat → A') :
  (∀ b k, v' b k = h (v b k)) →
  diagonal_copy S B (h <$> s) offset v' = h <$> diagonal_copy S B s offset v.
Proof.
  intros Hv. unfold diagonal_copy. apply foldl_fmap_commute.
  intros s0 k. apply foldl_fmap_commute. intros s1 b.
  by rewrite Hv, tset_fmap.
Qed.

Lemma root_mask_fmap S B (s : list A) lens w :
  root_mask S B (h <$> s) lens w = h <$> root_mask S B s lens w.
Proof.
  unfold root_mask. apply foldl_fmap_commute. intros s0 b.
  destruct (lens b =? w); [done|]. by rewrite <- h_ninf, tset_fmap.
Qed.

Lemma logsumexp_fmap w (x : nat → nat → nat → A)
    (x' : nat → nat → nat → A') b k :
  (∀ c, x' k c b = h (x k c b)) →
  logsumexp w x' b k = h (logsumexp w x b k).
Proof.
  intros Hx. unfold logsumexp. rewrite h_lse, <- list_fmap_compose.
  f_equal. apply list_fmap_ext. intros _ c _. apply Hx.
Qed.

Lemma tabulate_fmap d0 d1 B (x : nat → nat → nat → A)
    (x' : nat → nat → nat → A') :
  (∀ k m b, x' k m b = h (x k m b)) →
  tabulate d0 d1 B x' = h <$> tabulate d0 d1 B x.
Proof.
  intros Hx. unfold tabulate. rewrite <- list_fmap_compose.
  apply list_fmap_ext. intros _ p _. apply Hx.
Qed.

Lemma restrict_fmap mask cands (sc : nat → nat → nat → A)
    (sc' : nat → nat → nat → A') x y b :
  (∀ x y b, sc' x y b = h (sc x y b)) →
  restrict mask cands sc' x y b = h (restrict mask cands sc x y b).
Proof.
  intros Hsc. unfold restrict. destruct (_ && _); [done|]. by rewrite h_ninf.
Qed.

Lemma gather_lens_fmap S B (s : list A) lens :
  gather_lens S B (h <$> s) lens
  = fmap (M := option) (fmap (M := list) h) (gather_lens S B s lens).
Proof.
  unfold gather_lens. destruct (S =? 0); [done|].
  induction (seq 0 B) as [|b l IH]; [done|].
  cbn [mapM]. rewrite IH.
  destruct (lens b <? S); [|done]. cbn [mbind option_bind].
  rewrite tget_fmap. clear IH. destruct (mapM _ l) as [ks|]; reflexivity.
Qed.

Lemma diagonal_copy_hom S B (s : list A) (s' : list A') offset
    (v : nat → nat → A) (v' : nat → nat → A') :
  s' = h <$> s → (∀ b k, v' b k = h (v b k)) →
  diagonal_copy S B s' offset v' = h <$> diagonal_copy S B s offset v.
Proof. intros ->. apply diagonal_copy_fmap. Qed.

(** ** First-order dependency CRF *)

Definition dep_map (t : CRFDependency.tables A) : CRFDependency.tables A' :=
  CRFDependency.mkTables (h <$> CRFDependency.s_i t)
                         (h <$> CRFDependency.s_c t).

Lemma dep_inside_step_hom S B (sc : nat → nat → nat → A)
    (sc' : nat → nat → nat → A') lens t w :
  (∀ x y b, sc' x y b = h (sc x y b)) →
  CRFDependency.inside_step S B sc' lens (dep_map t) w
  = dep_map (CRFDependency.inside_step S B sc lens t w).
Proof.
  intros Hsc. unfold CRFDependency.inside_step, dep_map.
  cbn [CRFDependency.s_i CRFDependency.s_c].
  set (si := CRFDependency.s_i t). set (sc0 := CRFDependency.s_c t).
  set (si1 := diagonal_copy S B si (- Z.of_nat w) _).
  set (si1' := diagonal_copy S B (h <$> si) (- Z.of_nat w) _).
  assert (E1 : si1' = h <$> si1).
  { apply diagonal_copy_hom; [done|]. intros b k. rewrite h_add.
    f_equal; [|apply Hsc]. apply logsumexp_fmap. intros c.
    by rewrite h_add, !stripe_get_fmap. }
  set (si2 := diagonal_copy S B si1 (Z.of_nat w) _).
  set (si2' := diagonal_copy S B si1' (Z.of_nat w) _).
  assert (E2 : si2' = h <$> si2).
  { apply diagonal_copy_hom; [done|]. intros b k. rewrite h_add.
    f_equal; [|apply Hsc]. apply logsumexp_fmap. intros c.
    by rewrite h_add, !stripe_get_fmap. }
  set (sc1 := diagonal_copy S B sc0 (- Z.of_nat w) _).
  set (sc1' := diagonal_copy S B (h <$> sc0) (- Z.of_nat w) _).
  assert (E3 : sc1' = h <$> sc1).
  { apply diagonal_copy_hom; [done|]. intros b k.
    apply logsumexp_fmap. intros c.
    by rewrite E2, h_add, !stripe_get_fmap. }
  set (sc2 := diagonal_copy S B sc1 (Z.of_nat w) _).
  set (sc2' := diagonal_copy S B sc1' (Z.of_nat w) _).
  assert (E4 : sc2' = h <$> sc2).
  { apply diagonal_copy_hom; [done|]. intros b k.
    apply logsumexp_fmap. intros c.
    by rewrite E2, E3, h_add, !stripe_get_fmap. }
  by rewrite E2, E4, root_mask_fmap.
Qed.

Lemma dep_inside_hom S B (scores : CRFDependency.arc_scores A)
    (scores' : CRFDependency.arc_scores A') mask cands :
  (∀ b i j, scores' b i j = h (scores b i j)) →
  CRFDependency.inside S B scores' mask cands
  = dep_map (CRFDependency.inside S B scores mask cands).
Proof.
  intros Hs. unfold CRFDependency.inside.
  assert (Hsc : ∀ x y b,
    CRFDependency.inside_scores scores' mask cands x y b
    = h (CRFDependency.inside_scores scores mask cands x y b)).
  { intros x y b. unfold CRFDependency.inside_scores.
    destruct cands; [|done]. by apply restrict_fmap. }
  assert (Hinit : CRFDependency.inside_init (A := A') S B
                  = dep_map (CRFDependency.inside_init S B)).
  { unfold CRFDependency.inside_init, dep_map.
    cbn [CRFDependency.s_i CRFDependency.s_c].
    rewrite <- h_ninf, full_fmap. f_equal.
    apply diagonal_copy_hom; [done|]. intros _ _. by rewrite h_zero. }
  rewrite Hinit. generalize (CRFDependency.inside_init (A := A) S B).
  induction (seq 1 (S - 1)) as [|w l IH]; intros t; simpl; [done|].
  by rewrite (dep_inside_step_hom _ _ _ _ _ _ _ Hsc), IH.
Qed.

Lemma dep_partition_hom S B (scores : CRFDependency.arc_scores A)
    (scores' : CRFDependency.arc_scores A') mask cands :
  (∀ b i j, scores' b i j = h (scores b i j)) →
  CRFDependency.partition S B scores' mask cands
  = h <$> CRFDependency.partition S B scores mask cands.
Proof.
  intros Hs. unfold CRFDependency.partition.
  rewrite (dep_inside_hom _ _ _ _ _ _ Hs).
  cbn [dep_map CRFDependency.s_c]. rewrite gather_lens_fmap.
  destruct (gather_lens _ _ _ _) as [zs|]; [|done].
  cbn. by rewrite h_tsum.
Qed.

(** ** Second-order dependency CRF *)

Definition dep2o_map (t : CRF2oDependency.tables A)
  : CRF2oDependency.tables A' :=
  CRF2oDependency.mkTables (h <$> CRF2oDependency.s_i t)
                           (h <$> CRF2oDependency.s_s t)
                           (h <$> CRF2oDependency.s_c t).

Lemma dep2o_inside_step_hom S B (sa : nat → nat → nat → A)
    (sa' : nat → nat → nat → A') (sb : nat → nat → nat → nat → A)
    (sb' : nat → nat → nat → nat → A') lens t w :
  (∀ x y b, sa' x y b = h (sa x y b)) →
  (∀ x y z b, sb' x y z b = h (sb x y z b)) →
  CRF2oDependency.inside_step S B sa' sb' lens (dep2o_map t) w
  = dep2o_map (CRF2oDependency.inside_step S B sa sb lens t w).
Proof.
  intros Hsa Hsb. unfold CRF2oDependency.inside_step, dep2o_map.
  cbn [CRF2oDependency.s_i CRF2oDependency.s_s CRF2oDependency.s_c].
  set (si := CRF2oDependency.s_i t). set (ss := CRF2oDependency.s_s t).
  set (sc0 := CRF2oDependency.s_c t).
  set (tl := tabulate (S - w) S B (λ k m b, sb (w + k) k m b)).
  set (tl' := tabulate (S - w) S B (λ k m b, sb' (w + k) k m b)).
  assert (Etl : tl' = h <$> tl) by (apply tabulate_fmap; intros; apply Hsb).
  set (tr := tabulate (S - w) S B (λ k m b, sb k (w + k) m b)).
  set (tr' := tabulate (S - w) S B (λ k m b, sb' k (w + k) m b)).
  assert (Etr : tr' = h <$> tr) by (apply tabulate_fmap; intros; apply Hsb).
  set (si1 := diagonal_copy S B si (- Z.of_nat w) _).
  set (si1' := diagonal_copy S B (h <$> si) (- Z.of_nat w) _).
  assert (E1 : si1' = h <$> si1).
  { apply diagonal_copy_hom; [done|]. intros b k. rewrite h_add.
    f_equal; [|apply Hsa]. apply logsumexp_fmap. intros c.
    destruct (c =? w - 1).
    - destruct (k =? 0); [done|]. by rewrite h_add, !stripe_get_fmap.
    - by rewrite Etl, !h_add, !stripe_get_fmap. }
  set (si2 := diagonal_copy S B si1 (Z.of_nat w) _).
  set (si2' := diagonal_copy S B si1' (Z.of_nat w) _).
  assert (E2 : si2' = h <$> si2).
  { apply diagonal_copy_hom; [done|]. intros b k. rewrite h_add.
    f_equal; [|apply Hsa]. apply logsumexp_fmap. intros c.
    destruct (c =? 0); [by rewrite h_add, !stripe_get_fmap|].
    destruct (k =? 0); [done|].
    by rewrite E1, Etr, !h_add, !stripe_get_fmap. }
  set (ss1 := diagonal_copy S B ss (- Z.of_nat w) _).
  set (ss1' := diagonal_copy S B (h <$> ss) (- Z.of_nat w) _).
  assert (E3 : ss1' = h <$> ss1).
  { apply diagonal_copy_hom; [done|]. intros b k.
    apply logsumexp_fmap. intros c. by rewrite h_add, !stripe_get_fmap. }
  set (ss2 := diagonal_copy S B ss1 (Z.of_nat w) _).
  set (ss2' := diagonal_copy S B ss1' (Z.of_nat w) _).
  assert (E4 : ss2' = h <$> ss2).
  { apply diagonal_copy_hom; [done|]. intros b k.
    apply logsumexp_fmap. intros c. by rewrite h_add, !stripe_get_fmap. }
  set (sc1 := diagonal_copy S B sc0 (- Z.of_nat w) _).
  set (sc1' := diagonal_copy S B (h <$> sc0) (- Z.of_nat w) _).
  assert (E5 : sc1' = h <$> sc1).
  { apply diagonal_copy_hom; [done|]. intros b k.
    apply logsumexp_fmap. intros c.
    by rewrite E2, h_add, !stripe_get_fmap. }
  set (sc2 := diagonal_copy S B sc1 (Z.of_nat w) _).
  set (sc2' := diagonal_copy S B sc1' (Z.of_nat w) _).
  assert (E6 : sc2' = h <$> sc2).
  { apply diagonal_copy_hom; [done|]. intros b k.
    apply logsumexp_fmap. intros c.
    by rewrite E2, E5, h_add, !stripe_get_fmap. }
  by rewrite E2, E4, E6, root_mask_fmap.
Qed.

Lemma dep2o_inside_hom S B (s_arc : CRF2oDependency.arc_scores A)
    (s_arc' : CRF2oDependency.arc_scores A')
    (s_sib : CRF2oDependency.sib_scores A)
    (s_sib' : CRF2oDependency.sib_scores A') mask cands :
  (∀ b i j, s_arc' b i j = h (s_arc b i j)) →
  (∀ b i j k, s_sib' b i j k = h (s_sib b i j k)) →
  CRF2oDependency.inside S B s_arc' s_sib' mask cands
  = dep2o_map (CRF2oDependency.inside S B s_arc s_sib mask cands).
Proof.
  intros Ha Hb. unfold CRF2oDependency.inside.
  assert (Hsa : ∀ x y b,
    CRF2oDependency.inside_arc s_arc' mask cands x y b
    = h (CRF2oDependency.inside_arc s_arc mask cands x y b)).
  { intros x y b. unfold CRF2oDependency.inside_arc.
    destruct cands; [|done]. by apply restrict_fmap. }
  assert (Hsb : ∀ x y z b,
    CRF2oDependency.inside_sib s_sib' x y z b
    = h (CRF2oDependency.inside_sib s_sib x y z b)).
  { intros x y z b. apply Hb. }
  assert (Hinit : CRF2oDependency.inside_init (A := A') S B
                  = dep2o_map (CRF2oDependency.inside_init S B)).
  { unfold CRF2oDependency.inside_init, dep2o_map.
    cbn [CRF2oDependency.s_i CRF2oDependency.s_s CRF2oDependency.s_c].
    rewrite <- h_ninf, full_fmap. f_equal.
    apply diagonal_copy_hom; [done|]. intros _ _. by rewrite h_zero. }
  rewrite Hinit. generalize (CRF2oDependency.inside_init (A := A) S B).
  induction (seq 1 (S - 1)) as [|w l IH]; intros t; simpl; [done|].
  by rewrite (dep2o_inside_step_hom _ _ _ _ _ _ _ _ _ Hsa Hsb), IH.
Qed.

End Hom.
End Hom.

(* ===================================================================== *)
(** * The gathers of [forward] *)
(* ===================================================================== *)

Module ForwardFacts.
Import Tensor Table TensorFacts TableFacts.

Section Gather.
Context {A : Type} `{LogDomain A}.

Lemma mapM_seq_Some {X : Type} (f : nat → option X) (g : nat → X) start n :
  (∀ b, start ≤ b < start + n → f b = Some (g b)) →
  mapM f (seq start n) = Some (g <$> seq start n).
Proof.
  revert start. induction n as [|n IH]; intros start Hf; [done|].
  cbn [seq mapM]. rewrite Hf by lia. cbn [mbind option_bind].
  rewrite IH by (intros b Hb; apply Hf; lia). done.
Qed.

Lemma mapM_Some_fmap {X Y : Type} (f : X → option Y) (g : X → Y) l :
  Forall (λ x, f x = Some (g x)) l → mapM f l = Some (g <$> l).
Proof.
  induction 1 as [|x l Hx _ IH]; [done|].
  cbn [mapM]. rewrite Hx. cbn [mbind option_bind]. by rewrite IH.
Qed.

(** The gather of [logZ] succeeds exactly on sentence lengths that index
    the table. *)
Lemma gather_lens_Some S B (s : list A) lens :
  0 < S → (∀ b, b < B → lens b < S) →
  gather_lens S B s lens
  = Some ((λ b, tget S S B s 0 (lens b) b) <$> seq 0 B).
Proof.
  intros HS Hl. unfold gather_lens.
  rewrite (proj2 (Nat.eqb_neq S 0)) by lia.
  apply mapM_seq_Some. intros b Hb.
  by rewrite (proj2 (Nat.ltb_lt _ _)) by (apply Hl; lia).
Qed.

Lemma gather_lens_None S B (s : list A) lens b :
  b < B → S ≤ lens b → gather_lens S B s lens = None.
Proof.
  intros Hb Hl. unfold gather_lens. destruct (S =? 0); [done|].
  apply eq_None_not_Some. intros [zs Hzs%mapM_Some].
  destruct (Forall2_lookup_l _ _ _ b b Hzs) as (z & _ & Hz).
  { by apply lookup_seq_lt. }
  simpl in Hz. by rewrite (proj2 (Nat.ltb_ge _ _)) in Hz.
Qed.

Lemma masked_select_fmap {X : Type} S B (g : nat * nat → X) mask :
  masked_select S B (g <$> positions S B) mask
  = g <$> filter (λ p, mask p.1 p.2 = true) (positions S B).
Proof.
  unfold masked_select. generalize (positions S B). intros l.
  induction l as [|p l IH]; [done|].
  rewrite fmap_cons. cbn [zip zip_with].
  rewrite !filter_cons. cbn [fst snd].
  destruct (decide (mask p.1 p.2 = true)); cbn [fmap list_fmap snd];
    by rewrite <- IH.
Qed.

(** [mask.sum()] counts the valid positions. *)
Lemma mask_total_positions S B mask :
  mask_total S B mask
  = length (filter (λ p : nat * nat, mask p.1 p.2 = true) (positions S B)).
Proof.
  unfold mask_total, positions.
  assert (Hgen : ∀ start,
    sum_list (mask_lens S mask <$> seq start B)
    = length (filter (λ p : nat * nat, mask p.1 p.2 = true)
                (seq start B ≫= λ b, (λ i, (b, i)) <$> seq 0 S)));
    [|apply Hgen].
  induction B as [|B IH]; intros start; [done|].
  cbn [seq fmap list_fmap sum_list sum_list_with mbind list_bind].
  rewrite list.filter_app, length_app, <- IH. f_equal.
  unfold mask_lens. clear. generalize (seq 0 S). intros l.
  induction l as [|i l IH]; [done|].
  rewrite fmap_cons, !filter_cons. cbn [fst snd].
  unfold Datatypes.id in *.
  destruct (decide (mask start i = true)); cbn [length]; by rewrite IH.
Qed.

(** The gather of [logZ] returns only on a table with a first row and on
    sentence lengths that index it. *)
Lemma gather_lens_inv S B (s : list A) lens zs :
  gather_lens S B s lens = Some zs → 0 < S ∧ ∀ b, b < B → lens b < S.
Proof.
  intros Hz. split.
  - unfold gather_lens in Hz. destruct (Nat.eqb_spec S 0); [done|lia].
  - intros b Hb. destruct (decide (lens b < S)) as [|Hge]; [done|].
    rewrite (gather_lens_None S B s lens b) in Hz by lia. done.
Qed.

(** A batch with a valid position, whose sentence lengths index the table,
    has at least two positions: the root and a word. *)
Lemma mask_total_two S B mask :
  0 < mask_total S B mask → (∀ b, b < B → mask_lens S mask b < S) → 2 ≤ S.
Proof.
  unfold mask_total. intros Htot Hl.
  destruct (decide (Forall (λ b, mask_lens S mask b = 0) (seq 0 B)))
    as [Hz|Hnz].
  - exfalso. revert Htot Hz. generalize (seq 0 B). intros l Htot Hz.
    induction Hz as [|b l Hb _ IH]; [simpl in Htot; lia|].
    apply IH. rewrite fmap_cons in Htot. cbn [sum_list sum_list_with] in Htot.
    unfold Datatypes.id in Htot. rewrite Hb in Htot. exact Htot.
  - apply not_Forall_Exists in Hnz; [|apply _].
    apply list.Exists_exists in Hnz as (b & Hb%elem_of_seq & Hne).
    assert (Hpos : mask_lens S mask b ≠ 0) by exact Hne.
    specialize (Hl b). lia.
Qed.

End Gather.

Section Marginals.
Context {A P : Type}.

Lemma autograd_grad_Some (grad : (P → A) → P → P) S f x :
  2 ≤ S → autograd_grad grad S f x = Some (grad f x).
Proof.
  intros HS. unfold autograd_grad. by rewrite (proj2 (Nat.ltb_ge _ _)) by lia.
Qed.

(** The marginals of [forward]: the gradient when [mbr] is set, which needs
    two positions, and the raw scores otherwise. *)
Lemma probs_Some (grad : (P → A) → P → P) S f x (mbr : bool) :
  (mbr = true → 2 ≤ S) →
  (if mbr then autograd_grad grad S f x else Some x)
  = Some (if mbr then grad f x else x).
Proof.
  destruct mbr; [|done]. intros HS. by apply autograd_grad_Some, HS.
Qed.

Lemma probs_inv (grad : (P → A) → P → P) S f x (mbr : bool) p :
  (if mbr then autograd_grad grad S f x else Some x) = Some p →
  (mbr = true → 2 ≤ S) ∧ p = if mbr then grad f x else x.
Proof.
  destruct mbr.
  - unfold autograd_grad. destruct (Nat.ltb_spec S 2); [done|].
    intros [= <-]. done.
  - intros [= <-]. done.
Qed.

End Marginals.

Section Returns.
Context {A : Type} `{LossDomain A}.

Lemma mapM_guard_inv {X Y : Type} (P : X → Prop) `{!∀ x, Decision (P x)}
    (g : X → Y) (l : list X) (ys : list Y) :
  mapM (λ x, if decide (P x) then Some (g x) else None) l = Some ys →
  ∀ x, x ∈ l → P x.
Proof.
  intros Hm x Hx.
  assert (Hs : is_Some (mapM (λ x, if decide (P x) then Some (g x) else None)
                          l)) by (rewrite Hm; eauto).
  apply mapM_is_Some in Hs. rewrite list.Forall_forall in Hs.
  specialize (Hs x Hx). cbn in Hs.
  destruct (decide (P x)) as [HP|_]; [exact HP|]. by destruct Hs.
Qed.

(** [CRFDependency.forward] returns only on a table whose sentence lengths
    index it, with two positions when the marginals are asked for, and
    with gold parents in range under full supervision. *)
Lemma dep_forward_inv grad S B (scores : CRFDependency.arc_scores A) mask
    target mbr partial out :
  CRFDependency.forward grad S B scores mask target mbr partial = Some out →
  0 < S ∧ (∀ b, b < B → mask_lens S mask b < S) ∧ (mbr = true → 2 ≤ S)
  ∧ ∀ t, target = Some t → partial = false →
      ∀ p, p ∈ positions S B → (0 ≤ t p.1 p.2 < Z.of_nat S)%Z.
Proof.
  unfold CRFDependency.forward. intros Hout.
  destruct (CRFDependency.partition S B scores mask None) as [z|] eqn:Hz;
    [|discriminate Hout].
  unfold CRFDependency.partition in Hz.
  apply fmap_Some in Hz as (zs & Hzs & _).
  apply gather_lens_inv in Hzs as [HS Hl].
  cbn [mbind option_bind] in Hout.
  destruct (if mbr then _ else _) as [pr|] eqn:Hpr; [|discriminate Hout].
  apply probs_inv in Hpr as [Hm _].
  split_and!; [exact HS|exact Hl|exact Hm|].
  intros t -> ->. cbn [mbind option_bind] in Hout.
  destruct (CRFDependency.gold_scores S B scores t mask) as [g|] eqn:Hg;
    [|discriminate Hout].
  unfold CRFDependency.gold_scores in Hg.
  destruct (mapM _ (positions S B)) as [gs|] eqn:Hgs; [|discriminate Hg].
  intros p Hp.
  exact (mapM_guard_inv (λ p : nat * nat, (0 ≤ t p.1 p.2 < Z.of_nat S)%Z)
           _ _ _ Hgs p Hp).
Qed.

(** The same for [CRF2oDependency.forward]; the gold arcs and siblings are
    read at the valid positions only. *)
Lemma dep2o_forward_inv grad S B (s_arc : CRF2oDependency.arc_scores A)
    (s_sib : CRF2oDependency.sib_scores A) mask target mbr partial out :
  CRF2oDependency.forward grad S B (s_arc, s_sib) mask target mbr partial
  = Some out →
  0 < S ∧ (∀ b, b < B → mask_lens S mask b < S) ∧ (mbr = true → 2 ≤ S)
  ∧ ∀ arcs sibs, target = Some (arcs, sibs) → partial = false →
      ∀ p, p ∈ positions S B → mask p.1 p.2 = true →
        (0 ≤ arcs p.1 p.2 < Z.of_nat S)%Z.
Proof.
  unfold CRF2oDependency.forward. intros Hout.
  destruct (CRF2oDependency.partition S B s_arc s_sib mask None) as [z|] eqn:Hz;
    [|discriminate Hout].
  unfold CRF2oDependency.partition in Hz.
  apply fmap_Some in Hz as (zs & Hzs & _).
  apply gather_lens_inv in Hzs as [HS Hl].
  cbn [mbind option_bind] in Hout.
  destruct (if mbr then _ else _) as [pr|] eqn:Hpr; [|discriminate Hout].
  apply probs_inv in Hpr as [Hm _].
  split_and!; [exact HS|exact Hl|exact Hm|].
  intros arcs sibs -> ->. cbn [mbind option_bind] in Hout.
  destruct (CRF2oDependency.gold_scores S B s_arc s_sib arcs sibs mask)
    as [g|] eqn:Hg; [|discriminate Hout].
  unfold CRF2oDependency.gold_scores in Hg.
  destruct (mapM _ (filter _ (positions S B))) as [ga|] eqn:Hga;
    [|discriminate Hg].
  intros p Hp Hmp.
  apply (mapM_guard_inv (λ p : nat * nat, (0 ≤ arcs p.1 p.2 < Z.of_nat S)%Z)
           _ _ _ Hga p).
  by apply list_elem_of_filter.
Qed.

(** The same for [CRFConstituency.forward], which reads no index from its
    target. *)
Lemma con_forward_inv grad S B (scores : CRFConstituency.span_scores A) mask
    target mbr out :
  CRFConstituency.forward grad S B scores mask target mbr = Some out →
  0 < S ∧ (∀ b, b < B → CRFConstituency.lens S mask b < S)
  ∧ (mbr = true → 2 ≤ S).
Proof.
  unfold CRFConstituency.forward. intros Hout.
  destruct (CRFConstituency.partition S B scores mask) as [z|] eqn:Hz;
    [|discriminate Hout].
  unfold CRFConstituency.partition in Hz.
  apply fmap_Some in Hz as (zs & Hzs & _).
  apply gather_lens_inv in Hzs as [HS Hl].
  cbn [mbind option_bind] in Hout.
  destruct (if mbr then _ else _) as [pr|] eqn:Hpr; [|discriminate Hout].
  apply probs_inv in Hpr as [Hm _].
  split_and!; [exact HS|exact Hl|exact Hm].
Qed.

End Returns.
End ForwardFacts.

(* ===================================================================== *)
(** * Closure of the extended reals *)
(* ===================================================================== *)

Module ExtRealFacts.
Import ExtReal.
Export Finite.

Lemma is_finite_ok a : is_finite a = true → finite_or_ninf a = true.
Proof. by destruct a. Qed.

Lemma eadd_ok a b :
  finite_or_ninf a = true → finite_or_ninf b = true →
  finite_or_ninf (eadd a b) = true.
Proof. by destruct a, b. Qed.

Lemma eadd_finite a b :
  is_finite a = true → is_finite b = true → is_finite (eadd a b) = true.
Proof. by destruct a, b. Qed.

Lemma eadd_ninf_r a : finite_or_ninf a = true → eadd a NInf = NInf.
Proof. by destruct a. Qed.

Lemma existsb_ok_nan l :
  Forall (λ a, finite_or_ninf a = true) l → existsb is_nan l = false.
Proof.
  induction 1 as [|a l Ha _ IH]; [done|]. simpl. rewrite IH. by destruct a.
Qed.

Lemma existsb_ok_pinf l :
  Forall (λ a, finite_or_ninf a = true) l → existsb is_pinf l = false.
Proof.
  induction 1 as [|a l Ha _ IH]; [done|]. simpl. rewrite IH. by destruct a.
Qed.

Lemma elogsumexp_ok l :
  Forall (λ a, finite_or_ninf a = true) l →
  finite_or_ninf (elogsumexp l) = true.
Proof.
  intros Hl. unfold elogsumexp.
  rewrite existsb_ok_nan, existsb_ok_pinf by done.
  by destruct (omap fin_part l).
Qed.

Lemma elogsumexp_finite l :
  Forall (λ a, finite_or_ninf a = true) l →
  Exists (λ a, is_finite a = true) l →
  is_finite (elogsumexp l) = true.
Proof.
  intros Hl He. unfold elogsumexp.
  rewrite existsb_ok_nan, existsb_ok_pinf by done.
  assert (Hne : omap fin_part l ≠ []).
  { clear Hl. induction He as [a l Ha|a l _ IH].
    - by destruct a.
    - simpl. by destruct (fin_part a). }
  by destruct (omap fin_part l).
Qed.

Lemma elogsumexp_all_finite l :
  l ≠ [] → Forall (λ a, is_finite a = true) l →
  is_finite (elogsumexp l) = true.
Proof.
  intros Hne Hl. apply elogsumexp_finite.
  - eapply list.Forall_impl; [done|]. intros a. apply is_finite_ok.
  - destruct Hl; [done|]. by left.
Qed.

Lemma esum_finite l :
  Forall (λ a, is_finite a = true) l → is_finite (esum l) = true.
Proof.
  induction 1 as [|a l Ha _ IH]; [done|]. simpl. by apply eadd_finite.
Qed.

Lemma esum_ok l :
  Forall (λ a, finite_or_ninf a = true) l → finite_or_ninf (esum l) = true.
Proof.
  induction 1 as [|a l Ha _ IH]; [done|]. simpl. by apply eadd_ok.
Qed.

Lemma is_finite_Fin a : is_finite a = true → ∃ r, a = Fin r.
Proof. destruct a; try done. by eexists. Qed.

Lemma is_finite_Fin' a : is_finite a = true → ∃ r, Some a = Some (Fin r).
Proof. intros [r ->]%is_finite_Fin. by eexists. Qed.

End ExtRealFacts.

(* ===================================================================== *)
(** * Relating two runs of the first-order inside pass *)
(* ===================================================================== *)

Module CRFDependencyRelated.
Import Tensor Table.
Import CRFDependency CRFDependencyFacts.

Lemma Forall2_fmap_seq {X Y : Type} (R : X → Y → Prop) (f : nat → X)
    (g : nat → Y) (start n : nat) :
  (∀ c, start ≤ c < start + n → R (f c) (g c)) →
  Forall2 R (f <$> seq start n) (g <$> seq start n).
Proof.
  intros Hfg. apply Forall2_fmap, Forall_Forall2_diag, list.Forall_forall.
  intros c Hc%elem_of_seq. by apply Hfg.
Qed.

Section Related.
Context {A A' : Type} `{LogDomain A} `{LogDomain A'}.
Variable R : A → A' → Prop.
Hypothesis R_ninf : R ninf ninf.
Hypothesis R_zero : R zero zero.
Hypothesis R_add : ∀ x x' y y', R x x' → R y y' → R (add x y) (add x' y').
Hypothesis R_lse :
  ∀ l l', l ≠ [] → Forall2 R l l' → R (lse l) (lse l').

Variables (sc : nat → nat → nat → A) (sc' : nat → nat → nat → A').
Variables (lens lens' : nat → nat).
Variables (Cf If : nat → nat → nat → A) (Cf' If' : nat → nat → nat → A').
Variables (b b' L : nat).
Hypothesis Hlens : lens b = lens' b'.
Hypothesis Hsc :
  ∀ x y, x ≤ L → y ≤ L → x ≠ y → R (sc x y b) (sc' x y b').
Hypothesis Hrec : ∀ w i, 1 ≤ w → i + w ≤ L → rec sc lens Cf If w i b.
Hypothesis Hrec' : ∀ w i, 1 ≤ w → i + w ≤ L → rec sc' lens' Cf' If' w i b'.
Hypothesis Hdiag : ∀ x, x ≤ L → Cf x x b = zero.
Hypothesis Hdiag' : ∀ x, x ≤ L → Cf' x x b' = zero.

Lemma rec_related_width n :
  ∀ x y, x ≤ L → y ≤ L → width x y ≤ n →
    R (Cf x y b) (Cf' x y b') ∧ (x ≠ y → R (If x y b) (If' x y b')).
Proof.
  unfold width.
  induction n as [|n IH]; intros x y Hx Hy Hxy.
  { assert (x = y) as -> by lia. split; [|done].
    by rewrite Hdiag, Hdiag'. }
  destruct (decide ((x - y) + (y - x) ≤ n)) as [|Hn]; [by apply IH|].
  set (w := Datatypes.S n).
  assert (HC : ∀ u v, u ≤ L → v ≤ L → (u - v) + (v - u) ≤ n →
            R (Cf u v b) (Cf' u v b')) by (intros; by apply IH).
  assert (HI : ∀ u v, u ≤ L → v ≤ L → (u - v) + (v - u) ≤ n → u ≠ v →
            R (If u v b) (If' u v b')) by (intros; by apply IH).
  assert (Hspan : ∀ i, i + w ≤ L →
    (R (If (i + w) i b) (If' (i + w) i b')
     ∧ R (If i (i + w) b) (If' i (i + w) b'))
    ∧ R (Cf (i + w) i b) (Cf' (i + w) i b')
    ∧ R (Cf i (i + w) b) (Cf' i (i + w) b')).
  { intros i Hi.
    destruct (Hrec w i) as (E1 & E2 & E3 & E4); [lia..|].
    destruct (Hrec' w i) as (E1' & E2' & E3' & E4'); [lia..|].
    assert (Hlr : R (lse ((λ c, add (Cf i (i + c) b) (Cf (i + w) (i + c + 1) b))
                            <$> seq 0 w))
                    (lse ((λ c, add (Cf' i (i + c) b') (Cf' (i + w) (i + c + 1) b'))
                            <$> seq 0 w))).
    { apply R_lse, Forall2_fmap_seq; [done|]. intros c Hc.
      apply R_add; apply HC; lia. }
    assert (HI1 : R (If (i + w) i b) (If' (i + w) i b')).
    { rewrite E1, E1'. apply R_add; [done|]. apply Hsc; lia. }
    assert (HI2 : R (If i (i + w) b) (If' i (i + w) b')).
    { rewrite E2, E2'. apply R_add; [done|]. apply Hsc; lia. }
    split_and!; [done|done|..].
    - rewrite E3, E3'. apply R_lse, Forall2_fmap_seq; [done|]. intros c Hc.
      apply R_add; [apply HC; lia|].
      destruct (decide (c = 0)) as [->|Hc0].
      + by rewrite Nat.add_0_r.
      + apply HI; lia.
    - rewrite E4, E4', Hlens.
      destruct (decide (i = 0 ∧ lens' b' ≠ w)); [done|].
      apply R_lse, Forall2_fmap_seq; [done|]. intros c Hc.
      apply R_add; [|apply HC; lia].
      destruct (decide (c = n)) as [->|Hcn].
      + by replace (i + n + 1) with (i + w) by lia.
      + apply HI; lia. }
  destruct (decide (x < y)) as [Hlt|Hge].
  - replace y with (x + w) in * by lia.
    destruct (Hspan x) as ((_ & HI2) & _ & HC2); [lia|]. done.
  - replace x with (y + w) in * by lia.
    destruct (Hspan y) as ((HI1 & _) & HC1 & _); [lia|]. done.
Qed.

Lemma rec_related x y :
  x ≤ L → y ≤ L →
  R (Cf x y b) (Cf' x y b') ∧ (x ≠ y → R (If x y b) (If' x y b')).
Proof. intros Hx Hy. apply (rec_related_width (width x y)); done. Qed.

End Related.

Section Diagonal.
Context {A : Type} `{LogDomain A}.

(** The diagonal of [s_i] is never written. *)
Lemma inside_loop_diag S B (scores : nat → nat → nat → A) lens m :
  m ≤ S - 1 →
  let t := foldl (inside_step S B scores lens) (inside_init S B) (seq 1 m) in
  wf S B t ∧ ∀ x b, x < S → b < B → I S B t x x b = ninf.
Proof.
  induction m as [|m IH]; intros Hm; cbv zeta.
  { simpl. destruct (inside_init_spec (A := A) S B) as [Hwf Hinit].
    split; [done|]. intros x b Hx Hb. by destruct (Hinit x x b) as [-> _]. }
  destruct IH as (Hwf & Hd); [lia|].
  rewrite seq_S, foldl_app. simpl.
  set (t := foldl _ _ (seq 1 m)) in *.
  destruct (inside_step_spec S B scores lens t (Datatypes.S m) Hwf)
    as (Hwf' & Hframe & _); [lia..|].
  split; [done|]. intros x b Hx Hb.
  destruct (Hframe x x b) as [-> _]; try done; [|by apply Hd].
  unfold width. lia.
Qed.

Lemma inside_I_diag S B (scores : arc_scores A) mask cands x b :
  x < S → b < B →
  tget S S B (s_i (inside S B scores mask cands)) x x b = ninf.
Proof.
  intros Hx Hb. unfold inside.
  destruct (inside_loop_diag S B (inside_scores scores mask cands)
              (mask_lens S mask) (S - 1)) as [_ Hd]; [done|].
  by apply Hd.
Qed.

End Diagonal.

(** Entries of the tables of two calls are related as soon as the scores
    of the arcs among the positions [0..L] are. *)
Lemma inside_related {A A' : Type} `{LogDomain A} `{LogDomain A'}
    (R : A → A' → Prop)
    S B (scores : arc_scores A) mask cands
    S' B' (scores' : arc_scores A') mask' cands' b b' L :
  R ninf ninf → R zero zero →
  (∀ x x' y y', R x x' → R y y' → R (add x y) (add x' y')) →
  (∀ l l', l ≠ [] → Forall2 R l l' → R (lse l) (lse l')) →
  b < B → b' < B' → L < S → L < S' →
  mask_lens S mask b = mask_lens S' mask' b' →
  (∀ x y, x ≤ L → y ≤ L → x ≠ y →
     R (inside_scores scores mask cands x y b)
       (inside_scores scores' mask' cands' x y b')) →
  ∀ x y, x ≤ L → y ≤ L →
    R (tget S S B (s_c (inside S B scores mask cands)) x y b)
      (tget S' S' B' (s_c (inside S' B' scores' mask' cands')) x y b')
    ∧ R (tget S S B (s_i (inside S B scores mask cands)) x y b)
        (tget S' S' B' (s_i (inside S' B' scores' mask' cands')) x y b').
Proof.
  intros Hn Hz Ha Hl Hb Hb' HL HL' Hlens Hsc x y Hx Hy.
  destruct (inside_spec S B scores mask cands) as (_ & Hrec & Hdiag).
  destruct (inside_spec S' B' scores' mask' cands') as (_ & Hrec' & Hdiag').
  assert (H1 : ∀ w i, 1 ≤ w → i + w ≤ L →
            rec (inside_scores scores mask cands) (mask_lens S mask)
                (C S B (inside S B scores mask cands))
                (I S B (inside S B scores mask cands)) w i b).
  { intros w i Hw Hi. apply Hrec; [done|lia|done]. }
  assert (H1' : ∀ w i, 1 ≤ w → i + w ≤ L →
            rec (inside_scores scores' mask' cands') (mask_lens S' mask')
                (C S' B' (inside S' B' scores' mask' cands'))
                (I S' B' (inside S' B' scores' mask' cands')) w i b').
  { intros w i Hw Hi. apply Hrec'; [done|lia|done]. }
  assert (H2 : ∀ u, u ≤ L → C S B (inside S B scores mask cands) u u b = zero).
  { intros u Hu. apply Hdiag; [lia|done]. }
  assert (H2' : ∀ u, u ≤ L →
            C S' B' (inside S' B' scores' mask' cands') u u b' = zero).
  { intros u Hu. apply Hdiag'; [lia|done]. }
  destruct (rec_related R Hn Hz Ha Hl _ _ _ _ _ _ _ _ b b' L Hlens Hsc
              H1 H1' H2 H2' x y Hx Hy) as [HC HI].
  split; [done|]. destruct (decide (x = y)) as [->|Hne]; [|by apply HI].
  rewrite !inside_I_diag by (done || lia). done.
Qed.

End CRFDependencyRelated.

Module CRFDependencyMore.
Import Tensor Table ExtReal.
Import CRFDependency CRFDependencyFacts CRFDependencyRelated ExtRealFacts
       ForwardFacts.

(** Two calls agree on the entries of a sentence among the positions
    [0..L] when the scores the loops read agree there. *)
Lemma inside_local {A : Type} `{LogDomain A}
    S B (scores : arc_scores A) mask cands
    S' B' (scores' : arc_scores A) mask' cands' b b' L :
  b < B → b' < B' → L < S → L < S' →
  mask_lens S mask b = mask_lens S' mask' b' →
  (∀ x y, x ≤ L → y ≤ L → x ≠ y →
     inside_scores scores mask cands x y b
     = inside_scores scores' mask' cands' x y b') →
  ∀ x y, x ≤ L → y ≤ L →
    tget S S B (s_c (inside S B scores mask cands)) x y b
    = tget S' S' B' (s_c (inside S' B' scores' mask' cands')) x y b'
    ∧ tget S S B (s_i (inside S B scores mask cands)) x y b
      = tget S' S' B' (s_i (inside S' B' scores' mask' cands')) x y b'.
Proof.
  intros Hb Hb' HL HL' Hlens Hsc.
  apply (inside_related eq); try done.
  - by intros ???? -> ->.
  - by intros l l' _ ->%list_eq_Forall2.
Qed.

Lemma filter_none {X : Type} (P : X → Prop) `{∀ x, Decision (P x)} l :
  Forall (λ x, ¬ P x) l → filter P l = [].
Proof.
  induction 1 as [|x l Hx _ IH]; [done|].
  by rewrite filter_cons_False.
Qed.

(** The trimmed mask of a sentence counts the same positions. *)
Lemma mask_lens_trim S (mask : nat → nat → bool) b L :
  L < S → (∀ i, i < S → mask b i = true → i ≤ L) →
  mask_lens (L + 1) (λ _ i, mask b i) 0 = mask_lens S mask b.
Proof.
  intros HL Hm. unfold mask_lens.
  replace S with ((L + 1) + (S - (L + 1))) at 1 by lia.
  rewrite (seq_app (L + 1) (S - (L + 1)) 0), list.filter_app, length_app.
  assert (E : filter (λ i, mask b i = true) (seq (0 + (L + 1)) (S - (L + 1)))
              = []).
  { apply filter_none, list.Forall_forall.
    intros i Hi%elem_of_seq Hmi. apply Hm in Hmi; lia. }
  rewrite E. simpl. lia.
Qed.


(** One entry of the gather of [logZ]. *)
Lemma gather_lens_lookup {A : Type} `{LogDomain A} S B (s : list A) lens zs b z :
  gather_lens S B s lens = Some zs → zs !! b = Some z →
  b < B ∧ lens b < S ∧ z = tget S S B s 0 (lens b) b.
Proof.
  unfold gather_lens. destruct (S =? 0); [done|].
  intros Hzs%mapM_Some Hz.
  destruct (Forall2_lookup_r _ _ _ b z Hzs Hz) as (b0 & Hb0 & Hf).
  apply lookup_seq in Hb0 as [-> Hb]. simpl in Hf.
  destruct (Nat.ltb_spec (lens b) S); [|done].
  injection Hf as <-. done.
Qed.

(** With finite or [-inf] scores, no table entry is NaN or [+inf]. *)
Lemma inside_ok S B (scores : arc_scores ext) mask cands :
  (∀ b x y, b < B → x < S → y < S → finite_or_ninf (scores b x y) = true) →
  ∀ x y b, x < S → y < S → b < B →
    finite_or_ninf (tget S S B (s_c (inside S B scores mask cands)) x y b)
    = true
    ∧ finite_or_ninf (tget S S B (s_i (inside S B scores mask cands)) x y b)
      = true.
Proof.
  intros Hs x y b Hx Hy Hb.
  apply (inside_related (λ a _ : ext, finite_or_ninf a = true)
           S B scores mask cands S B scores mask cands b b (S - 1));
    try done; try lia.
  - intros ???? Ha Hc. by apply eadd_ok.
  - intros l l' _ Hl. apply elogsumexp_ok.
    induction Hl; by constructor.
  - intros u v Hu Hv _. unfold inside_scores. destruct cands as [cands|].
    + unfold restrict. case_match; [|done]. apply Hs; lia.
    + apply Hs; lia.
Qed.

(** With finite scores, the incomplete spans and the complete spans
    towards the left are finite. *)
Lemma inside_finite_width S B (scores : arc_scores ext) mask b n :
  b < B →
  (∀ x y, x < S → y < S → is_finite (scores b x y) = true) →
  (∀ b x y, b < B → x < S → y < S → finite_or_ninf (scores b x y) = true) →
  let t := inside S B scores mask None in
  ∀ x y, x < S → y < S → width x y ≤ n →
    (x ≠ y → is_finite (tget S S B (s_i t) x y b) = true)
    ∧ (y ≤ x → is_finite (tget S S B (s_c t) x y b) = true).
Proof.
  intros Hb Hfin Hok t.
  destruct (inside_spec S B scores mask None) as (_ & Hrec & Hdiag).
  fold t in Hrec, Hdiag.
  pose proof (inside_ok S B scores mask None Hok) as Hall. fold t in Hall.
  unfold width.
  induction n as [|n IH]; intros x y Hx Hy Hxy.
  { assert (x = y) as -> by lia. split; [done|]. intros _.
    specialize (Hdiag y b Hy Hb). unfold C in Hdiag. by rewrite Hdiag. }
  destruct (decide ((x - y) + (y - x) ≤ n)) as [|Hn]; [by apply IH|].
  set (w := Datatypes.S n).
  assert (Hspan : ∀ i, i + w < S →
    is_finite (tget S S B (s_i t) (i + w) i b) = true
    ∧ is_finite (tget S S B (s_i t) i (i + w) b) = true
    ∧ is_finite (tget S S B (s_c t) (i + w) i b) = true).
  { intros i Hi.
    destruct (Hrec w i b) as (E1 & E2 & E3 & _); [lia..|].
    unfold C, I, inside_scores in E1, E2, E3.
    assert (Hl : is_finite (lse ((λ c, add (tget S S B (s_c t) i (i + c) b)
                                        (tget S S B (s_c t) (i + w) (i + c + 1) b))
                                   <$> seq 0 w)) = true).
    { apply elogsumexp_finite.
      - apply Forall_fmap, list.Forall_forall. intros c Hc%elem_of_seq.
        apply eadd_ok; apply Hall; lia.
      - apply list.Exists_exists. exists (add (tget S S B (s_c t) i (i + 0) b)
                        (tget S S B (s_c t) (i + w) (i + 0 + 1) b)).
        split.
        + apply (list_elem_of_fmap_2 (λ c, add (tget S S B (s_c t) i (i + c) b)
                   (tget S S B (s_c t) (i + w) (i + c + 1) b)) _ 0).
          apply elem_of_seq. lia.
        + apply eadd_finite.
          * rewrite Nat.add_0_r. specialize (Hdiag i b). unfold C in Hdiag.
            rewrite Hdiag by (done || lia). done.
          * apply IH; lia. }
    assert (HI1 : is_finite (tget S S B (s_i t) (i + w) i b) = true).
    { rewrite E1. apply eadd_finite; [done|]. apply Hfin; lia. }
    split_and!; [done| |].
    - rewrite E2. apply eadd_finite; [done|]. apply Hfin; lia.
    - rewrite E3. apply elogsumexp_finite.
      + apply Forall_fmap, list.Forall_forall. intros c Hc%elem_of_seq.
        apply eadd_ok; apply Hall; lia.
      + apply list.Exists_exists. exists (add (tget S S B (s_c t) (i + 0) i b)
                        (tget S S B (s_i t) (i + w) (i + 0) b)).
        split.
        * apply (list_elem_of_fmap_2 (λ c, add (tget S S B (s_c t) (i + c) i b)
                   (tget S S B (s_i t) (i + w) (i + c) b)) _ 0).
          apply elem_of_seq. lia.
        * rewrite !Nat.add_0_r. apply eadd_finite; [|done].
          specialize (Hdiag i b). unfold C in Hdiag.
          rewrite Hdiag by (done || lia). done. }
  destruct (decide (x < y)) as [Hlt|Hge].
  - replace y with (x + w) in * by lia.
    destruct (Hspan x) as (_ & HI2 & _); [lia|]. split; [done|]. lia.
  - replace x with (y + w) in * by lia.
    destruct (Hspan y) as (HI1 & _ & HC1); [lia|]. done.
Qed.

(** With finite scores, the entry [s_c[0, length]] of every sentence is
    finite. *)
Lemma inside_root_finite S B (scores : arc_scores ext) mask b :
  b < B → mask_lens S mask b < S →
  (∀ b x y, b < B → x < S → y < S → is_finite (scores b x y) = true) →
  is_finite (tget S S B (s_c (inside S B scores mask None)) 0
               (mask_lens S mask b) b) = true.
Proof.
  intros Hb HL Hfin.
  assert (Hok : ∀ b x y, b < B → x < S → y < S →
            finite_or_ninf (scores b x y) = true).
  { intros. apply is_finite_ok. by apply Hfin. }
  pose proof (inside_ok S B scores mask None Hok) as Hall.
  pose proof (λ n, inside_finite_width S B scores mask b n Hb
                     (λ x y, Hfin b x y Hb) Hok) as Hw.
  cbv zeta in Hw.
  destruct (inside_spec S B scores mask None) as (_ & Hrec & Hdiag).
  set (L := mask_lens S mask b) in *.
  destruct (decide (L = 0)) as [->|HL0].
  { specialize (Hdiag 0 b). unfold C in Hdiag. rewrite Hdiag by (done || lia).
    done. }
  destruct (Hrec L 0 b) as (_ & _ & _ & E4); [lia..|].
  unfold C, I in E4. simpl in E4. rewrite E4.
  rewrite decide_False by (intros [_ Hne]; by apply Hne).
  apply elogsumexp_finite.
  - apply Forall_fmap, list.Forall_forall. intros c Hc%elem_of_seq.
    apply eadd_ok; apply Hall; (done || lia).
  - apply list.Exists_exists.
    exists (eadd (tget S S B (s_i (inside S B scores mask None)) 0
                    (L - 1 + 1) b)
                 (tget S S B (s_c (inside S B scores mask None))
                    (L - 1 + 1) L b)).
    split.
    + apply (list_elem_of_fmap_2
               (λ c, eadd (tget S S B (s_i (inside S B scores mask None)) 0
                             (c + 1) b)
                          (tget S S B (s_c (inside S B scores mask None))
                             (c + 1) L b)) (seq 0 L) (L - 1)).
      apply elem_of_seq. lia.
    + replace (L - 1 + 1) with L by lia.
      apply eadd_finite.
      * apply (Hw L 0 L); unfold width; lia.
      * apply (Hw 0 L L); unfold width; lia.
Qed.

End CRFDependencyMore.

(* ===================================================================== *)
(** * Relating two runs of the constituency inside pass *)
(* ===================================================================== *)

Module CRFConstituencyMore.
Import Tensor Table ExtReal.
Import CRFConstituency CRFConstituencyFacts TableFacts ExtRealFacts
       ForwardFacts.
Import CRFDependencyFacts(fmap_seq_ext, fmap_seq_shift, width).
Import CRFDependencyRelated(Forall2_fmap_seq).
Import CRFDependencyMore(filter_none, gather_lens_lookup).

Section Lower.
Context {A : Type} `{LogDomain A}.

(** The entries on and below the diagonal are never written. *)
Lemma chart_loop_lower S B (scores : nat → nat → nat → A) m :
  m ≤ S - 1 →
  let s := foldl (inside_step S B scores) (full S S B ninf) (seq 1 m) in
  length s = S * S * B ∧
  ∀ x y b, x < S → y < S → b < B → y ≤ x → tget S S B s x y b = ninf.
Proof.
  induction m as [|m IH]; intros Hm; cbv zeta.
  { simpl. split; [apply length_full|]. intros. by apply tget_full. }
  destruct IH as (Hlen & Hlow); [lia|].
  rewrite seq_S, foldl_app. simpl.
  set (s := foldl _ _ (seq 1 m)) in *.
  destruct (chart_step_spec S B scores s (Datatypes.S m) Hlen)
    as (Hlen' & Hframe & _); [lia..|].
  split; [done|]. intros x y b Hx Hy Hb Hxy.
  rewrite Hframe by (done || lia). by apply Hlow.
Qed.

Lemma chart_lower S B (scores : span_scores A) mask x y b :
  x < S → y < S → b < B → y ≤ x →
  tget S S B (inside S B scores mask) x y b = ninf.
Proof.
  intros Hx Hy Hb Hxy. unfold inside.
  destruct (chart_loop_lower S B (λ i j b, scores b i j) (S - 1)) as [_ Hl];
    [done|].
  by apply Hl.
Qed.

End Lower.

Section Related.
Context {A A' : Type} `{LogDomain A} `{LogDomain A'}.
Variable R : A → A' → Prop.
Hypothesis R_add : ∀ x x' y y', R x x' → R y y' → R (add x y) (add x' y').
Hypothesis R_lse :
  ∀ l l', l ≠ [] → Forall2 R l l' → R (lse l) (lse l').

Variables (sc : nat → nat → nat → A) (sc' : nat → nat → nat → A').
Variables (sf : nat → nat → nat → A) (sf' : nat → nat → nat → A').
Variables (b b' L : nat).
Hypothesis Hsc : ∀ x y, x < y → y ≤ L → R (sc x y b) (sc' x y b').
Hypothesis Hrec : ∀ w i, 1 ≤ w → i + w ≤ L → rec sc sf w i b.
Hypothesis Hrec' : ∀ w i, 1 ≤ w → i + w ≤ L → rec sc' sf' w i b'.

Lemma chart_related_width n :
  ∀ x y, x < y → y ≤ L → y - x ≤ n → R (sf x y b) (sf' x y b').
Proof.
  induction n as [|n IH]; intros x y Hxy Hy Hn; [lia|].
  destruct (decide (y - x ≤ n)) as [|Hw]; [by apply IH|].
  replace y with (x + Datatypes.S n) in * by lia.
  pose proof (Hrec (Datatypes.S n) x) as E.
  pose proof (Hrec' (Datatypes.S n) x) as E'.
  unfold rec in E, E'. rewrite E, E' by lia.
  destruct (decide (Datatypes.S n = 1)) as [Hn1|Hn1].
  - replace (x + 1) with (x + Datatypes.S n) by lia. apply Hsc; lia.
  - apply R_add; [|apply Hsc; lia].
    apply R_lse.
    + destruct n; [done|]. done.
    + apply Forall2_fmap_seq. intros c Hc. apply R_add; apply IH; lia.
Qed.

Lemma chart_related x y :
  x < y → y ≤ L → R (sf x y b) (sf' x y b').
Proof. intros Hxy Hy. apply (chart_related_width (y - x)); done. Qed.

End Related.

(** Entries of the charts of two calls are related as soon as the scores
    of the spans among the positions [0..L] are. *)
Lemma chart_inside_related {A A' : Type} `{LogDomain A} `{LogDomain A'}
    (R : A → A' → Prop)
    S B (scores : span_scores A) mask
    S' B' (scores' : span_scores A') mask' b b' L :
  (∀ x x' y y', R x x' → R y y' → R (add x y) (add x' y')) →
  (∀ l l', l ≠ [] → Forall2 R l l' → R (lse l) (lse l')) →
  b < B → b' < B' → L < S → L < S' →
  (∀ x y, x < y → y ≤ L → R (scores b x y) (scores' b' x y)) →
  ∀ x y, x < y → y ≤ L →
    R (tget S S B (inside S B scores mask) x y b)
      (tget S' S' B' (inside S' B' scores' mask') x y b').
Proof.
  intros Ha Hl Hb Hb' HL HL' Hsc x y Hxy Hy.
  destruct (chart_spec S B scores mask) as (_ & Hrec).
  destruct (chart_spec S' B' scores' mask') as (_ & Hrec').
  apply (chart_related R Ha Hl (λ i j b, scores b i j)
           (λ i j b, scores' b i j) _ _ b b' L); try done.
  - intros w i Hw Hi. apply Hrec; [done|lia|done].
  - intros w i Hw Hi. apply Hrec'; [done|lia|done].
Qed.

Lemma chart_local {A : Type} `{LogDomain A}
    S B (scores : span_scores A) mask
    S' B' (scores' : span_scores A) mask' b b' L x y :
  b < B → b' < B' → L < S → L < S' →
  (∀ u v, u < v → v ≤ L → scores b u v = scores' b' u v) →
  x ≤ L → y ≤ L →
  tget S S B (inside S B scores mask) x y b
  = tget S' S' B' (inside S' B' scores' mask') x y b'.
Proof.
  intros Hb Hb' HL HL' Hsc Hx Hy.
  destruct (decide (x < y)) as [Hxy|Hxy].
  - apply (chart_inside_related eq S B scores mask S' B' scores' mask' b b' L);
      try done.
    + by intros ???? -> ->.
    + by intros l l' _ ->%list_eq_Forall2.
  - rewrite !chart_lower by (done || lia). done.
Qed.

(** With finite scores, the entries above the diagonal are finite. *)
Lemma chart_finite S B (scores : span_scores ext) mask x y b :
  (∀ b x y, b < B → x < S → y < S → is_finite (scores b x y) = true) →
  b < B → x < y → y < S →
  is_finite (tget S S B (inside S B scores mask) x y b) = true.
Proof.
  intros Hfin Hb Hxy Hy.
  apply (chart_inside_related (λ a _ : ext, is_finite a = true)
           S B scores mask S B scores mask b b (S - 1)); try done; try lia.
  - intros ???? Ha Hc. by apply eadd_finite.
  - intros l l' Hne Hl. apply elogsumexp_all_finite; [done|].
    clear Hne. induction Hl; by constructor.
  - intros u v Hu Hv. apply Hfin; lia.
Qed.

Lemma lens_trim S (mask : nat → nat → nat → bool) b L :
  L < S → (∀ j, j < S → mask b 0 j = true → j ≤ L) →
  lens (L + 1) (λ _, mask b) 0 = lens S mask b.
Proof.
  intros HL Hm. unfold lens.
  replace S with ((L + 1) + (S - (L + 1))) at 1 by lia.
  rewrite (seq_app (L + 1) (S - (L + 1)) 0), list.filter_app, length_app.
  assert (E : filter (λ j, mask b 0 j = true) (seq (0 + (L + 1)) (S - (L + 1)))
              = []).
  { apply filter_none, list.Forall_forall.
    intros i Hi%elem_of_seq Hmi. apply Hm in Hmi; lia. }
  rewrite E. simpl. lia.
Qed.

End CRFConstituencyMore.

(* ===================================================================== *)
(** * Relating two runs of the second-order inside pass *)
(* ===================================================================== *)

Module CRF2oDependencyMore.
Import Tensor Table ExtReal.
Import CRF2oDependency CRF2oDependencyFacts TableFacts ExtRealFacts
       ForwardFacts.
Import CRFDependencyFacts(fmap_seq_ext, fmap_seq_shift, width).
Import CRFDependencyRelated(Forall2_fmap_seq).

Section Related.
Context {A A' : Type} `{LogDomain A} `{LogDomain A'}.
Variable R : A → A' → Prop.
Hypothesis R_ninf : R ninf ninf.
Hypothesis R_zero : R zero zero.
Hypothesis R_add : ∀ x x' y y', R x x' → R y y' → R (add x y) (add x' y').
Hypothesis R_lse :
  ∀ l l', l ≠ [] → Forall2 R l l' → R (lse l) (lse l').

Variables (sa : nat → nat → nat → A) (sa' : nat → nat → nat → A').
Variables (sb : nat → nat → nat → nat → A)
          (sb' : nat → nat → nat → nat → A').
Variables (lens lens' : nat → nat).
Variables (Cf If Sf : nat → nat → nat → A)
          (Cf' If' Sf' : nat → nat → nat → A').
Variables (b b' L : nat).
Hypothesis Hlens : lens b = lens' b'.
Hypothesis Hsa :
  ∀ x y, x ≤ L → y ≤ L → x ≠ y → R (sa x y b) (sa' x y b').
Hypothesis Hsb :
  ∀ x y z, x ≤ L → y ≤ L → z ≤ L → R (sb x y z b) (sb' x y z b').
Hypothesis Hrec :
  ∀ w i, 1 ≤ w → i + w ≤ L → rec sa sb lens Cf If Sf w i b.
Hypothesis Hrec' :
  ∀ w i, 1 ≤ w → i + w ≤ L → rec sa' sb' lens' Cf' If' Sf' w i b'.
Hypothesis Hdiag : ∀ x, x ≤ L → Cf x x b = zero.
Hypothesis Hdiag' : ∀ x, x ≤ L → Cf' x x b' = zero.

Lemma rec2o_related_width n :
  ∀ x y, x ≤ L → y ≤ L → width x y ≤ n →
    R (Cf x y b) (Cf' x y b')
    ∧ (x ≠ y → R (If x y b) (If' x y b') ∧ R (Sf x y b) (Sf' x y b')).
Proof.
  unfold width.
  induction n as [|n IH]; intros x y Hx Hy Hxy.
  { assert (x = y) as -> by lia. split; [|done].
    by rewrite Hdiag, Hdiag'. }
  destruct (decide ((x - y) + (y - x) ≤ n)) as [|Hn]; [by apply IH|].
  set (w := Datatypes.S n).
  assert (HC : ∀ u v, u ≤ L → v ≤ L → (u - v) + (v - u) ≤ n →
            R (Cf u v b) (Cf' u v b')) by (intros; by apply IH).
  assert (HI : ∀ u v, u ≤ L → v ≤ L → (u - v) + (v - u) ≤ n → u ≠ v →
            R (If u v b) (If' u v b')) by (intros; by apply IH).
  assert (HS : ∀ u v, u ≤ L → v ≤ L → (u - v) + (v - u) ≤ n → u ≠ v →
            R (Sf u v b) (Sf' u v b')) by (intros; by apply IH).
  assert (Hspan : ∀ i, i + w ≤ L →
    (R (If (i + w) i b) (If' (i + w) i b')
     ∧ R (If i (i + w) b) (If' i (i + w) b'))
    ∧ (R (Sf (i + w) i b) (Sf' (i + w) i b')
       ∧ R (Sf i (i + w) b) (Sf' i (i + w) b'))
    ∧ R (Cf (i + w) i b) (Cf' (i + w) i b')
    ∧ R (Cf i (i + w) b) (Cf' i (i + w) b')).
  { intros i Hi.
    destruct (Hrec w i) as (E1 & E2 & E3 & E4 & E5 & E6); [lia..|].
    destruct (Hrec' w i) as (E1' & E2' & E3' & E4' & E5' & E6'); [lia..|].
    assert (HI1 : R (If (i + w) i b) (If' (i + w) i b')).
    { rewrite E1, E1'. apply R_add; [|apply Hsa; lia].
      apply R_lse; [by destruct (_ <$> _)|].
      apply Forall2_app.
      - apply Forall2_fmap_seq. intros c Hc.
        apply R_add; [apply R_add|apply Hsb; lia]; [apply HI|apply HS]; lia.
      - constructor; [|constructor].
        destruct (decide (i = 0)); [done|].
        apply R_add; apply HC; lia. }
    assert (HI2 : R (If i (i + w) b) (If' i (i + w) b')).
    { rewrite E2, E2'. apply R_add; [|apply Hsa; lia].
      apply R_lse; [done|]. constructor.
      - apply R_add; apply HC; lia.
      - apply Forall2_fmap_seq. intros c Hc.
        destruct (decide (i = 0)); [done|].
        apply R_add; [apply R_add|apply Hsb; lia]; [apply HI|apply HS]; lia. }
    assert (Hlr : R (lse ((λ c, add (Cf i (i + c) b) (Cf (i + w) (i + c + 1) b))
                            <$> seq 0 w))
                    (lse ((λ c, add (Cf' i (i + c) b') (Cf' (i + w) (i + c + 1) b'))
                            <$> seq 0 w))).
    { apply R_lse, Forall2_fmap_seq; [done|]. intros c Hc.
      apply R_add; apply HC; lia. }
    split_and!; [done|done|by rewrite E3, E3'|by rewrite E4, E4'|..].
    - rewrite E5, E5'. apply R_lse, Forall2_fmap_seq; [done|]. intros c Hc.
      apply R_add; [apply HC; lia|].
      destruct (decide (c = 0)) as [->|Hc0].
      + by rewrite Nat.add_0_r.
      + apply HI; lia.
    - rewrite E6, E6', Hlens.
      destruct (decide (i = 0 ∧ lens' b' ≠ w)); [done|].
      apply R_lse, Forall2_fmap_seq; [done|]. intros c Hc.
      apply R_add; [|apply HC; lia].
      destruct (decide (c = n)) as [->|Hcn].
      + by replace (i + n + 1) with (i + w) by lia.
      + apply HI; lia. }
  destruct (decide (x < y)) as [Hlt|Hge].
  - replace y with (x + w) in * by lia.
    destruct (Hspan x) as ((_ & HI2) & (_ & HS2) & _ & HC2); [lia|]. done.
  - replace x with (y + w) in * by lia.
    destruct (Hspan y) as ((HI1 & _) & (HS1 & _) & HC1 & _); [lia|]. done.
Qed.

Lemma rec2o_related x y :
  x ≤ L → y ≤ L →
  R (Cf x y b) (Cf' x y b')
  ∧ (x ≠ y → R (If x y b) (If' x y b') ∧ R (Sf x y b) (Sf' x y b')).
Proof. intros Hx Hy. apply (rec2o_related_width (width x y)); done. Qed.

End Related.

Section Diagonal.
Context {A : Type} `{LogDomain A}.

(** The diagonals of [s_i] and [s_s] are never written. *)
Lemma inside2o_loop_diag S B (s_arc : nat → nat → nat → A) s_sib lens m :
  m ≤ S - 1 →
  let t := foldl (inside_step S B s_arc s_sib lens) (inside_init S B)
                 (seq 1 m) in
  wf S B t
  ∧ ∀ x b, x < S → b < B → I S B t x x b = ninf ∧ Sb S B t x x b = ninf.
Proof.
  induction m as [|m IH]; intros Hm; cbv zeta.
  { simpl. destruct (inside2o_init_spec (A := A) S B) as [Hwf _].
    split; [done|]. intros x b Hx Hb. unfold I, Sb, inside_init. simpl.
    by rewrite !tget_full. }
  destruct IH as (Hwf & Hd); [lia|].
  rewrite seq_S, foldl_app. simpl.
  set (t := foldl _ _ (seq 1 m)) in *.
  destruct (inside2o_step_spec S B s_arc s_sib lens t (Datatypes.S m) Hwf)
    as (Hwf' & Hframe & _); [lia..|].
  split; [done|]. intros x b Hx Hb.
  destruct (Hframe x x b) as (-> & -> & _); try done; [|by apply Hd].
  unfold width. lia.
Qed.

Lemma inside2o_diag S B (s_arc : arc_scores A) (s_sib : sib_scores A)
    mask cands x b :
  x < S → b < B →
  tget S S B (s_i (inside S B s_arc s_sib mask cands)) x x b = ninf
  ∧ tget S S B (s_s (inside S B s_arc s_sib mask cands)) x x b = ninf.
Proof.
  intros Hx Hb. unfold inside.
  destruct (inside2o_loop_diag S B (inside_arc s_arc mask cands)
              (inside_sib s_sib) (mask_lens S mask) (S - 1)) as [_ Hd];
    [done|].
  by apply Hd.
Qed.

End Diagonal.

(** Entries of the tables of two calls are related as soon as the arc
    and sibling scores among the positions [0..L] are. *)
Lemma inside2o_related {A A' : Type} `{LogDomain A} `{LogDomain A'}
    (R : A → A' → Prop)
    S B (s_arc : arc_scores A) (s_sib : sib_scores A) mask cands
    S' B' (s_arc' : arc_scores A') (s_sib' : sib_scores A') mask' cands'
    b b' L :
  R ninf ninf → R zero zero →
  (∀ x x' y y', R x x' → R y y' → R (add x y) (add x' y')) →
  (∀ l l', l ≠ [] → Forall2 R l l' → R (lse l) (lse l')) →
  b < B → b' < B' → L < S → L < S' →
  mask_lens S mask b = mask_lens S' mask' b' →
  (∀ x y, x ≤ L → y ≤ L → x ≠ y →
     R (inside_arc s_arc mask cands x y b)
       (inside_arc s_arc' mask' cands' x y b')) →
  (∀ x y z, x ≤ L → y ≤ L → z ≤ L →
     R (s_sib b x y z) (s_sib' b' x y z)) →
  ∀ x y, x ≤ L → y ≤ L →
    R (tget S S B (s_c (inside S B s_arc s_sib mask cands)) x y b)
      (tget S' S' B' (s_c (inside S' B' s_arc' s_sib' mask' cands')) x y b')
    ∧ R (tget S S B (s_i (inside S B s_arc s_sib mask cands)) x y b)
        (tget S' S' B' (s_i (inside S' B' s_arc' s_sib' mask' cands')) x y b')
    ∧ R (tget S S B (s_s (inside S B s_arc s_sib mask cands)) x y b)
        (tget S' S' B' (s_s (inside S' B' s_arc' s_sib' mask' cands')) x y b').
Proof.
  intros Hn Hz Ha Hl Hb Hb' HL HL' Hlens Hsa Hsb x y Hx Hy.
  destruct (inside2o_spec S B s_arc s_sib mask cands) as (_ & Hrec & Hdiag).
  destruct (inside2o_spec S' B' s_arc' s_sib' mask' cands')
    as (_ & Hrec' & Hdiag').
  set (t := inside S B s_arc s_sib mask cands) in *.
  set (t' := inside S' B' s_arc' s_sib' mask' cands') in *.
  assert (H1 : ∀ w i, 1 ≤ w → i + w ≤ L →
            rec (inside_arc s_arc mask cands) (inside_sib s_sib)
                (mask_lens S mask) (C S B t) (I S B t) (Sb S B t) w i b).
  { intros w i Hw Hi. apply Hrec; [done|lia|done]. }
  assert (H1' : ∀ w i, 1 ≤ w → i + w ≤ L →
            rec (inside_arc s_arc' mask' cands') (inside_sib s_sib')
                (mask_lens S' mask') (C S' B' t') (I S' B' t') (Sb S' B' t')
                w i b').
  { intros w i Hw Hi. apply Hrec'; [done|lia|done]. }
  assert (H2 : ∀ u, u ≤ L → C S B t u u b = zero).
  { intros u Hu. apply Hdiag; [lia|done]. }
  assert (H2' : ∀ u, u ≤ L → C S' B' t' u u b' = zero).
  { intros u Hu. apply Hdiag'; [lia|done]. }
  assert (Hsb' : ∀ u v z, u ≤ L → v ≤ L → z ≤ L →
            R (inside_sib s_sib u v z b) (inside_sib s_sib' u v z b')).
  { intros u v z Hu Hv Hz'. unfold inside_sib. by apply Hsb. }
  destruct (rec2o_related R Hn Hz Ha Hl _ _ _ _ _ _ _ _ _ _ _ _ b b' L
              Hlens Hsa Hsb' H1 H1' H2 H2' x y Hx Hy) as [HC HIS].
  split; [done|]. destruct (decide (x = y)) as [->|Hne]; [|by apply HIS].
  subst t t'.
  destruct (inside2o_diag S B s_arc s_sib mask cands y b) as [-> ->];
    [lia|done|].
  destruct (inside2o_diag S' B' s_arc' s_sib' mask' cands' y b') as [-> ->];
    [lia|done|].
  done.
Qed.

End CRF2oDependencyMore.

Module CRF2oDependencyFinite.
Import Tensor Table ExtReal.
Import CRF2oDependency CRF2oDependencyFacts TableFacts ExtRealFacts
       ForwardFacts CRF2oDependencyMore.
Import CRFDependencyFacts(fmap_seq_ext, fmap_seq_shift, width).

Lemma inside2o_local {A : Type} `{LogDomain A}
    S B (s_arc : arc_scores A) (s_sib : sib_scores A) mask cands
    S' B' (s_arc' : arc_scores A) (s_sib' : sib_scores A) mask' cands'
    b b' L :
  b < B → b' < B' → L < S → L < S' →
  mask_lens S mask b = mask_lens S' mask' b' →
  (∀ x y, x ≤ L → y ≤ L → x ≠ y →
     inside_arc s_arc mask cands x y b = inside_arc s_arc' mask' cands' x y b') →
  (∀ x y z, x ≤ L → y ≤ L → z ≤ L → s_sib b x y z = s_sib' b' x y z) →
  ∀ x y, x ≤ L → y ≤ L →
    tget S S B (s_c (inside S B s_arc s_sib mask cands)) x y b
    = tget S' S' B' (s_c (inside S' B' s_arc' s_sib' mask' cands')) x y b'
    ∧ tget S S B (s_i (inside S B s_arc s_sib mask cands)) x y b
      = tget S' S' B' (s_i (inside S' B' s_arc' s_sib' mask' cands')) x y b'
    ∧ tget S S B (s_s (inside S B s_arc s_sib mask cands)) x y b
      = tget S' S' B' (s_s (inside S' B' s_arc' s_sib' mask' cands')) x y b'.
Proof.
  intros Hb Hb' HL HL' Hlens Hsa Hsb.
  apply (inside2o_related eq); try done.
  - by intros ???? -> ->.
  - by intros l l' _ ->%list_eq_Forall2.
Qed.

Lemma inside2o_ok S B (s_arc : arc_scores ext) (s_sib : sib_scores ext)
    mask cands :
  (∀ b x y, b < B → x < S → y < S → finite_or_ninf (s_arc b x y) = true) →
  (∀ b x y z, b < B → x < S → y < S → z < S →
     finite_or_ninf (s_sib b x y z) = true) →
  ∀ x y b, x < S → y < S → b < B →
    finite_or_ninf (tget S S B (s_c (inside S B s_arc s_sib mask cands)) x y b)
    = true
    ∧ finite_or_ninf
        (tget S S B (s_i (inside S B s_arc s_sib mask cands)) x y b) = true
    ∧ finite_or_ninf
        (tget S S B (s_s (inside S B s_arc s_sib mask cands)) x y b) = true.
Proof.
  intros Hsa Hsb x y b Hx Hy Hb.
  apply (inside2o_related (λ a _ : ext, finite_or_ninf a = true)
           S B s_arc s_sib mask cands S B s_arc s_sib mask cands b b (S - 1));
    try done; try lia.
  - intros ???? Ha Hc. by apply eadd_ok.
  - intros l l' _ Hl. apply elogsumexp_ok.
    induction Hl; by constructor.
  - intros u v Hu Hv _. unfold inside_arc. destruct cands as [cands|].
    + unfold restrict. case_match; [|done]. apply Hsa; lia.
    + apply Hsa; lia.
  - intros u v z Hu Hv Hz. apply Hsb; lia.
Qed.

Section FiniteScores.
Variables (S B : nat) (s_arc : arc_scores ext) (s_sib : sib_scores ext)
          (mask : nat → nat → bool) (b : nat).
Hypothesis Hb : b < B.
Hypothesis Hfa :
  ∀ b x y, b < B → x < S → y < S → is_finite (s_arc b x y) = true.
Hypothesis Hfs :
  ∀ b x y z, b < B → x < S → y < S → z < S →
    is_finite (s_sib b x y z) = true.

Let t := inside S B s_arc s_sib mask None.

Lemma inside2o_all_ok x y :
  x < S → y < S →
  finite_or_ninf (tget S S B (s_c t) x y b) = true
  ∧ finite_or_ninf (tget S S B (s_i t) x y b) = true
  ∧ finite_or_ninf (tget S S B (s_s t) x y b) = true.
Proof.
  intros Hx Hy. apply inside2o_ok; try done.
  - intros. apply is_finite_ok. by apply Hfa.
  - intros. apply is_finite_ok. by apply Hfs.
Qed.

Lemma Exists_fmap_seq (f : nat → ext) start n c :
  start ≤ c < start + n → is_finite (f c) = true →
  Exists (λ a, is_finite a = true) (f <$> seq start n).
Proof.
  intros Hc Hf. apply list.Exists_exists. exists (f c). split; [|done].
  apply list_elem_of_fmap_2, elem_of_seq. lia.
Qed.

Lemma Forall_fmap_seq (P : ext → Prop) (f : nat → ext) start n :
  (∀ c, start ≤ c < start + n → P (f c)) →
  Forall P (f <$> seq start n).
Proof.
  intros Hf. apply Forall_fmap, list.Forall_forall.
  intros c Hc%elem_of_seq. by apply Hf.
Qed.

Lemma inside2o_finite_width n :
  ∀ x y, x < S → y < S → width x y ≤ n →
    (x ≠ y → is_finite (tget S S B (s_i t) x y b) = true
             ∧ is_finite (tget S S B (s_s t) x y b) = true)
    ∧ (y ≤ x ∨ 1 ≤ x → is_finite (tget S S B (s_c t) x y b) = true).
Proof.
  destruct (inside2o_spec S B s_arc s_sib mask None) as (_ & Hrec & Hdiag).
  fold t in Hrec, Hdiag.
  assert (Hd : ∀ u, u < S → is_finite (tget S S B (s_c t) u u b) = true).
  { intros u Hu. specialize (Hdiag u b Hu Hb). unfold C in Hdiag.
    by rewrite Hdiag. }
  unfold width.
  induction n as [|n IH]; intros x y Hx Hy Hxy.
  { assert (x = y) as -> by lia. split; [done|]. intros _. by apply Hd. }
  destruct (decide ((x - y) + (y - x) ≤ n)) as [|Hn]; [by apply IH|].
  set (w := Datatypes.S n).
  assert (HC : ∀ u v, u < S → v < S → (u - v) + (v - u) ≤ n →
            v ≤ u ∨ 1 ≤ u → is_finite (tget S S B (s_c t) u v b) = true)
    by (intros; by apply IH).
  assert (Hspan : ∀ i, i + w < S →
    (is_finite (tget S S B (s_i t) (i + w) i b) = true
     ∧ is_finite (tget S S B (s_i t) i (i + w) b) = true)
    ∧ (is_finite (tget S S B (s_s t) (i + w) i b) = true
       ∧ is_finite (tget S S B (s_s t) i (i + w) b) = true)
    ∧ is_finite (tget S S B (s_c t) (i + w) i b) = true
    ∧ (1 ≤ i → is_finite (tget S S B (s_c t) i (i + w) b) = true)).
  { intros i Hi.
    destruct (Hrec w i b) as (E1 & E2 & E3 & E4 & E5 & E6); [lia..|].
    unfold C, I, Sb, inside_arc, inside_sib in E1, E2, E3, E4, E5, E6.
    assert (Hlr : is_finite
              (lse ((λ c, add (tget S S B (s_c t) i (i + c) b)
                              (tget S S B (s_c t) (i + w) (i + c + 1) b))
                      <$> seq 0 w)) = true).
    { apply elogsumexp_finite.
      - apply Forall_fmap_seq. intros c Hc.
        apply eadd_ok; apply inside2o_all_ok; lia.
      - apply (Exists_fmap_seq _ 0 w 0); [lia|].
        apply eadd_finite; [rewrite Nat.add_0_r; apply Hd; lia|].
        apply HC; lia. }
    assert (HI1 : is_finite (tget S S B (s_i t) (i + w) i b) = true).
    { rewrite E1. apply eadd_finite; [|apply Hfa; lia].
      apply elogsumexp_finite.
      - apply Forall_app. split.
        + apply Forall_fmap_seq. intros c Hc.
          apply eadd_ok; [apply eadd_ok|apply is_finite_ok, Hfs; lia];
            apply inside2o_all_ok; lia.
        + constructor; [|done]. destruct (decide (i = 0)); [done|].
          apply eadd_ok; apply inside2o_all_ok; lia.
      - apply Exists_app. right. left.
        destruct (decide (i = 0)); [done|].
        apply eadd_finite; [apply Hd; lia|apply HC; lia]. }
    assert (HI2 : is_finite (tget S S B (s_i t) i (i + w) b) = true).
    { rewrite E2. apply eadd_finite; [|apply Hfa; lia].
      apply elogsumexp_finite.
      - constructor.
        + apply eadd_ok; apply inside2o_all_ok; lia.
        + apply Forall_fmap_seq. intros c Hc.
          destruct (decide (i = 0)); [done|].
          apply eadd_ok; [apply eadd_ok|apply is_finite_ok, Hfs; lia];
            apply inside2o_all_ok; lia.
      - left. apply eadd_finite; [apply Hd; lia|apply HC; lia]. }
    split_and!; [done|done|by rewrite E3|by rewrite E4|..].
    - rewrite E5. apply elogsumexp_finite.
      + apply Forall_fmap_seq. intros c Hc.
        apply eadd_ok; apply inside2o_all_ok; lia.
      + apply (Exists_fmap_seq _ 0 w 0); [lia|]. rewrite !Nat.add_0_r.
        apply eadd_finite; [apply Hd; lia|done].
    - intros Hi1. rewrite E6. rewrite decide_False by lia.
      apply elogsumexp_finite.
      + apply Forall_fmap_seq. intros c Hc.
        apply eadd_ok; apply inside2o_all_ok; lia.
      + apply (Exists_fmap_seq _ 0 w n); [lia|].
        replace (i + n + 1) with (i + w) by lia.
        apply eadd_finite; [done|apply Hd; lia]. }
  destruct (decide (x < y)) as [Hlt|Hge].
  - replace y with (x + w) in * by lia.
    destruct (Hspan x) as ((_ & HI2) & (_ & HS2) & _ & HC2); [lia|].
    split; [done|]. intros [?|?]; [lia|by apply HC2].
  - replace x with (y + w) in * by lia.
    destruct (Hspan y) as ((HI1 & _) & (HS1 & _) & HC1 & _); [lia|]. done.
Qed.

(** With finite scores, the entry [s_c[0, length]] of the sentence is
    finite. *)
Lemma inside2o_root_finite :
  mask_lens S mask b < S →
  is_finite (tget S S B (s_c t) 0 (mask_lens S mask b) b) = true.
Proof.
  intros HL.
  destruct (inside2o_spec S B s_arc s_sib mask None) as (_ & Hrec & Hdiag).
  fold t in Hrec, Hdiag.
  set (L := mask_lens S mask b) in *.
  destruct (decide (L = 0)) as [->|HL0].
  { specialize (Hdiag 0 b). unfold C in Hdiag. rewrite Hdiag by (done || lia).
    done. }
  destruct (Hrec L 0 b) as (_ & _ & _ & _ & _ & E6); [lia..|].
  unfold C, I in E6. cbn [Nat.add] in E6. rewrite E6.
  rewrite decide_False by (intros [_ Hne]; by apply Hne).
  apply elogsumexp_finite.
  - apply Forall_fmap_seq. intros c Hc.
    apply eadd_ok; apply inside2o_all_ok; lia.
  - apply (Exists_fmap_seq _ 0 L (L - 1)); [lia|].
    replace (L - 1 + 1) with L by lia.
    apply eadd_finite.
    + apply (inside2o_finite_width L 0 L); unfold width; lia.
    + apply (inside2o_finite_width 0 L L); unfold width; lia.
Qed.

End FiniteScores.
End CRF2oDependencyFinite.

(* ===================================================================== *)
(** * Stripes by row-major position *)
(* ===================================================================== *)

Module StripeFlatFacts.
Import Tensor TensorFacts StripeFlat.

Section Flat.
Context {A : Type}.

(** The address of an element of a contiguous tensor. *)
Lemma addr_contiguous (x : tensor) d0 d1 rest i j k :
  tsize x = d0 :: d1 :: rest → is_contiguous x = true →
  i < d0 → j < d1 → in_range k rest = true →
  addr x (i :: j :: k)
  = toffset x + (i * d1 + j) * numel rest + dot k (row_major rest).
Proof.
  intros Hsz Hc Hi Hj Hk. unfold addr.
  unfold is_contiguous in Hc. rewrite Hsz in Hc.
  pose proof (in_range_numel _ _ Hk) as Hpos.
  apply orb_true_iff in Hc as [Hc | Hc].
  { apply Nat.eqb_eq in Hc. simpl in Hc.
    assert (0 < d0 * (d1 * numel rest)) by (repeat apply Nat.mul_pos_pos; lia).
    lia. }
  rewrite (dot_strides_ok (d0 :: d1 :: rest) (tstride x) (i :: j :: k) Hc).
  - simpl. ring.
  - simpl. rewrite Hk.
    rewrite (proj2 (Nat.ltb_lt _ _) Hi), (proj2 (Nat.ltb_lt _ _) Hj). done.
Qed.

Lemma stripe_view_addr (x : tensor) d0 d1 rest offset dim r c k :
  tsize x = d0 :: d1 :: rest → is_contiguous x = true → 0 < d0 → 0 < d1 →
  in_range k rest = true →
  (offset.1 * d1 + offset.2) * numel rest
    + dot (r :: c :: k)
        ((d1 + 1) * numel rest
           :: (if dim =? 1 then 1 else d1) * numel rest
           :: drop 2 (tstride x))
  = stripe_flat d1 offset dim r c * numel rest + dot k (row_major rest).
Proof.
  intros Hsz Hc Hd0 Hd1 Hk.
  unfold is_contiguous in Hc. rewrite Hsz in Hc.
  pose proof (in_range_numel _ _ Hk) as Hpos.
  apply orb_true_iff in Hc as [Hc | Hc].
  { apply Nat.eqb_eq in Hc. simpl in Hc.
    assert (0 < d0 * (d1 * numel rest)) by (repeat apply Nat.mul_pos_pos; lia).
    lia. }
  destruct (tstride x) as [|s0 [|s1 srest]]; simpl in Hc; try done.
  { by rewrite andb_false_r in Hc. }
  rewrite !andb_true_iff in Hc. destruct Hc as (_ & _ & Hrest).
  simpl. change (drop 0 srest) with srest.
  rewrite (dot_strides_ok _ _ _ Hrest Hk).
  unfold stripe_flat, stripe_src. destruct (dim =? 1); simpl; ring.
Qed.

(** X17. [stripe] checks the storage, not the rows: on a contiguous tensor at
    the start of its storage it succeeds as soon as every position, counted
    in row-major order, lies in the table, and a column index past the end
    of a row reads on in the following rows. *)
Theorem stripe_wraps_rows (h : heap A) x d0 d1 rest n w offset dim :
  valid h x → is_contiguous x = true → toffset x = 0 →
  tsize x = d0 :: d1 :: rest → 0 < d0 → 0 < d1 →
  (∀ r c, r < n → c < w → stripe_flat d1 offset dim r c < d0 * d1) →
  ∃ v, stripe h x n w offset dim = Some (h, v)
    ∧ tsize v = n :: w :: rest
    ∧ ∀ r c k, r < n → c < w → in_range k rest = true →
        read h v (r :: c :: k)
        = read h x (stripe_flat d1 offset dim r c / d1
                      :: stripe_flat d1 offset dim r c `mod` d1 :: k).
Proof.
  intros Hv Hc Hoff Hsz Hd0 Hd1 Hb.
  unfold stripe, contiguous. rewrite Hc. simpl. rewrite Hsz.
  assert ((d0 =? 0) || (d1 =? 0) = false) as ->.
  { apply orb_false_iff. split; apply Nat.eqb_neq; lia. }
  pose proof Hv as (Hlen & st & Hst & Hin).
  unfold as_strided. rewrite Hst. simpl.
  set (stride := (d1 + 1) * numel rest
                   :: (if dim =? 1 then 1 else d1) * numel rest
                   :: drop 2 (tstride x)).
  set (off := (offset.1 * d1 + offset.2) * numel rest).
  assert (Hq : ∀ r c, r < n → c < w →
            stripe_flat d1 offset dim r c / d1 < d0
            ∧ stripe_flat d1 offset dim r c `mod` d1 < d1).
  { intros r c Hr Hcw. split.
    - apply Nat.Div0.div_lt_upper_bound. specialize (Hb r c Hr Hcw). lia.
    - apply Nat.mod_upper_bound. lia. }
  assert (Haddr : ∀ r c k, r < n → c < w → in_range k rest = true →
            off + dot (r :: c :: k) stride
            = addr x (stripe_flat d1 offset dim r c / d1
                        :: stripe_flat d1 offset dim r c `mod` d1 :: k)).
  { intros r c k Hr Hcw Hk. destruct (Hq r c Hr Hcw) as [Hi Hj].
    rewrite (addr_contiguous x d0 d1 rest) by done.
    unfold off, stride. rewrite (stripe_view_addr x d0) by done.
    rewrite Hoff.
    pose proof (Nat.div_mod_eq (stripe_flat d1 offset dim r c) d1) as E.
    rewrite (Nat.mul_comm d1) in E. rewrite <- E. lia. }
  assert (Hrange : ∀ r c k, r < n → c < w → in_range k rest = true →
            in_range (stripe_flat d1 offset dim r c / d1
                        :: stripe_flat d1 offset dim r c `mod` d1 :: k)
                     (tsize x) = true).
  { intros r c k Hr Hcw Hk. destruct (Hq r c Hr Hcw) as [Hi Hj].
    rewrite Hsz. apply in_range_cons. split; [done|].
    apply in_range_cons. by split. }
  rewrite decide_True.
  { eexists. split; [done|]. split; [done|].
    intros r c k Hr Hcw Hk. unfold read. cbn [tsize tloc].
    rewrite Hrange by done.
    assert (in_range (r :: c :: k) (n :: w :: rest) = true) as ->.
    { apply in_range_cons. split; [done|]. apply in_range_cons. by split. }
    unfold addr at 1. cbn [toffset tstride].
    fold off stride. by rewrite Haddr. }
  unfold storage_need.
  destruct (numel (n :: w :: rest) =? 0) eqn:Hz; [lia|].
  apply Nat.eqb_neq in Hz. simpl in Hz.
  assert (0 < n ∧ 0 < w ∧ 0 < numel rest) as (Hn & Hw & Hrest) by nia.
  pose proof (in_range_pred rest Hrest) as Hk.
  change (pred <$> n :: w :: rest)
    with (pred n :: pred w :: (pred <$> rest)).
  rewrite (Haddr (pred n) (pred w) (pred <$> rest)) by (done || lia).
  specialize (Hin _ (Hrange (pred n) (pred w) (pred <$> rest)
                        ltac:(lia) ltac:(lia) Hk)).
  lia.
Qed.

(** X18. On a tensor that fills its storage, [stripe] raises as soon as its
    last position lies past the table. *)
Theorem stripe_raises_past_table (h : heap A) x st d0 d1 rest n w offset dim :
  h !! tloc x = Some st → length st = d0 * d1 * numel rest →
  tstride x = row_major (tsize x) →
  tsize x = d0 :: d1 :: rest → 0 < n → 0 < w → 0 < numel rest →
  d0 * d1 ≤ stripe_flat d1 offset dim (n - 1) (w - 1) →
  stripe h x n w offset dim = None.
Proof.
  intros Hst Hlen Hstr Hsz Hn Hw Hrest Hq.
  assert (Hc : is_contiguous x = true).
  { unfold is_contiguous. rewrite Hstr, strides_ok_row_major.
    apply orb_true_r. }
  unfold stripe, contiguous. rewrite Hc. simpl. rewrite Hsz.
  destruct ((d0 =? 0) || (d1 =? 0)) eqn:Hd; [done|].
  apply orb_false_iff in Hd as [Hd0%Nat.eqb_neq Hd1%Nat.eqb_neq].
  unfold as_strided. rewrite Hst. simpl.
  rewrite decide_False; [done|].
  unfold storage_need.
  assert ((numel (n :: w :: rest) =? 0) = false) as ->.
  { apply Nat.eqb_neq. simpl.
    assert (0 < n * (w * numel rest)) by (repeat apply Nat.mul_pos_pos; lia).
    lia. }
  pose proof (in_range_pred rest Hrest) as Hk.
  change (pred <$> n :: w :: rest)
    with (pred n :: pred w :: (pred <$> rest)).
  rewrite (stripe_view_addr x d0 d1 rest offset dim (pred n) (pred w)
             (pred <$> rest) Hsz Hc) by (done || lia).
  replace (pred n) with (n - 1) by lia. replace (pred w) with (w - 1) by lia.
  rewrite Hlen. nia.
Qed.

End Flat.
End StripeFlatFacts.

(* ===================================================================== *)
(** * Properties of [pad] *)
(* ===================================================================== *)

Module PadFacts.
Import Tensor.
Import Tensor TensorFacts Pad.

Lemma indices_spec size idx :
  idx ∈ indices size ↔ in_range idx size = true.
Proof.
  revert idx. induction size as [|d size IH]; intros idx; simpl.
  - rewrite list_elem_of_singleton. by destruct idx.
  - rewrite list_elem_of_bind. split.
    + intros (i & Hidx & Hi%elem_of_seq).
      apply list_elem_of_fmap in Hidx as (idx' & -> & Hidx'%IH).
      simpl. rewrite Hidx'. rewrite (proj2 (Nat.ltb_lt _ _)) by lia. done.
    + destruct idx as [|i idx]; [done|]. simpl.
      intros [Hi%Nat.ltb_lt Hidx]%andb_true_iff.
      exists i. split; [|apply elem_of_seq; lia].
      apply list_elem_of_fmap. exists idx. split; [done|]. by apply IH.
Qed.

(** An index of a smaller size is an index of a larger one. *)
Lemma in_range_mono idx size size' :
  Forall2 le size size' → in_range idx size = true →
  in_range idx size' = true.
Proof.
  intros Hle. revert idx.
  induction Hle as [|d d' size size' Hd _ IH]; intros [|i idx]; simpl;
    try done.
  intros [Hi%Nat.ltb_lt Hidx]%andb_true_iff.
  rewrite IH by done. rewrite (proj2 (Nat.ltb_lt _ _)) by lia. done.
Qed.

(** Row-major positions determine the index. *)
Lemma dot_row_major_inj size idx idx' :
  in_range idx size = true → in_range idx' size = true →
  dot idx (row_major size) = dot idx' (row_major size) → idx = idx'.
Proof.
  revert idx idx'.
  induction size as [|d size IH]; intros [|i idx] [|i' idx']; simpl;
    try done.
  intros [Hi%Nat.ltb_lt Hidx]%andb_true_iff
         [Hi'%Nat.ltb_lt Hidx']%andb_true_iff E.
  pose proof (dot_row_major_lt idx size Hidx) as Hlt.
  pose proof (dot_row_major_lt idx' size Hidx') as Hlt'.
  assert (i = i' ∧ dot idx (row_major size) = dot idx' (row_major size))
    as [-> E'].
  { apply (Nat.div_mod_unique (numel size)); lia. }
  f_equal. by apply IH.
Qed.


Section Assign.
Context {A : Type}.
Implicit Types (t : ndarray A) (out : list A).

Lemma get_is_Some t idx :
  well_formed t → in_range idx (shape t) = true → is_Some (get t idx).
Proof.
  intros Hwf Hr. unfold get. rewrite Hr. apply lookup_lt_is_Some_2.
  rewrite Hwf. by apply dot_row_major_lt.
Qed.

(** The position of element [idx] of block [i] of the result. *)
Definition cell (dims : list nat) (i : nat) (idx : list nat) : nat :=
  i * numel dims + dot idx (row_major dims).

Lemma cell_lt dims n i idx :
  i < n → in_range idx dims = true → cell dims i idx < n * numel dims.
Proof.
  intros Hi Hr. pose proof (dot_row_major_lt idx dims Hr). unfold cell. nia.
Qed.

Lemma cell_inj dims i idx i' idx' :
  in_range idx dims = true → in_range idx' dims = true →
  cell dims i idx = cell dims i' idx' → i = i' ∧ idx = idx'.
Proof.
  intros Hr Hr' E. unfold cell in E.
  pose proof (dot_row_major_lt idx dims Hr) as Hlt.
  pose proof (dot_row_major_lt idx' dims Hr') as Hlt'.
  assert (i = i' ∧ dot idx (row_major dims) = dot idx' (row_major dims))
    as [-> E'].
  { apply (Nat.div_mod_unique (numel dims)); lia. }
  split; [done|]. by apply (dot_row_major_inj dims).
Qed.

Section Copy.
Variables (dims : list nat) (i : nat) (t : ndarray A).
Hypothesis Hle : Forall2 le (shape t) dims.
Hypothesis Hwf : well_formed t.

Let v := mkTensor 0 (i * numel dims) (shape t) (row_major dims).
Let copy := λ (acc : option (list A)) (idx : list nat),
  out ← acc; x ← get t idx; h ← write [out] v idx x; h !! 0.

Lemma copy_step out idx :
  in_range idx (shape t) = true → (i + 1) * numel dims ≤ length out →
  ∃ x, get t idx = Some x
       ∧ copy (Some out) idx = Some (<[cell dims i idx := x]> out).
Proof.
  intros Hr Hlen. destruct (get_is_Some t idx Hwf Hr) as [x Hx].
  exists x. split; [done|]. unfold copy. cbn [mbind option_bind].
  rewrite Hx. cbn [mbind option_bind].
  assert (Ha : addr v idx = cell dims i idx) by done.
  unfold write. rewrite Ha. unfold v. cbn [tsize tloc].
  rewrite Hr. cbn [lookup list_lookup mbind option_bind].
  rewrite decide_True; [done|].
  pose proof (cell_lt dims (i + 1) i idx ltac:(lia)
                (in_range_mono _ _ _ Hle Hr)). lia.
Qed.

Lemma copy_fold l out :
  (∀ idx, idx ∈ l → in_range idx (shape t) = true) →
  (i + 1) * numel dims ≤ length out →
  ∃ out', foldl copy (Some out) l = Some out'
    ∧ length out' = length out
    ∧ (∀ idx, idx ∈ l → out' !! cell dims i idx = get t idx)
    ∧ (∀ a, (∀ idx, idx ∈ l → a ≠ cell dims i idx) → out' !! a = out !! a).
Proof.
  induction l as [|idx l IH] using rev_ind; intros Hl Hlen.
  { exists out. split_and!; [done|done| |done]. intros idx []%elem_of_nil. }
  destruct IH as (out1 & Hf & Hlen1 & Hnew & Hold); [|done|].
  { intros idx' Hidx'. apply Hl, elem_of_app. by left. }
  rewrite foldl_app, Hf. cbn [foldl].
  assert (Hr : in_range idx (shape t) = true).
  { apply Hl, elem_of_app. right. by apply list_elem_of_singleton. }
  destruct (copy_step out1 idx Hr) as (x & Hx & ->); [lia|].
  eexists. split; [done|].
  assert (Hc : cell dims i idx < length out1).
  { pose proof (cell_lt dims (i + 1) i idx ltac:(lia)
                  (in_range_mono _ _ _ Hle Hr)). lia. }
  split_and!.
  - by rewrite length_insert.
  - intros idx' [Hidx'|Hidx'%list_elem_of_singleton]%elem_of_app.
    + destruct (decide (cell dims i idx' = cell dims i idx)) as [E|E].
      * apply cell_inj in E as [_ ->].
        -- by rewrite list_lookup_insert_eq.
        -- apply (in_range_mono _ _ _ Hle), Hl, elem_of_app. by left.
        -- by apply (in_range_mono _ _ _ Hle).
      * rewrite list_lookup_insert_ne by done. by apply Hnew.
    + subst idx'. by rewrite list_lookup_insert_eq.
  - intros a Ha. rewrite list_lookup_insert_ne.
    + apply Hold. intros idx' Hidx'. apply Ha, elem_of_app. by left.
    + intros E. apply (Ha idx); [|done].
      apply elem_of_app. right. by apply list_elem_of_singleton.
Qed.

(** One tensor copied into its block: its elements are written, every
    other element is kept. *)
Lemma assign_spec out :
  shape t ≠ [] → (i + 1) * numel dims ≤ length out →
  ∃ out', assign dims out i t = Some out'
    ∧ length out' = length out
    ∧ ∀ j idx, in_range idx dims = true →
        out' !! cell dims j idx
        = if decide (j = i ∧ in_range idx (shape t) = true)
          then get t idx else out !! cell dims j idx.
Proof.
  intros Hne Hlen. unfold assign.
  assert (Hnd : length (shape t) = length dims)
    by (by eapply Forall2_length).
  assert (Hc : (length (shape t) =? 0)
               || negb (length (shape t) =? length dims) = false).
  { rewrite Hnd, Nat.eqb_refl. rewrite <- Hnd.
    destruct (shape t); [done|]. done. }
  rewrite Hc.
  destruct (copy_fold (indices (shape t)) out) as (out' & Hf & Hl & Hnew & Hold);
    [by intros idx ?%indices_spec|done|].
  exists out'. split; [done|]. split; [done|].
  intros j idx Hr. case_decide as Hd.
  - destruct Hd as [-> Hrt]. by apply Hnew, indices_spec.
  - apply Hold. intros idx' Hidx'%indices_spec E.
    apply cell_inj in E as [-> ->]; [|done|by apply (in_range_mono _ _ _ Hle)].
    by apply Hd.
Qed.

End Copy.
End Assign.
End PadFacts.

Module PadSpec.
Import Tensor.
Import Tensor TensorFacts Pad PadFacts.

Section Spec.
Context {A : Type}.
Implicit Types (t : ndarray A) (out : list A).

Lemma foldl_max_spec l s :
  s ≤ foldl Nat.max s l
  ∧ Forall (λ x, x ≤ foldl Nat.max s l) l
  ∧ (foldl Nat.max s l = s ∨ foldl Nat.max s l ∈ l).
Proof.
  revert s. induction l as [|x l IH]; intros s; simpl.
  { split_and!; [done|done|by left]. }
  destruct (IH (s `max` x)) as (H1 & H2 & H3).
  split_and!; [lia| |].
  - constructor; [lia|done].
  - destruct H3 as [H3|H3]; [|right; by right].
    destruct (Nat.max_spec s x) as [[_ E]|[_ E]].
    + right. rewrite H3, E. by left.
    + left. by rewrite H3, E.
Qed.

Lemma max_size_spec (tensors : list (ndarray A)) k :
  tensors ≠ [] → (∀ t, t ∈ tensors → k < length (shape t)) →
  ∃ d, max_size tensors k = Some d ∧ is_max_size tensors k d.
Proof.
  intros Hne Hk. unfold max_size.
  assert (Hm : mapM (λ t, shape t !! k) tensors
               = Some ((λ t, default 0 (shape t !! k)) <$> tensors)).
  { apply ForwardFacts.mapM_Some_fmap, list.Forall_forall.
    intros t Ht. destruct (lookup_lt_is_Some_2 (shape t) k (Hk t Ht)) as [s Hs].
    by rewrite Hs. }
  rewrite Hm. cbn [mbind option_bind].
  destruct tensors as [|t0 ts]; [done|]. cbn [fmap list_fmap].
  set (s0 := default 0 (shape t0 !! k)).
  set (ss := (λ t, default 0 (shape t !! k)) <$> ts).
  destruct (foldl_max_spec ss s0) as (H1 & H2 & H3).
  eexists. split; [done|]. split.
  - intros t Ht.
    destruct (lookup_lt_is_Some_2 (shape t) k (Hk t Ht)) as [s Hs].
    exists s. split; [done|].
    apply elem_of_cons in Ht as [->|Ht].
    + assert (s0 = s) by (unfold s0; by rewrite Hs). lia.
    + rewrite list.Forall_forall in H2.
      specialize (H2 s). apply H2. unfold ss.
      apply list_elem_of_fmap. exists t. by rewrite Hs.
  - destruct H3 as [H3|H3].
    + exists t0. split; [by left|]. rewrite H3. unfold s0.
      destruct (lookup_lt_is_Some_2 (shape t0) k (Hk t0 ltac:(by left)))
        as [s Hs]. by rewrite Hs.
    + unfold ss in H3 at 2. apply list_elem_of_fmap in H3 as (t & E & Ht).
      exists t. split; [by right|]. rewrite E.
      destruct (lookup_lt_is_Some_2 (shape t) k (Hk t ltac:(by right)))
        as [s Hs]. by rewrite Hs.
Qed.

Section Fold.
Variables (dims : list nat) (n : nat).

Let step := λ (acc : option (list A)) (it : nat * ndarray A),
  out ← acc; assign dims out it.1 it.2.

Lemma pad_fold l out0 :
  (∀ t, t ∈ l → Forall2 le (shape t) dims ∧ well_formed t ∧ shape t ≠ []) →
  length l ≤ n → length out0 = n * numel dims →
  ∃ out, foldl step (Some out0) (imap pair l) = Some out
    ∧ length out = length out0
    ∧ ∀ j idx, in_range idx dims = true →
        out !! cell dims j idx
        = match l !! j with
          | Some t => if in_range idx (shape t) then get t idx
                      else out0 !! cell dims j idx
          | None => out0 !! cell dims j idx
          end.
Proof.
  induction l as [|t l IH] using rev_ind; intros Hl Hn Hlen.
  { exists out0. by split_and!. }
  rewrite length_app in Hn. simpl in Hn.
  destruct IH as (out1 & Hf & Hlen1 & Hc); [|lia|done|].
  { intros t' Ht'. apply Hl, elem_of_app. by left. }
  rewrite imap_app, foldl_app, Hf. cbn [imap foldl].
  destruct (Hl t) as (Hle & Hwf & Hne).
  { apply elem_of_app. right. by apply list_elem_of_singleton. }
  unfold step at 1. cbn [mbind option_bind fst snd].
  rewrite Nat.add_0_r.
  destruct (assign_spec dims (length l) t Hle Hwf out1 Hne)
    as (out & Ha & Hleno & Hco);
    [rewrite Hlen1, Hlen; apply Nat.mul_le_mono_r; lia|].
  exists out. split; [done|]. split; [congruence|].
  intros j idx Hr. rewrite (Hco j idx Hr), (Hc j idx Hr).
  destruct (decide (j = length l)) as [->|Hj].
  - rewrite list_lookup_middle by done.
    rewrite lookup_ge_None_2 by lia.
    destruct (in_range idx (shape t)) eqn:E.
    + by rewrite decide_True.
    + rewrite decide_False; [done|]. by intros [_ ?].
  - rewrite decide_False by (by intros [? _]).
    destruct (decide (j < length l)).
    + by rewrite lookup_app_l.
    + rewrite (lookup_ge_None_2 (l ++ [t]) j), (lookup_ge_None_2 l j);
        [done|..]; rewrite ?length_app; simpl; lia.
Qed.

End Fold.

(** X19. [pad] on one or more well-formed tensors with the same, positive
    number of dimensions, and a [total_length] that is not below the
    largest first dimension: the result has one block per tensor, each
    dimension as large as the largest tensor (the first one as
    [total_length] says, if given); block [i] holds tensor [i] at the
    indices of that tensor and the padding value everywhere else. *)
Theorem pad_blocks (tensors : list (ndarray A)) padding total nd :
  tensors ≠ [] → 0 < nd →
  (∀ t, t ∈ tensors → well_formed t ∧ length (shape t) = nd) →
  (∀ L t s, total = Some L → t ∈ tensors → shape t !! 0 = Some s → s ≤ L) →
  ∃ (res : ndarray A) dims,
    pad tensors padding total = Some res
    ∧ shape res = length tensors :: dims ∧ length dims = nd
    ∧ (∀ k d, dims !! k = Some d →
         if decide (k = 0 ∧ is_Some total) then total = Some d
         else is_max_size tensors k d)
    ∧ ∀ i t idx, tensors !! i = Some t → in_range idx dims = true →
        get res (i :: idx)
        = if in_range idx (shape t) then get t idx else Some padding.
Proof.
  intros Hne Hnd Hts Htot. unfold pad.
  destruct (head tensors) as [t0|] eqn:Hh; [|by destruct tensors].
  cbn [mbind option_bind].
  assert (Ht0 : t0 ∈ tensors).
  { destruct tensors; [done|]. injection Hh as ->. by left. }
  assert (Hnd0 : length (shape t0) = nd) by (by apply Hts).
  rewrite Hnd0.
  (* the maxima *)
  assert (Hmax : ∃ dims0, mapM (max_size tensors) (seq 0 nd) = Some dims0
            ∧ length dims0 = nd
            ∧ ∀ k d, dims0 !! k = Some d → is_max_size tensors k d).
  { assert (Hk : ∀ k, k < nd → ∃ d, max_size tensors k = Some d
                                    ∧ is_max_size tensors k d).
    { intros k Hk. apply max_size_spec; [done|].
      intros t Ht. destruct (Hts t Ht) as [_ ->]. done. }
    exists ((λ k, default 0 (max_size tensors k)) <$> seq 0 nd).
    split_and!.
    - apply ForwardFacts.mapM_Some_fmap, list.Forall_forall.
      intros k Hk'%elem_of_seq. destruct (Hk k) as (d & -> & _); [lia|done].
    - by rewrite length_fmap, length_seq.
    - intros k d Hd. apply list_lookup_fmap_Some in Hd as (k' & -> & Hk').
      apply lookup_seq in Hk' as [-> Hk'].
      cbn [Nat.add]. destruct (Hk k Hk') as (d & E & Hd). by rewrite E. }
  destruct Hmax as (dims0 & -> & Hlen0 & Hmax). cbn [mbind option_bind].
  (* the size after [total_length] *)
  assert (Hdims : ∃ dims,
    match total with
    | None => Some dims0
    | Some total =>
        match dims0 with
        | [] => None
        | d :: dims' => if total <? d then None else Some (total :: dims')
        end
    end = Some dims
    ∧ length dims = nd
    ∧ (∀ k d, dims !! k = Some d →
         if decide (k = 0 ∧ is_Some total) then total = Some d
         else is_max_size tensors k d)
    ∧ ∀ t, t ∈ tensors → Forall2 le (shape t) dims).
  { assert (Hle0 : ∀ t k s d, t ∈ tensors → shape t !! k = Some s →
              dims0 !! k = Some d → s ≤ d).
    { intros t k s d Ht Hs Hd. destruct (Hmax k d Hd) as [Hall _].
      destruct (Hall t Ht) as (s' & Hs' & Hle). congruence. }
    destruct total as [L|].
    - destruct dims0 as [|d0 dims']; [simpl in Hlen0; lia|].
      destruct (Hmax 0 d0 eq_refl) as [_ (tm & Htm & Hsm)].
      pose proof (Htot L tm d0 eq_refl Htm Hsm) as HL.
      rewrite (proj2 (Nat.ltb_ge _ _) HL).
      eexists. split; [done|]. split_and!; [done|..].
      + intros k d Hd. destruct k as [|k].
        * rewrite decide_True by (split; [done|by eexists]).
          simpl in Hd. congruence.
        * rewrite decide_False by (intros [? _]; lia). by apply (Hmax (S k)).
      + intros t Ht. apply Forall2_same_length_lookup. split.
        * destruct (Hts t Ht) as [_ ->]. done.
        * intros k s d Hs Hd. destruct k as [|k].
          -- simpl in Hd. injection Hd as <-. by apply (Htot L t).
          -- by apply (Hle0 t (S k)).
    - exists dims0. split; [done|]. split_and!; [done|..].
      + intros k d Hd. rewrite decide_False; [by apply Hmax|].
        intros [_ []]. done.
      + intros t Ht. apply Forall2_same_length_lookup. split.
        * destruct (Hts t Ht) as [_ ->]. done.
        * intros k s d Hs Hd. by apply (Hle0 t k). }
  destruct Hdims as (dims & -> & Hlen & Hch & Hle). cbn [mbind option_bind].
  destruct (pad_fold dims (length tensors) tensors
              (replicate (numel (length tensors :: dims)) padding))
    as (out & Hf & Hleno & Hc).
  { intros t Ht. split_and!; [by apply Hle|by apply Hts|].
    destruct (Hts t Ht) as [_ Hl]. destruct (shape t); [simpl in Hl; lia|done]. }
  { done. }
  { by rewrite length_replicate. }
  rewrite Hf. cbn [mbind option_bind].
  eexists _, dims. split; [done|]. split_and!; [done|done|done|].
  intros i t idx Hi Hr. unfold get at 1. cbn [shape elems].
  assert (Hil : i < length tensors) by (by eapply lookup_lt_Some).
  assert (in_range (i :: idx) (length tensors :: dims) = true) as ->.
  { apply in_range_cons. by split. }
  change (dot (i :: idx) (row_major (length tensors :: dims)))
    with (cell dims i idx).
  rewrite (Hc i idx Hr), Hi.
  destruct (in_range idx (shape t)); [done|].
  apply lookup_replicate_2.
  rewrite length_replicate in Hleno.
  pose proof (cell_lt dims (length tensors) i idx Hil Hr). simpl. lia.
Qed.

Lemma max_size_bound (tensors : list (ndarray A)) k d t :
  max_size tensors k = Some d → t ∈ tensors →
  ∃ s, shape t !! k = Some s ∧ s ≤ d.
Proof.
  unfold max_size. intros Hm Ht.
  destruct (mapM _ tensors) as [sizes|] eqn:Hs; [|done].
  cbn [mbind option_bind] in Hm. apply mapM_Some in Hs.
  apply list_elem_of_lookup in Ht as [i Hi].
  destruct (Forall2_lookup_l _ _ _ i t Hs Hi) as (s & Hsi & Hts).
  exists s. split; [done|].
  destruct sizes as [|s0 sizes']; [done|]. injection Hm as <-.
  destruct (foldl_max_spec sizes' s0) as (H1 & H2 & _).
  destruct i as [|i]; simpl in Hsi.
  - injection Hsi as ->. done.
  - rewrite list.Forall_forall in H2. apply H2.
    by eapply list_elem_of_lookup_2.
Qed.

Lemma pad_fold_None (dims : list nat) (l : list (nat * ndarray A)) acc i t :
  (i, t) ∈ l → (∀ out, assign dims out i t = None) →
  foldl (λ acc it, out ← acc; assign dims out it.1 it.2) acc l = None.
Proof.
  intros Hin Hnone.
  assert (HN : ∀ l', foldl (λ acc (it : nat * ndarray A),
                              out ← acc; assign dims out it.1 it.2) None l'
                     = None).
  { induction l' as [|it l' IH]; [done|]. simpl. apply IH. }
  revert acc. induction l as [|it l IH]; intros acc; [by apply elem_of_nil in Hin|].
  apply elem_of_cons in Hin as [<-|Hin]; simpl.
  - destruct acc as [out|]; simpl; [rewrite Hnone|]; apply HN.
  - by apply IH.
Qed.

(** X20. The errors of [pad]: an empty list; a [total_length] below the first
    dimension of one of the tensors; tensors that differ in their number
    of dimensions. *)
Theorem pad_raises (tensors : list (ndarray A)) padding total :
  (tensors = [] → pad tensors padding total = None)
  ∧ (∀ L t s, total = Some L → t ∈ tensors → shape t !! 0 = Some s → L < s →
       pad tensors padding total = None)
  ∧ (∀ t0 t, head tensors = Some t0 → t ∈ tensors →
       length (shape t) ≠ length (shape t0) →
       pad tensors padding total = None).
Proof.
  split_and!.
  - by intros ->.
  - intros L t s -> Ht Hs HL. unfold pad.
    destruct (head tensors) as [t0|]; [|done]. cbn [mbind option_bind].
    destruct (mapM _ (seq 0 _)) as [dims0|] eqn:Hm; [|done].
    cbn [mbind option_bind].
    destruct dims0 as [|d dims']; [done|].
    apply mapM_Some in Hm.
    destruct (length (shape t0)) as [|nd];
      [by apply Forall2_nil_cons_inv in Hm|].
    rewrite <- cons_seq in Hm. apply Forall2_cons_1 in Hm as [Hd _].
    destruct (max_size_bound tensors 0 d t Hd Ht) as (s' & Hs' & Hle).
    assert (s' = s) as -> by congruence.
    by rewrite (proj2 (Nat.ltb_lt _ _)) by lia.
  - intros t0 t Hh Ht Hne. unfold pad. rewrite Hh. cbn [mbind option_bind].
    destruct (mapM _ (seq 0 _)) as [dims0|] eqn:Hm; [|done].
    cbn [mbind option_bind].
    apply mapM_Some, Forall2_length in Hm. rewrite length_seq in Hm.
    match goal with
    | |- (?d ≫= _) = None => destruct d as [dims|] eqn:Hd; [|done]
    end.
    cbn [mbind option_bind].
    assert (Hlen : length dims = length (shape t0)).
    { destruct total as [L|].
      - destruct dims0 as [|d dims']; [done|].
        destruct (L <? d); [done|]. injection Hd as <-. simpl in *. lia.
      - injection Hd as <-. lia. }
    apply list_elem_of_lookup in Ht as [i Hi].
    rewrite (pad_fold_None dims _ _ i t); [done| |].
    + apply list_elem_of_lookup. exists i.
      by rewrite list_lookup_imap, Hi.
    + intros out. unfold assign.
      assert ((length (shape t) =? length dims) = false) as ->.
      { apply Nat.eqb_neq. lia. }
      by rewrite orb_true_r.
Qed.

End Spec.
End PadSpec.

(* ===================================================================== *)
(** * Properties of the token tests *)
(* ===================================================================== *)

Module TokensFacts.
Import Tokens.

Lemma has_number_false token :
  Forall (λ x, in_num_set x = false) token → has_number token = false.
Proof. induction 1 as [|x l Hx _ IH]; [done|]. simpl. by rewrite Hx. Qed.

Lemma has_number_true token :
  has_number token = true ↔ ∃ x, x ∈ token ∧ in_num_set x = true.
Proof.
  induction token as [|x l IH]; simpl.
  - split; [done|]. by intros (x & []%elem_of_nil & _).
  - destruct (in_num_set x) eqn:Hx.
    + split; [|done]. intros _. exists x. split; [by left|done].
    + rewrite IH. split.
      * intros (y & Hy & Hny). exists y. split; [by right|done].
      * intros (y & [->|Hy]%elem_of_cons & Hny); [congruence|].
        by exists y.
Qed.

(** The outcome of [all]: it raises exactly when an item raises before
    any item is false, and is false exactly when an item is false before
    any item raises. *)
Lemma py_all_spec {X : Type} (f : X → option bool) (l : list X) :
  match py_all f l with
  | Some true => Forall (λ x, f x = Some true) l
  | Some false =>
      ∃ l1 x l2, l = l1 ++ x :: l2 ∧ Forall (λ y, f y = Some true) l1
                 ∧ f x = Some false
  | None =>
      ∃ l1 x l2, l = l1 ++ x :: l2 ∧ Forall (λ y, f y = Some true) l1
                 ∧ f x = None
  end.
Proof.
  induction l as [|x l IH]; simpl; [done|].
  destruct (f x) as [[|]|] eqn:Hx.
  - destruct (py_all f l) as [[|]|].
    + by constructor.
    + destruct IH as (l1 & y & l2 & -> & H1 & Hy).
      exists (x :: l1), y, l2. split_and!; [done|by constructor|done].
    + destruct IH as (l1 & y & l2 & -> & H1 & Hy).
      exists (x :: l1), y, l2. split_and!; [done|by constructor|done].
  - by exists [], x, l.
  - by exists [], x, l.
Qed.

Lemma py_all_None {X : Type} (f : X → option bool) (l : list X) :
  py_all f l = None
  ↔ ∃ l1 x l2, l = l1 ++ x :: l2 ∧ Forall (λ y, f y = Some true) l1
               ∧ f x = None.
Proof.
  split.
  - intros E. pose proof (py_all_spec f l) as Hs. by rewrite E in Hs.
  - intros (l1 & x & l2 & -> & H1 & Hx).
    induction H1 as [|y l1 Hy _ IH]; simpl; [by rewrite Hx|by rewrite Hy].
Qed.

Lemma py_all_total {X : Type} (f : X → bool) (l : list X) :
  py_all (λ x, Some (f x)) l = Some (forallb f l).
Proof.
  induction l as [|x l IH]; simpl; [done|]. by destruct (f x).
Qed.

End TokensFacts.

(* ===================================================================== *)
(** * The order of the extended reals *)
(* ===================================================================== *)

Module ExtOrderFacts.
Import ExtReal ExtOrder ExtRealFacts.

Lemma ext_le_refl a : finite_or_ninf a = true → ext_le a a.
Proof. destruct a; simpl; try done; intros _; lra. Qed.

Lemma ext_le_ninf a : finite_or_ninf a = true → ext_le NInf a.
Proof. by destruct a. Qed.

Lemma ext_le_add a a' b b' :
  ext_le a a' → ext_le b b' → ext_le (eadd a b) (eadd a' b').
Proof. destruct a, a', b, b'; simpl; try done; lra. Qed.

Lemma ext_le_ok a b :
  ext_le a b → finite_or_ninf a = true ∧ finite_or_ninf b = true.
Proof. by destruct a, b. Qed.

(** The sum of the exponentials of the finite entries. *)
Definition exp_sum (l : list ext) : R := Rsum (exp <$> omap fin_part l).

Lemma exp_sum_cons a l :
  exp_sum (a :: l)
  = (match a with Fin x => exp x | _ => 0 end + exp_sum l)%R.
Proof.
  unfold exp_sum, Rsum. destruct a; simpl; rewrite ?Rplus_0_l; reflexivity.
Qed.

Lemma exp_sum_nonneg l : (0 <= exp_sum l)%R.
Proof.
  induction l as [|a l IH]; [unfold exp_sum, Rsum; simpl; lra|].
  rewrite exp_sum_cons. destruct a as [|x| |]; try lra.
  pose proof (exp_pos x). lra.
Qed.

Lemma exp_sum_pos l : omap fin_part l ≠ [] → (0 < exp_sum l)%R.
Proof.
  induction l as [|a l IH]; [done|]. rewrite exp_sum_cons.
  pose proof (exp_sum_nonneg l).
  destruct a as [|x| |]; simpl; intros Hne;
    [rewrite Rplus_0_l; by apply IH
    |pose proof (exp_pos x); lra
    |rewrite Rplus_0_l; by apply IH
    |rewrite Rplus_0_l; by apply IH].
Qed.

Lemma exp_mono x y : (x <= y)%R → (exp x <= exp y)%R.
Proof.
  intros [Hlt | ->]; [|lra]. left. by apply exp_increasing.
Qed.

Lemma exp_sum_mono l l' :
  Forall2 ext_le l l' →
  (exp_sum l <= exp_sum l')%R
  ∧ (omap fin_part l ≠ [] → omap fin_part l' ≠ []).
Proof.
  induction 1 as [|a a' l l' Ha _ [IH1 IH2]]; [split; [lra|done]|].
  rewrite !exp_sum_cons.
  destruct a as [|x| |], a' as [|y| |]; simpl in *; try done.
  - split; [lra|done].
  - pose proof (exp_pos y). split; [lra|done].
  - pose proof (exp_mono _ _ Ha). split; [lra|done].
Qed.

Lemma ext_le_lse l l' :
  Forall2 ext_le l l' → ext_le (elogsumexp l) (elogsumexp l').
Proof.
  intros Hl.
  assert (Hok : Forall (λ a, finite_or_ninf a = true) l
                ∧ Forall (λ a, finite_or_ninf a = true) l').
  { induction Hl as [|a a' l l' Ha _ [IH1 IH2]]; [done|].
    destruct (ext_le_ok _ _ Ha). split; by constructor. }
  destruct Hok as [Hok Hok'].
  destruct (exp_sum_mono l l' Hl) as [Hle Hne].
  unfold elogsumexp.
  rewrite !existsb_ok_nan, !existsb_ok_pinf by done.
  fold (exp_sum l) (exp_sum l').
  destruct (omap fin_part l) as [|x xs] eqn:Ex.
  - by destruct (omap fin_part l').
  - assert (Hpos : (0 < exp_sum l)%R) by (apply exp_sum_pos; by rewrite Ex).
    specialize (Hne ltac:(done)).
    destruct (omap fin_part l') as [|y ys] eqn:Ey; [done|].
    unfold exp_sum in *. rewrite Ex, Ey in *. simpl.
    destruct Hle as [Hlt|Heq].
    + left. by apply ln_increasing.
    + right. simpl in Heq. by rewrite Heq.
Qed.

Lemma ext_le_sum l l' : Forall2 ext_le l l' → ext_le (esum l) (esum l').
Proof.
  induction 1 as [|a a' l l' Ha _ IH]; simpl; [lra|]. by apply ext_le_add.
Qed.

End ExtOrderFacts.

(* ===================================================================== *)
(** * Theorems *)
(* ===================================================================== *)

Import Tensor Table ExtReal Poly Inputs.

(** Reading a table over log-potentials that is the image of a table over
    weights. *)
Lemma log_poly_hom (x : R) :
  (0 < x)%R →
  log_poly x ninf = ninf ∧ log_poly x zero = zero
  ∧ (∀ a b, log_poly x (add a b) = add (log_poly x a) (log_poly x b))
  ∧ (∀ l, log_poly x (lse l) = lse (log_poly x <$> l))
  ∧ (∀ l, log_poly x (tsum l) = tsum (log_poly x <$> l)).
Proof.
  intros Hx. split_and!.
  - apply PolyFacts.log_poly_ninf.
  - by apply PolyFacts.log_poly_zero.
  - intros a b. by apply PolyFacts.log_poly_add.
  - intros l. by apply PolyFacts.log_poly_lse.
  - intros l. by apply PolyFacts.log_poly_tsum.
Qed.

Lemma zeros_ones b i j : zeros b i j = log_poly 1 (ones b i j).
Proof. unfold zeros, ones. symmetry. apply PolyFacts.log_poly_zero. Qed.

Lemma log_poly_const (x : R) (n : nat) :
  (0 < x)%R → 0 < n → log_poly x [n] = Fin (ln (INR n)).
Proof.
  intros Hx Hn. unfold log_poly, log_weight. simpl.
  replace (INR n + x * 0)%R with (INR n) by lra.
  destruct (Req_dec_T _ _) as [E|_]; [|done].
  apply (lt_INR 0) in Hn. simpl in Hn. lra.
Qed.

(** The tables of the first-order CRF on the all-zero scores are the
    logarithms of the tables of weights. *)
Lemma dep_zeros_tables S B mask :
  CRFDependency.inside S B zeros mask None
  = Hom.dep_map (log_poly 1) (CRFDependency.inside S B ones mask None).
Proof.
  destruct (log_poly_hom 1) as (H1 & H2 & H3 & H4 & _); [lra|].
  apply Hom.dep_inside_hom; try done; apply zeros_ones.
Qed.

(** C1, amended. For every width [w] from 1 to [seq_len - 1] and every span
    [(i, i + w)], the tables returned by [CRFDependency.inside] satisfy: the
    two incomplete entries are the log-sum-exp over the splits [r] in
    [[i, j)] of [C(i,r) + C(j,r+1)] plus the arc score; the leftward
    complete entry is the log-sum-exp over [r] in [[i, j)] of
    [C(r,i) + I(j,r)]; the rightward complete entry is the log-sum-exp
    over [r] in [(i, j]] of [I(i,r) + C(r,j)], except that the entry
    [s_c[0, w]] of a sentence whose length is not [w] is [-inf]; and
    [C(x,x) = 0] for all [x] before the loop runs. *)
Theorem C1_inside_recurrence {A : Type} `{LogDomain A} (S B : nat)
    (scores : CRFDependency.arc_scores A) (mask : nat → nat → bool)
    (cands : option (nat → nat → Z)) (w i b : nat) :
  1 ≤ w → i + w < S → b < B →
  let t := CRFDependency.inside S B scores mask cands in
  let sc := CRFDependency.inside_scores scores mask cands in
  let I := tget S S B (CRFDependency.s_i t) in
  let C := tget S S B (CRFDependency.s_c t) in
  I (i + w) i b
    = add (lse ((λ r, add (C i r b) (C (i + w) (r + 1) b)) <$> seq i w))
          (sc (i + w) i b)
  ∧ I i (i + w) b
    = add (lse ((λ r, add (C i r b) (C (i + w) (r + 1) b)) <$> seq i w))
          (sc i (i + w) b)
  ∧ C (i + w) i b
    = lse ((λ r, add (C r i b) (I (i + w) r b)) <$> seq i w)
  ∧ C i (i + w) b
    = (if decide (i = 0 ∧ mask_lens S mask b ≠ w) then ninf
       else lse ((λ r, add (I i r b) (C r (i + w) b)) <$> seq (i + 1) w))
  ∧ ∀ x, x < S →
      tget S S B (CRFDependency.s_c (CRFDependency.inside_init S B)) x x b
      = zero.
Proof.
  intros Hw Hi Hb t sc I C.
  destruct (CRFDependencyFacts.inside_spec S B scores mask cands)
    as (_ & Hrec & _).
  destruct (Hrec w i b Hw Hi Hb) as (E1 & E2 & E3 & E4).
  unfold CRFDependencyFacts.I, CRFDependencyFacts.C in E1, E2, E3, E4.
  rewrite !(CRFDependencyFacts.fmap_seq_shift _ i w).
  rewrite (CRFDependencyFacts.fmap_seq_shift _ (i + 1) w).
  split_and!; [done|done|done| |].
  - fold t in E4. fold I C in E4. rewrite E4.
    case_decide; [done|]. f_equal.
    apply CRFDependencyFacts.fmap_seq_ext. intros c Hc.
    f_equal; f_equal; lia.
  - intros x Hx.
    destruct (CRFDependencyFacts.inside_init_spec (A := A) S B) as [_ Hinit].
    destruct (Hinit x x b Hx Hx Hb) as [_ E]. revert E.
    unfold CRFDependencyFacts.C. intros ->. by rewrite decide_True.
Qed.

Lemma C1_inside_recurrence_witness :
  1 ≤ 1 ∧ 0 + 1 < 3 ∧ 0 < 1 ∧
  tget 3 3 1 (CRFDependency.s_c
    (CRFDependency.inside 3 1 zeros (words 2) None)) 0 (0 + 1) 0 = NInf.
Proof.
  assert (H1 : 1 ≤ 1) by lia.
  assert (H2 : 0 + 1 < 3) by lia.
  assert (H3 : 0 < 1) by lia.
  split_and!; [done..|].
  destruct (C1_inside_recurrence 3 1 zeros (words 2) None 1 0 0 H1 H2 H3)
    as (_ & _ & _ & E & _).
  exact E.
Defined.

(** C1 as stated fails: for one sentence of two words and all-zero
    scores the rightward complete span [(0, 1)] is forced to [-inf], while
    the log-sum-exp of its splits is finite. *)
Lemma C1_root_exception_counterexample :
  ¬ Described.first_order_recurrence 3 1 zeros (words 2).
Proof.
  intros Hc. destruct (Hc 1 0 0) as (_ & _ & _ & E); [lia..|].
  revert E. rewrite dep_zeros_tables.
  unfold Hom.dep_map.
  cbn [CRFDependency.s_i CRFDependency.s_c fmap list_fmap seq].
  destruct (log_poly_hom 1) as (Hn & _); [lra|].
  rewrite !(Hom.tget_fmap _ Hn).
  replace (tget 3 3 1 (CRFDependency.s_c
             (CRFDependency.inside 3 1 ones (words 2) None)) 0 (0 + 1) 0)
    with (@nil nat) by (vm_compute; reflexivity).
  replace (tget 3 3 1 (CRFDependency.s_i
             (CRFDependency.inside 3 1 ones (words 2) None)) 0 (0 + 1) 0)
    with [1] by (vm_compute; reflexivity).
  replace (tget 3 3 1 (CRFDependency.s_c
             (CRFDependency.inside 3 1 ones (words 2) None)) (0 + 1) (0 + 1) 0)
    with [1] by (vm_compute; reflexivity).
  rewrite PolyFacts.log_poly_ninf, PolyFacts.log_poly_zero.
  discriminate.
Qed.

(** C5. Root exclusivity: in the tables returned by the inside recurrence
    of both dependency CRFs, for every sentence of length [L > 1] and every
    width [w] with [1 <= w <= seq_len - 1] and [w <> L], the complete-span
    entry [s_c[0, w]] of that sentence is [-inf]. *)
Theorem C5_root_exclusivity {A : Type} `{LogDomain A} (S B : nat)
    (s_arc : nat → nat → nat → A) (s_sib : nat → nat → nat → nat → A)
    (mask : nat → nat → bool) (cands : option (nat → nat → Z)) (b w : nat) :
  b < B → 1 < mask_lens S mask b → 1 ≤ w ≤ S - 1 → w ≠ mask_lens S mask b →
  tget S S B (CRFDependency.s_c (CRFDependency.inside S B s_arc mask cands))
       0 w b = ninf
  ∧ tget S S B
      (CRF2oDependency.s_c (CRF2oDependency.inside S B s_arc s_sib mask cands))
      0 w b = ninf.
Proof.
  intros Hb HL Hw Hne. split.
  - destruct (CRFDependencyFacts.inside_spec S B s_arc mask cands)
      as (_ & Hrec & _).
    destruct (Hrec w 0 b) as (_ & _ & _ & E); [lia..|].
    unfold CRFDependencyFacts.C in E. simpl in E. rewrite E.
    by rewrite decide_True by lia.
  - destruct (CRF2oDependencyFacts.inside2o_spec S B s_arc s_sib mask cands)
      as (_ & Hrec & _).
    destruct (Hrec w 0 b) as (_ & _ & _ & _ & _ & E); [lia..|].
    unfold CRF2oDependencyFacts.C in E. simpl in E. rewrite E.
    by rewrite decide_True by lia.
Qed.

Lemma C5_root_exclusivity_witness :
  0 < 1 ∧ 1 < mask_lens 4 (words 3) 0 ∧ 1 ≤ 2 ≤ 4 - 1
  ∧ 2 ≠ mask_lens 4 (words 3) 0
  ∧ tget 4 4 1
      (CRFDependency.s_c (CRFDependency.inside 4 1 zeros (words 3) None))
      0 2 0 = NInf
  ∧ tget 4 4 1
      (CRF2oDependency.s_c
         (CRF2oDependency.inside 4 1 zeros sib_zeros (words 3) None))
      0 2 0 = NInf.
Proof.
  assert (H1 : 0 < 1) by lia.
  assert (H2 : 1 < mask_lens 4 (words 3) 0) by (vm_compute; lia).
  assert (H3 : 1 ≤ 2 ≤ 4 - 1) by (simpl; lia).
  assert (H4 : 2 ≠ mask_lens 4 (words 3) 0) by (vm_compute; lia).
  refine (conj H1 (conj H2 (conj H3 (conj H4 _)))).
  exact (C5_root_exclusivity 4 1 zeros sib_zeros (words 3) None 0 2
           H1 H2 H3 H4).
Defined.

(** C7. The chart returned by [CRFConstituency.inside] satisfies: for
    width 1, [s[i, i+1]] is [score(i, i+1)]; for every width [w > 1],
    [s[i, j]] is the log-sum-exp over the splits [r] strictly between [i]
    and [j] of [s[i, r] + s[r, j]], plus [score(i, j)]; and the [logZ] of
    [forward] is [s[0, length]] summed over the batch, the length of a
    sentence being the number of true entries in the first row of its
    mask. *)
Theorem C7_constituency_chart {A : Type} `{LossDomain A}
    (grad : (CRFConstituency.span_scores A → A)
            → CRFConstituency.span_scores A → CRFConstituency.span_scores A)
    (S B : nat) (scores : CRFConstituency.span_scores A)
    (mask : nat → nat → nat → bool) (w i b : nat) :
  1 ≤ w → i + w < S → b < B →
  (∀ b', b' < B → CRFConstituency.lens S mask b' < S) →
  let s := CRFConstituency.inside S B scores mask in
  let logZ :=
    tsum ((λ b', tget S S B s 0
                   (length (filter (λ j, mask b' 0 j = true) (seq 0 S))) b')
            <$> seq 0 B) in
  (w = 1 → tget S S B s i (i + 1) b = scores b i (i + 1))
  ∧ (1 < w →
     tget S S B s i (i + w) b
     = add (lse ((λ r, add (tget S S B s i r b) (tget S S B s r (i + w) b))
                   <$> seq (i + 1) (w - 1)))
           (scores b i (i + w)))
  ∧ CRFConstituency.partition S B scores mask = Some logZ
  ∧ ∀ target mbr, ∃ probs,
      CRFConstituency.forward grad S B scores mask (Some target) mbr
      = Some (LossProbs
                (divn (sub logZ
                         (tsum (CRFConstituency.gold_scores S B scores mask
                                                            target)))
                      (sum_list (CRFConstituency.lens S mask <$> seq 0 B)))
                probs).
Proof.
  intros Hw Hi Hb Hl s logZ.
  destruct (CRFConstituencyFacts.chart_spec S B scores mask) as (_ & Hrec).
  specialize (Hrec w i b Hw Hi Hb). unfold CRFConstituencyFacts.rec in Hrec.
  fold s in Hrec.
  assert (Hp : CRFConstituency.partition S B scores mask = Some logZ).
  { unfold CRFConstituency.partition.
    rewrite ForwardFacts.gather_lens_Some by (done || lia). done. }
  split_and!.
  - intros ->. by rewrite Hrec, decide_True.
  - intros Hw1. rewrite Hrec, decide_False by lia.
    by rewrite (CRFDependencyFacts.fmap_seq_shift _ (i + 1) (w - 1)).
  - done.
  - intros target mbr. unfold CRFConstituency.forward. rewrite Hp.
    cbn [mbind option_bind].
    rewrite ForwardFacts.probs_Some by (intros _; lia).
    cbn [mbind option_bind]. by eexists.
Qed.

Lemma C7_constituency_chart_witness :
  let mask : nat → nat → nat → bool := λ _ i j, (i <? j) && (j <? 4) in
  1 ≤ 2 ∧ 0 + 2 < 4 ∧ 0 < 1
  ∧ (∀ b', b' < 1 → CRFConstituency.lens 4 mask b' < 4)
  ∧ CRFConstituency.partition 4 1 zeros mask
    = Some (tsum ((λ b', tget 4 4 1 (CRFConstituency.inside 4 1 zeros mask) 0
                           (length (filter (λ j, mask b' 0 j = true) (seq 0 4)))
                           b')
                    <$> seq 0 1)).
Proof.
  intros mask.
  assert (H1 : 1 ≤ 2) by lia.
  assert (H2 : 0 + 2 < 4) by lia.
  assert (H3 : 0 < 1) by lia.
  assert (H4 : ∀ b', b' < 1 → CRFConstituency.lens 4 mask b' < 4).
  { intros b' Hb'. replace b' with 0 by lia. vm_compute. lia. }
  split_and!; [done..|].
  destruct (C7_constituency_chart (λ _ x, x) 4 1 zeros mask 2 0 0 H1 H2 H3 H4)
    as (_ & _ & E & _).
  exact E.
Defined.

(** C2. For every batch with a target, [CRFDependency.forward] returns the
    loss [(logZ - goldScore) / total], where [total] is the number of
    mask-true positions, [logZ] is [s_c[0, length]] gathered per sentence
    and summed over the batch, and [goldScore] is, when [partial] is
    false, the sum over the mask-true positions of the input score at the
    gold parent index of the position, and, when [partial] is true, the
    [logZ] of a second inside pass restricted to the candidates.  The call
    returns when the sentence lengths index the table, the table has two
    positions or more if the marginals are asked for and, under full
    supervision, the gold parents are in range; whenever it returns, on
    any batch, what it returns is this loss. *)
Theorem C2_forward_loss {A : Type} `{LossDomain A}
    (grad : (CRFDependency.arc_scores A → A)
            → CRFDependency.arc_scores A → CRFDependency.arc_scores A)
    (S B : nat) (scores : CRFDependency.arc_scores A)
    (mask : nat → nat → bool) (target : nat → nat → Z) (mbr : bool) :
  let lens := mask_lens S mask in
  let s_c cands := CRFDependency.s_c (CRFDependency.inside S B scores mask cands) in
  let logZ := tsum ((λ b, tget S S B (s_c None) 0 (lens b) b) <$> seq 0 B) in
  let valid := filter (λ p : nat * nat, mask p.1 p.2 = true) (positions S B) in
  let probs :=
    if mbr
    then grad (λ x, default logZ (CRFDependency.partition S B x mask None))
              scores
    else scores in
  let full :=
    LossProbs
      (divn (sub logZ
               (tsum ((λ p : nat * nat,
                         scores p.1 p.2 (Z.to_nat (target p.1 p.2)))
                        <$> valid)))
            (length valid))
      probs in
  let part :=
    LossProbs
      (divn (sub logZ
               (tsum ((λ b, tget S S B (s_c (Some target)) 0 (lens b) b)
                        <$> seq 0 B)))
            (length valid))
      probs in
  (0 < S → (∀ b, b < B → lens b < S) → (mbr = true → 2 ≤ S) →
   ((∀ p, p ∈ positions S B → (0 ≤ target p.1 p.2 < Z.of_nat S)%Z) →
    CRFDependency.forward grad S B scores mask (Some target) mbr false
    = Some full)
   ∧ CRFDependency.forward grad S B scores mask (Some target) mbr true
     = Some part)
  ∧ (∀ out,
       CRFDependency.forward grad S B scores mask (Some target) mbr false
       = Some out → out = full)
  ∧ (∀ out,
       CRFDependency.forward grad S B scores mask (Some target) mbr true
       = Some out → out = part).
Proof.
  intros lens s_c logZ valid probs full part.
  assert (Hret : 0 < S → (∀ b, b < B → lens b < S) → (mbr = true → 2 ≤ S) →
    ((∀ p, p ∈ positions S B → (0 ≤ target p.1 p.2 < Z.of_nat S)%Z) →
     CRFDependency.forward grad S B scores mask (Some target) mbr false
     = Some full)
    ∧ CRFDependency.forward grad S B scores mask (Some target) mbr true
      = Some part).
  { intros HS Hl Hm.
    assert (Hp : CRFDependency.partition S B scores mask None = Some logZ).
    { unfold CRFDependency.partition.
      by rewrite ForwardFacts.gather_lens_Some. }
    unfold CRFDependency.forward. rewrite Hp. cbn [mbind option_bind].
    rewrite ForwardFacts.probs_Some by exact Hm. cbn [mbind option_bind].
    rewrite ForwardFacts.mask_total_positions. fold valid. split.
    - intros Ht. unfold CRFDependency.gold_scores.
      rewrite (ForwardFacts.mapM_Some_fmap _
                 (λ p : nat * nat, scores p.1 p.2 (Z.to_nat (target p.1 p.2)))).
      + cbn [mbind option_bind]. by rewrite ForwardFacts.masked_select_fmap.
      + apply list.Forall_forall. intros p Hp'. by rewrite decide_True by auto.
    - by rewrite ForwardFacts.gather_lens_Some. }
  split; [exact Hret|]. split.
  - intros out Hout.
    destruct (ForwardFacts.dep_forward_inv _ _ _ _ _ _ _ _ _ Hout)
      as (HS & Hl & Hm & Ht).
    destruct (Hret HS Hl Hm) as [E _].
    rewrite (E (Ht target eq_refl eq_refl)) in Hout. by injection Hout as <-.
  - intros out Hout.
    destruct (ForwardFacts.dep_forward_inv _ _ _ _ _ _ _ _ _ Hout)
      as (HS & Hl & Hm & _).
    destruct (Hret HS Hl Hm) as [_ E].
    rewrite E in Hout. by injection Hout as <-.
Qed.

Lemma C2_forward_loss_witness :
  let target : nat → nat → Z := λ _ i, Z.max (Z.of_nat i - 1) 0 in
  0 < 4 ∧ (∀ b, b < 1 → mask_lens 4 (words 3) b < 4)
  ∧ (∀ p, p ∈ positions 4 1 → (0 ≤ target p.1 p.2 < Z.of_nat 4)%Z)
  ∧ ∃ loss loss',
      CRFDependency.forward (λ _ x, x) 4 1 zeros (words 3) (Some target)
                            true false
      = Some (LossProbs loss zeros)
      ∧ CRFDependency.forward (λ _ x, x) 4 1 zeros (words 3) (Some target)
                              true true
        = Some (LossProbs loss' zeros).
Proof.
  intros target.
  assert (H1 : 0 < 4) by lia.
  assert (H2 : ∀ b, b < 1 → mask_lens 4 (words 3) b < 4).
  { intros b Hb. replace b with 0 by lia. vm_compute. lia. }
  assert (H3 : ∀ p, p ∈ positions 4 1
                → (0 ≤ target p.1 p.2 < Z.of_nat 4)%Z).
  { intros p Hp. unfold target.
    assert (p.2 < 4); [|lia].
    unfold positions in Hp. apply list_elem_of_bind in Hp as (b & Hp & _).
    apply list_elem_of_fmap_1 in Hp as (i & -> & Hi%elem_of_seq). simpl. lia. }
  assert (H4 : true = true → 2 ≤ 4) by (intros _; lia).
  split_and!; [done..|].
  destruct (C2_forward_loss (λ _ x, x) 4 1 zeros (words 3) target true)
    as [Hret _].
  destruct (Hret H1 H2 H4) as [E E'].
  eexists _, _. split; [apply (E H3)|apply E'].
Defined.

(** The two examples of the docstring of [stripe]. *)
Example stripe_docstring_1 :
  (Tensor.stripe docstring_heap docstring_x 2 3 (1, 1) 1
     ≫= λ '(h, v), mapM (λ r, mapM (λ c, read h v [r; c]) (seq 0 3)) (seq 0 2))
  = Some [[6; 7; 8]; [12; 13; 14]].
Proof. reflexivity. Qed.

Example stripe_docstring_2 :
  (Tensor.stripe docstring_heap docstring_x 2 3 (0, 0) 0
     ≫= λ '(h, v), mapM (λ r, mapM (λ c, read h v [r; c]) (seq 0 3)) (seq 0 2))
  = Some [[0; 5; 10]; [6; 11; 16]].
Proof. reflexivity. Qed.

(** C4, amended. For every valid tensor [x] with at least two dimensions,
    not empty in its first two, that starts at the beginning of its storage
    when it is contiguous, and every count [n], width [w], offset
    [(o0, o1)] and orientation [dim] such that all accessed indices are in
    bounds: [stripe(x, n, w, (o0, o1), dim)] has shape [(n, w, ...)]; its
    element at [(r, c)] is [x[o0+r, o1+r+c]] when [dim = 1] and
    [x[o0+r+c, o1+r]] otherwise; when [x] is contiguous no copy is made
    and a write through the stripe changes the corresponding element of
    [x]; when [x] is not contiguous the stripe is a view of a fresh copy and
    no write through it changes [x]. *)
Theorem C4_stripe_view {A : Type} (h : heap A) (x : tensor)
    (d0 d1 : nat) (rest : list nat) (n w : nat) (offset : nat * nat)
    (dim : nat) :
  valid h x → tsize x = d0 :: d1 :: rest → 0 < d0 → 0 < d1 →
  (is_contiguous x = true → toffset x = 0) →
  (∀ r c, r < n → c < w →
     (stripe_src offset dim r c).1 < d0 ∧ (stripe_src offset dim r c).2 < d1) →
  ∃ h' v, stripe h x n w offset dim = Some (h', v) ∧
    tsize v = n :: w :: rest ∧
    (∀ r c k, r < n → c < w → in_range k rest = true →
       is_Some (read h' v (r :: c :: k)) ∧
       read h' v (r :: c :: k)
       = read h x ((if dim =? 1 then offset.1 + r else offset.1 + r + c)
                     :: (if dim =? 1 then offset.2 + r + c else offset.2 + r)
                     :: k)) ∧
    (is_contiguous x = true →
       h' = h ∧ tloc v = tloc x ∧
       ∀ r c k a, r < n → c < w → in_range k rest = true →
         ∃ h'', write h' v (r :: c :: k) a = Some h'' ∧
                read h'' x
                  ((if dim =? 1 then offset.1 + r else offset.1 + r + c)
                     :: (if dim =? 1 then offset.2 + r + c else offset.2 + r)
                     :: k)
                = Some a) ∧
    (is_contiguous x = false →
       tloc v = length h ∧
       ∀ idx a h'', write h' v idx a = Some h'' →
         ∀ idx', read h'' x idx' = read h x idx').
Proof.
  intros Hv Hsz Hd0 Hd1 Hoff Hb.
  destruct (TensorFacts.stripe_behaviour h x d0 d1 rest n w offset dim
              Hv Hsz Hd0 Hd1 Hoff Hb)
    as (h' & v & Hs & Hvsz & Hread & Hc & Hnc).
  exists h', v.
  assert (Hsrc : ∀ r c,
    ((stripe_src offset dim r c).1, (stripe_src offset dim r c).2)
    = (if dim =? 1 then offset.1 + r else offset.1 + r + c,
       if dim =? 1 then offset.2 + r + c else offset.2 + r)).
  { intros r c. unfold stripe_src. by destruct (dim =? 1). }
  split_and!; [done|done|..|done].
  - intros r c k Hr Hcw Hk. specialize (Hsrc r c).
    injection Hsrc as <- <-. by apply Hread.
  - intros Hcontig. destruct (Hc Hcontig) as (-> & Hl & Hw).
    split_and!; [done|done|].
    intros r c k a Hr Hcw Hk. specialize (Hsrc r c).
    injection Hsrc as <- <-. by apply Hw.
Qed.

Lemma C4_stripe_view_witness :
  valid docstring_heap docstring_x ∧ 0 < 5
  ∧ (is_contiguous docstring_x = true → toffset docstring_x = 0)
  ∧ (∀ r c, r < 2 → c < 3 →
       (stripe_src (1, 1) 1 r c).1 < 5 ∧ (stripe_src (1, 1) 1 r c).2 < 5)
  ∧ ∃ h' v, stripe docstring_heap docstring_x 2 3 (1, 1) 1 = Some (h', v)
       ∧ tsize v = [2; 3]
       ∧ read h' v [1; 2] = read docstring_heap docstring_x [2; 4].
Proof.
  assert (H1 : valid docstring_heap docstring_x).
  { split; [done|]. exists (seq 0 25). split; [done|].
    intros idx Hr. pose proof (TensorFacts.dot_row_major_lt idx [5; 5] Hr).
    unfold addr. simpl in *. lia. }
  assert (H2 : tsize docstring_x = [5; 5]) by reflexivity.
  assert (H3 : 0 < 5) by lia.
  assert (H4 : is_contiguous docstring_x = true → toffset docstring_x = 0)
    by (intros _; reflexivity).
  assert (H5 : ∀ r c, r < 2 → c < 3 →
            (stripe_src (1, 1) 1 r c).1 < 5 ∧ (stripe_src (1, 1) 1 r c).2 < 5)
    by (intros r c Hr Hc; simpl; lia).
  refine (conj H1 (conj H3 (conj H4 (conj H5 _)))).
  destruct (C4_stripe_view docstring_heap docstring_x 5 5 [] 2 3 (1, 1) 1
              H1 H2 H3 H3 H4 H5)
    as (h' & v & Hs & Hsz & Hread & _).
  exists h', v. split_and!; [done|done|].
  destruct (Hread 1 2 []) as [_ E]; [lia|lia|done|]. exact E.
Defined.

(** C4 as stated fails on a tensor that is not contiguous: the stripe of
    the transposed 2 x 2 tensor is a view of a copy, and a write through it
    leaves the tensor as it was. *)
Lemma C4_copy_counterexample :
  ¬ Described.stripe_contract transposed_heap transposed 1 1 (0, 0) 1.
Proof.
  intros Hc. destruct (Hc 2 2 []) as (h' & v & Hs & _ & Hrw).
  - split; [done|]. exists [0; 1; 2; 3]. split; [done|].
    intros [|i [|j [|? ?]]] Hr; [done| | |].
    + by apply TensorFacts.in_range_cons in Hr as [_ Hr].
    + apply TensorFacts.in_range_cons in Hr as [Hi Hr].
      apply TensorFacts.in_range_cons in Hr as [Hj _].
      unfold addr. simpl. lia.
    + apply TensorFacts.in_range_cons in Hr as [_ Hr].
      by apply TensorFacts.in_range_cons in Hr as [_ Hr].
  - done.
  - intros r c Hr Hcw. simpl. lia.
  - vm_compute in Hs. injection Hs as <- <-.
    destruct (Hrw 0 0 [] 9) as (_ & h'' & Hw & Hr); [lia|lia|done|].
    vm_compute in Hw. injection Hw as <-. vm_compute in Hr. discriminate.
Qed.

(** C10, evaluated on a contiguous tensor that does not start at the
    beginning of its storage ([x = torch.arange(50).view(2, 5, 5)[1]]):
    [stripe(x, 2, 3, (1, 1))] is a view of the storage of [x] that starts
    at element 6; its first element is 6, not [x[1, 1] = 31], and a write
    through it changes no element of [x]. *)
Theorem C10_offset_view_evaluation :
  is_contiguous second_block = true
  ∧ stripe arange_heap second_block 2 3 (1, 1) 1
    = Some (arange_heap, mkTensor 0 6 [2; 3] [6; 1])
  ∧ read arange_heap (mkTensor 0 6 [2; 3] [6; 1]) [0; 0] = Some 6
  ∧ read arange_heap second_block [1; 1] = Some 31
  ∧ ∀ a, ∃ h'',
      write arange_heap (mkTensor 0 6 [2; 3] [6; 1]) [0; 0] a = Some h''
      ∧ ∀ idx, read h'' second_block idx = read arange_heap second_block idx.
Proof.
  split_and!; try reflexivity.
  intros a. eexists. split; [reflexivity|].
  intros idx. unfold read, second_block, arange_heap.
  cbn [tsize tloc]. destruct (in_range idx [5; 5]); [|done].
  change (<[0:=?s]> [seq 0 50] !! 0) with (Some s).
  change ([seq 0 50] !! 0) with (Some (seq 0 50)).
  cbn [mbind option_bind].
  apply list_lookup_insert_ne. unfold addr. simpl. lia.
Qed.

(** The tables of the second-order CRF on the all-zero scores are the
    logarithms of the tables of weights. *)
Lemma dep2o_zeros_tables S B mask :
  CRF2oDependency.inside S B zeros sib_zeros mask None
  = Hom.dep2o_map (log_poly 1)
      (CRF2oDependency.inside S B ones sib_ones mask None).
Proof.
  destruct (log_poly_hom 1) as (H1 & H2 & H3 & H4 & _); [lra|].
  apply Hom.dep2o_inside_hom; try done; intros; symmetry;
    apply PolyFacts.log_poly_zero.
Qed.

(** C8, amended. In the second-order inside recurrence, for every width [w]
    and every span [(i, j)] with [j = i + w]: [I(j->i)] is the arc score
    plus the log-sum-exp of the inner terms
    [I(j,r) + s_s(r,i) + sibling(j,i,r)] for [r] in [(i, j)] together with
    one first-child term, which is [C(j,j) + C(i,j-1)] for [i > 0] and is
    forced to zero for the spans that start at position 0; [I(i->j)] is the
    arc score plus the log-sum-exp of the first-child term
    [C(i,i) + C(j,i+1)] together with the inner terms
    [I(i,r) + s_s(r,j) + sibling(i,j,r)] for [r] in [(i, j)], which are
    forced to [-inf] for the spans that start at position 0. *)
Theorem C8_second_order_incomplete {A : Type} `{LogDomain A} (S B : nat)
    (s_arc : CRF2oDependency.arc_scores A)
    (s_sib : CRF2oDependency.sib_scores A) (mask : nat → nat → bool)
    (cands : option (nat → nat → Z)) (w i b : nat) :
  1 ≤ w → i + w < S → b < B →
  let t := CRF2oDependency.inside S B s_arc s_sib mask cands in
  let sa := CRF2oDependency.inside_arc s_arc mask cands in
  let I := tget S S B (CRF2oDependency.s_i t) in
  let Sb := tget S S B (CRF2oDependency.s_s t) in
  let C := tget S S B (CRF2oDependency.s_c t) in
  I (i + w) i b
    = add (lse (((λ r, add (add (I (i + w) r b) (Sb r i b))
                           (s_sib b i (i + w) r))
                   <$> seq (i + 1) (w - 1))
                ++ [if decide (i = 0) then zero
                    else add (C (i + w) (i + w) b) (C i (i + w - 1) b)]))
          (sa (i + w) i b)
  ∧ I i (i + w) b
    = add (lse (add (C i i b) (C (i + w) (i + 1) b)
                :: ((λ r, if decide (i = 0) then ninf
                          else add (add (I i r b) (Sb r (i + w) b))
                                   (s_sib b (i + w) i r))
                      <$> seq (i + 1) (w - 1))))
          (sa i (i + w) b).
Proof.
  intros Hw Hi Hb t sa I Sb C.
  destruct (CRF2oDependencyFacts.inside2o_spec S B s_arc s_sib mask cands)
    as (_ & Hrec & _).
  destruct (Hrec w i b Hw Hi Hb) as (E1 & E2 & _).
  unfold CRF2oDependencyFacts.I, CRF2oDependencyFacts.Sb,
    CRF2oDependencyFacts.C in E1, E2.
  fold t in E1, E2. fold I Sb C sa in E1, E2. split.
  - rewrite E1. do 3 f_equal.
    rewrite (CRFDependencyFacts.fmap_seq_shift _ (i + 1) (w - 1)).
    apply CRFDependencyFacts.fmap_seq_ext. intros c Hc.
    unfold CRF2oDependency.inside_sib. do 2 f_equal.
  - rewrite E2. do 3 f_equal.
    rewrite (CRFDependencyFacts.fmap_seq_shift _ (i + 1) (w - 1)).
    rewrite (CRFDependencyFacts.fmap_seq_shift _ 1 (w - 1)).
    apply CRFDependencyFacts.fmap_seq_ext. intros c Hc.
    case_decide; [done|].
    unfold CRF2oDependency.inside_sib.
    by replace (i + (1 + c)) with (i + 1 + c) by lia.
Qed.

Lemma C8_second_order_incomplete_witness :
  1 ≤ 2 ∧ 0 + 2 < 3 ∧ 0 < 1
  ∧ tget 3 3 1 (CRF2oDependency.s_i
      (CRF2oDependency.inside 3 1 zeros sib_zeros (words 2) None)) (0 + 2) 0 0
    = add (lse [add (add (tget 3 3 1 (CRF2oDependency.s_i
                            (CRF2oDependency.inside 3 1 zeros sib_zeros
                               (words 2) None)) (0 + 2) 1 0)
                         (tget 3 3 1 (CRF2oDependency.s_s
                            (CRF2oDependency.inside 3 1 zeros sib_zeros
                               (words 2) None)) 1 0 0))
                    (Fin 0);
                Fin 0])
          (Fin 0).
Proof.
  assert (H1 : 1 ≤ 2) by lia.
  assert (H2 : 0 + 2 < 3) by lia.
  assert (H3 : 0 < 1) by lia.
  refine (conj H1 (conj H2 (conj H3 _))).
  destruct (C8_second_order_incomplete 3 1 zeros sib_zeros (words 2) None
              2 0 0 H1 H2 H3) as [E _].
  exact E.
Defined.

(** C8 as stated fails: for one sentence of two words and all-zero scores
    the first-child term of the leftward span [(0, 2)] is zero, not
    [C(2,2) + C(0,1) = -inf], so that [I(2->0)] is [log 2] and not
    [log 1]. *)
Lemma C8_first_child_counterexample :
  ¬ Described.second_order_left 3 1 zeros sib_zeros (words 2).
Proof.
  intros Hc. specialize (Hc 2 0 0). revert Hc.
  rewrite dep2o_zeros_tables.
  unfold Hom.dep2o_map.
  cbn [CRF2oDependency.s_i CRF2oDependency.s_s CRF2oDependency.s_c
       fmap list_fmap seq app Nat.sub Nat.add].
  destruct (log_poly_hom 1) as (Hn & _); [lra|].
  rewrite !(Hom.tget_fmap _ Hn).
  set (t := CRF2oDependency.inside 3 1 ones sib_ones (words 2) None).
  assert (T1 : tget 3 3 1 (CRF2oDependency.s_i t) 2 0 0 = [2])
    by (vm_compute; reflexivity).
  rewrite T1.
  assert (T2 : tget 3 3 1 (CRF2oDependency.s_i t) 2 1 0 = [1])
    by (vm_compute; reflexivity).
  rewrite T2.
  assert (T3 : tget 3 3 1 (CRF2oDependency.s_s t) 1 0 0 = [1])
    by (vm_compute; reflexivity).
  rewrite T3.
  assert (T4 : tget 3 3 1 (CRF2oDependency.s_c t) 2 2 0 = [1])
    by (vm_compute; reflexivity).
  rewrite T4.
  assert (T5 : tget 3 3 1 (CRF2oDependency.s_c t) 0 1 0 = (@nil nat))
    by (vm_compute; reflexivity).
  rewrite T5.
  rewrite PolyFacts.log_poly_ninf, PolyFacts.log_poly_zero.
  rewrite (log_poly_const 1 2) by (lra || lia).
  intros E. specialize (E ltac:(lia) ltac:(lia) ltac:(lia)).
  cbv [add lse ext_domain eadd elogsumexp existsb is_nan is_pinf orb omap
       list_omap fin_part fmap list_fmap Rsum foldr mbind option_bind
       CRF2oDependency.inside_sib CRF2oDependency.inside_arc sib_zeros
       zeros INR] in E.
  injection E as E.
  assert (Hlt : (ln 1 < ln (1 + 1))%R) by (apply ln_increasing; lra).
  rewrite ln_1 in Hlt.
  replace (exp (0 + 0 + 0) + 0)%R with 1%R in E
    by (replace (0 + 0 + 0)%R with 0%R by lra; rewrite exp_0; lra).
  rewrite ln_1 in E. lra.
Qed.

(** The derivative of [t |-> ln (a + b * exp t)] at 0. *)
Lemma ln_affine_exp_derivative (a b : R) :
  (0 <= a)%R → (0 < b)%R →
  derivable_pt_lim (λ t, ln (a + b * exp t)%R) 0 (b / (a + b))%R.
Proof.
  intros Ha Hb.
  assert (H1 : derivable_pt_lim (fct_cte a + mult_real_fct b exp)%F 0
                 (0 + b * 1)%R).
  { apply derivable_pt_lim_plus; [apply derivable_pt_lim_const|].
    apply derivable_pt_lim_scal, derivable_pt_lim_exp_0. }
  assert (H2 : derivable_pt_lim ln ((fct_cte a + mult_real_fct b exp)%F 0%R)
                 (/ (a + b))%R).
  { unfold plus_fct, fct_cte, mult_real_fct. rewrite exp_0.
    replace (a + b * 1)%R with (a + b)%R by lra.
    apply derivable_pt_lim_ln. lra. }
  pose proof (derivable_pt_lim_comp _ _ _ _ _ H1 H2) as H3.
  replace (b / (a + b))%R with (/ (a + b) * (0 + b * 1))%R
    by (unfold Rdiv; lra).
  eapply derivable_pt_lim_ext; [|exact H3].
  intros z. reflexivity.
Qed.

(** With the score of one arc at [t] and all others at zero, [logZ] is the
    logarithm of the arc's polynomial at [exp t]. *)
Lemma logZ_bump S d hd p t fallback :
  CRFDependency.partition S 1 (marked d hd) (words (S - 1)) None = Some p →
  logZ_of S fallback (bump d hd t) = log_poly (exp t) p.
Proof.
  intros Hp. unfold logZ_of.
  destruct (log_poly_hom (exp t)) as (H1 & H2 & H3 & H4 & H5);
    [apply exp_pos|].
  rewrite (Hom.dep_partition_hom (log_poly (exp t)) H1 H2 H3 H4 H5
             S 1 (marked d hd)).
  - by rewrite Hp.
  - intros b i j. unfold bump, marked.
    destruct ((i =? d) && (j =? hd)); [|by rewrite PolyFacts.log_poly_zero].
    unfold log_poly, log_weight. simpl.
    replace (0 + exp t * (1 + exp t * 0))%R with (exp t) by lra.
    pose proof (exp_pos t).
    destruct (Req_dec_T _ _) as [E|_]; [lra|]. by rewrite ln_exp.
Qed.

(** The marginal of an arc: the derivative of [logZ] in the score of the
    arc, from the two coefficients of the arc's polynomial. *)
Lemma arc_marginal S d hd a b fallback :
  CRFDependency.partition S 1 (marked d hd) (words (S - 1)) None
  = Some [a; b] →
  0 < b →
  derivable_pt_lim (λ t, real_of (logZ_of S fallback (bump d hd t))) 0
                   (INR b / (INR a + INR b))%R.
Proof.
  intros Hp Hb.
  apply (derivable_pt_lim_ext (λ t, ln (INR a + INR b * exp t)%R)).
  - intros t. rewrite (logZ_bump S d hd [a; b] t fallback Hp).
    unfold log_poly, log_weight. simpl.
    pose proof (exp_pos t). pose proof (pos_INR a).
    apply (lt_INR 0) in Hb. simpl in Hb.
    destruct (Req_dec_T _ _) as [E|_]; [nra|].
    simpl. f_equal. lra.
  - apply ln_affine_exp_derivative; [apply pos_INR|].
    apply (lt_INR 0) in Hb. by simpl in Hb.
Qed.

(** [logZ] of three words with all-zero scores. *)
Lemma three_words_logZ :
  CRFDependency.partition 4 1 zeros (words 3) None = Some (Fin (ln 7)).
Proof.
  destruct (log_poly_hom 1) as (H1 & H2 & H3 & H4 & H5); [lra|].
  rewrite (Hom.dep_partition_hom (log_poly 1) H1 H2 H3 H4 H5 4 1 ones)
    by apply zeros_ones.
  assert (E : CRFDependency.partition 4 1 ones (words 3) None = Some [7])
    by (vm_compute; reflexivity).
  rewrite E. cbn [fmap option_fmap option_map].
  rewrite (log_poly_const 1 7) by (lra || lia).
  do 3 f_equal; simpl; lra.
Qed.

(** C9, amended. For the first-order dependency CRF on one sentence of 3
    words (positions 1 to 3 valid, position 0 the root) with all scores
    zero: there are exactly 7 projective single-root trees; [logZ] is
    [log 7]; with the marginal flag set, [forward] returns the gradient of
    [logZ], and the partial derivative of [logZ] in the score of an arc is
    the number of trees that contain the arc divided by 7, that is 3/7,
    2/7, 2/7 for the heads 0, 2, 3 of word 1, then 1/7, 3/7, 3/7 for the
    heads 0, 1, 3 of word 2, and 3/7, 2/7, 2/7 for the heads 0, 1, 2 of
    word 3. *)
Theorem C9_three_words :
  length (Trees.trees 3) = 7
  ∧ CRFDependency.partition 4 1 zeros (words 3) None = Some (Fin (ln 7))
  ∧ (∀ grad,
       CRFDependency.forward grad 4 1 zeros (words 3) None true false
       = Some (Probs (grad (logZ_of 4 (Fin (ln 7))) zeros)))
  ∧ Forall (λ arc : nat * nat,
       derivable_pt_lim
         (λ t, real_of (logZ_of 4 (Fin (ln 7)) (bump arc.1 arc.2 t))) 0
         (INR (length (Trees.trees_with 3 arc.1 arc.2)) / 7)%R)
      (Trees.arcs 3)
  ∧ (λ arc : nat * nat, length (Trees.trees_with 3 arc.1 arc.2))
      <$> Trees.arcs 3
    = [3; 2; 2; 1; 3; 3; 3; 2; 2].
Proof.
  pose proof three_words_logZ as HZ.
  split_and!.
  - vm_compute. reflexivity.
  - exact HZ.
  - intros grad. unfold CRFDependency.forward. rewrite HZ. reflexivity.
  - assert (Hm : ∀ d hd a b n,
      CRFDependency.partition 4 1 (marked d hd) (words 3) None = Some [a; b] →
      0 < b → (INR a + INR b = 7)%R → INR b = INR n →
      derivable_pt_lim
        (λ t, real_of (logZ_of 4 (Fin (ln 7)) (bump d hd t))) 0
        (INR n / 7)%R).
    { intros d hd a b n Hp Hb Hab Hn. rewrite <- Hn, <- Hab.
      by apply (arc_marginal 4). }
    repeat constructor; cbn [fst snd].
    + apply (Hm 1 0 4 3);
        [vm_compute; reflexivity|lia|simpl; lra|f_equal; vm_compute; reflexivity].
    + apply (Hm 1 2 5 2);
        [vm_compute; reflexivity|lia|simpl; lra|f_equal; vm_compute; reflexivity].
    + apply (Hm 1 3 5 2);
        [vm_compute; reflexivity|lia|simpl; lra|f_equal; vm_compute; reflexivity].
    + apply (Hm 2 0 6 1);
        [vm_compute; reflexivity|lia|simpl; lra|f_equal; vm_compute; reflexivity].
    + apply (Hm 2 1 4 3);
        [vm_compute; reflexivity|lia|simpl; lra|f_equal; vm_compute; reflexivity].
    + apply (Hm 2 3 4 3);
        [vm_compute; reflexivity|lia|simpl; lra|f_equal; vm_compute; reflexivity].
    + apply (Hm 3 0 4 3);
        [vm_compute; reflexivity|lia|simpl; lra|f_equal; vm_compute; reflexivity].
    + apply (Hm 3 1 5 2);
        [vm_compute; reflexivity|lia|simpl; lra|f_equal; vm_compute; reflexivity].
    + apply (Hm 3 2 5 2);
        [vm_compute; reflexivity|lia|simpl; lra|f_equal; vm_compute; reflexivity].
  - vm_compute. reflexivity.
Qed.

(** The other readings of "a sentence of 3 tokens": three positions of
    which the first is the root give [log 2]; three positions that are all
    valid make the gather of [logZ] read outside the table. *)
Lemma three_positions_logZ :
  CRFDependency.partition 3 1 zeros (words 2) None = Some (Fin (ln 2))
  ∧ CRFDependency.partition 3 1 zeros (λ _ _, true) None = None.
Proof.
  split.
  - destruct (log_poly_hom 1) as (H1 & H2 & H3 & H4 & H5); [lra|].
    rewrite (Hom.dep_partition_hom (log_poly 1) H1 H2 H3 H4 H5 3 1 ones)
      by apply zeros_ones.
    assert (E : CRFDependency.partition 3 1 ones (words 2) None = Some [2])
      by (vm_compute; reflexivity).
    rewrite E. cbn [fmap option_fmap option_map].
    rewrite (log_poly_const 1 2) by (lra || lia).
    do 3 f_equal; simpl; lra.
  - unfold CRFDependency.partition.
    rewrite (ForwardFacts.gather_lens_None 3 1 _ _ 0); [done|lia|].
    vm_compute. lia.
Qed.

(** C9 as stated fails: on one sentence of three words and all-zero
    scores [logZ] is [log 7], not [log 3]; nor is it [log 3] when the three
    tokens are read as three positions, with or without the root among
    them. *)
Lemma C9_log3_counterexample :
  ¬ (Described.logZ_is_log3 4 (words 3)
     ∨ Described.logZ_is_log3 3 (words 2)
     ∨ Described.logZ_is_log3 3 (λ _ _, true)).
Proof.
  unfold Described.logZ_is_log3.
  destruct three_positions_logZ as [E2 E0].
  intros [E|[E|E]].
  - rewrite three_words_logZ in E. injection E as E.
    assert (Hlt : (ln 3 < ln 7)%R) by (apply ln_increasing; lra).
    lra.
  - rewrite E2 in E. injection E as E.
    assert (Hlt : (ln 2 < ln 3)%R) by (apply ln_increasing; lra).
    lra.
  - rewrite E0 in E. discriminate.
Qed.

(** C3, amended. [CRFDependency.forward] has the parameters
    [(scores, mask, target=None, mbr=False, partial=False)];
    [CRF2oDependency.forward] has the same parameters, but its marginal
    flag [mbr] defaults to [True]; [CRFConstituency.forward] has the
    parameters [(scores, mask, target=None, mbr=False)] and accepts no
    partial flag.  On every input on which the call returns, a call
    without target returns just the probabilities: the raw scores (the arc
    scores for the second-order CRF), or the gradient of [logZ] in them
    when the marginal flag is true; a call with a target returns the pair
    of a loss and these probabilities.  The call returns when the sentence
    lengths index the table, the table has two positions or more if the
    marginal flag is true (with a single position [logZ] does not depend
    on the scores and [autograd.grad] raises) and, with a target under
    full supervision, the gold indices are in range; it returns only if
    the first two of these hold. *)
Theorem C3_forward_interface {A : Type} `{LossDomain A}
    (grad : ((nat → nat → nat → A) → A)
            → (nat → nat → nat → A) → (nat → nat → nat → A))
    (S B : nat) (scores : nat → nat → nat → A)
    (s_sib : nat → nat → nat → nat → A)
    (mask : nat → nat → bool) (cmask : nat → nat → nat → bool) :
  let valid := filter (λ p : nat * nat, mask p.1 p.2 = true) (positions S B) in
  let returns (lens : nat → nat) (mbr : bool) :=
    0 < S ∧ (∀ b, b < B → lens b < S) ∧ (mbr = true → 2 ≤ S) in
  let logZ (s : list A) (lens : nat → nat) :=
    tsum ((λ b, tget S S B s 0 (lens b) b) <$> seq 0 B) in
  let probs1 (mbr : bool) :=
    if mbr
    then grad (λ x, default
                      (logZ (CRFDependency.s_c
                               (CRFDependency.inside S B scores mask None))
                            (mask_lens S mask))
                      (CRFDependency.partition S B x mask None))
              scores
    else scores in
  let probs2 (mbr : bool) :=
    if mbr
    then grad (λ x, default
                      (logZ (CRF2oDependency.s_c
                               (CRF2oDependency.inside S B scores s_sib mask
                                                       None))
                            (mask_lens S mask))
                      (CRF2oDependency.partition S B x s_sib mask None))
              scores
    else scores in
  let probs3 (mbr : bool) :=
    if mbr
    then grad (λ x, default
                      (logZ (CRFConstituency.inside S B scores cmask)
                            (CRFConstituency.lens S cmask))
                      (CRFConstituency.partition S B x cmask))
              scores
    else scores in
  Signature.forward_signature Signature.CRFDependency
  = Signature.described_signature
  ∧ Signature.forward_signature Signature.CRF2oDependency
    = [ Signature.mkParam "scores" None; Signature.mkParam "mask" None;
        Signature.mkParam "target" (Some Signature.PyNone);
        Signature.mkParam "mbr" (Some (Signature.PyBool true));
        Signature.mkParam "partial" (Some (Signature.PyBool false)) ]
  ∧ Signature.forward_signature Signature.CRFConstituency
    = take 4 Signature.described_signature
  ∧ ((∀ mbr partial, returns (mask_lens S mask) mbr →
        CRFDependency.forward grad S B scores mask None mbr partial
        = Some (Probs (probs1 mbr)))
     ∧ (∀ target mbr partial, returns (mask_lens S mask) mbr →
          (partial = false →
           ∀ p, p ∈ positions S B → (0 ≤ target p.1 p.2 < Z.of_nat S)%Z) →
          ∃ loss,
            CRFDependency.forward grad S B scores mask (Some target) mbr
                                  partial
            = Some (LossProbs loss (probs1 mbr)))
     ∧ (∀ target mbr partial out,
          CRFDependency.forward grad S B scores mask target mbr partial
          = Some out →
          returns (mask_lens S mask) mbr
          ∧ match target with
            | None => out = Probs (probs1 mbr)
            | Some _ => ∃ loss, out = LossProbs loss (probs1 mbr)
            end))
  ∧ ((∀ mbr partial, returns (mask_lens S mask) mbr →
        CRF2oDependency.forward grad S B (scores, s_sib) mask None mbr
                                partial
        = Some (Probs (probs2 mbr)))
     ∧ (∀ arcs sibs mbr partial, returns (mask_lens S mask) mbr →
          (partial = false →
           ∀ p, p ∈ valid → (0 ≤ arcs p.1 p.2 < Z.of_nat S)%Z
                            ∧ (sibs p.1 p.2 < Z.of_nat S)%Z) →
          ∃ loss,
            CRF2oDependency.forward grad S B (scores, s_sib) mask
                                    (Some (arcs, sibs)) mbr partial
            = Some (LossProbs loss (probs2 mbr)))
     ∧ (∀ target mbr partial out,
          CRF2oDependency.forward grad S B (scores, s_sib) mask target mbr
                                  partial
          = Some out →
          returns (mask_lens S mask) mbr
          ∧ match target with
            | None => out = Probs (probs2 mbr)
            | Some _ => ∃ loss, out = LossProbs loss (probs2 mbr)
            end))
  ∧ ((∀ mbr, returns (CRFConstituency.lens S cmask) mbr →
        CRFConstituency.forward grad S B scores cmask None mbr
        = Some (Probs (probs3 mbr)))
     ∧ (∀ target mbr, returns (CRFConstituency.lens S cmask) mbr →
          ∃ loss,
            CRFConstituency.forward grad S B scores cmask (Some target) mbr
            = Some (LossProbs loss (probs3 mbr)))
     ∧ (∀ target mbr out,
          CRFConstituency.forward grad S B scores cmask target mbr
          = Some out →
          returns (CRFConstituency.lens S cmask) mbr
          ∧ match target with
            | None => out = Probs (probs3 mbr)
            | Some _ => ∃ loss, out = LossProbs loss (probs3 mbr)
            end)).
Proof.
  intros valid returns logZ probs1 probs2 probs3.
  do 3 (split; [done|]). split; [|split].
  - assert (Hp : 0 < S → (∀ b, b < B → mask_lens S mask b < S) →
      CRFDependency.partition S B scores mask None
      = Some (logZ (CRFDependency.s_c
                      (CRFDependency.inside S B scores mask None))
                   (mask_lens S mask))).
    { intros HS Hl. unfold CRFDependency.partition.
      by rewrite ForwardFacts.gather_lens_Some. }
    split_and!.
    + intros mbr partial (HS & Hl & Hm). unfold CRFDependency.forward.
      rewrite (Hp HS Hl). cbn [mbind option_bind].
      by rewrite ForwardFacts.probs_Some.
    + intros target mbr partial (HS & Hl & Hm) Ht.
      unfold CRFDependency.forward. rewrite (Hp HS Hl).
      cbn [mbind option_bind].
      rewrite ForwardFacts.probs_Some by exact Hm. cbn [mbind option_bind].
      destruct partial.
      * rewrite ForwardFacts.gather_lens_Some by done.
        cbn [mbind option_bind]. by eexists.
      * unfold CRFDependency.gold_scores.
        rewrite (ForwardFacts.mapM_Some_fmap _
          (λ p : nat * nat, scores p.1 p.2 (Z.to_nat (target p.1 p.2)))).
        { cbn [mbind option_bind]. by eexists. }
        apply list.Forall_forall. intros p Hp'.
        by rewrite decide_True by auto.
    + intros target mbr partial out Hout.
      destruct (ForwardFacts.dep_forward_inv _ _ _ _ _ _ _ _ _ Hout)
        as (HS & Hl & Hm & _).
      split; [exact (conj HS (conj Hl Hm))|].
      revert Hout. unfold CRFDependency.forward. rewrite (Hp HS Hl).
      cbn [mbind option_bind].
      rewrite ForwardFacts.probs_Some by exact Hm. cbn [mbind option_bind].
      destruct target as [target|].
      * destruct (if partial then _ else _) as [g|];
          cbn [mbind option_bind]; [|discriminate].
        intros [= <-]. by eexists.
      * by intros [= <-].
  - assert (Hp : 0 < S → (∀ b, b < B → mask_lens S mask b < S) → ∀ cands,
      CRF2oDependency.partition S B scores s_sib mask cands
      = Some (logZ (CRF2oDependency.s_c
                      (CRF2oDependency.inside S B scores s_sib mask cands))
                   (mask_lens S mask))).
    { intros HS Hl cands. unfold CRF2oDependency.partition.
      by rewrite ForwardFacts.gather_lens_Some. }
    split_and!.
    + intros mbr partial (HS & Hl & Hm). unfold CRF2oDependency.forward.
      rewrite (Hp HS Hl None). cbn [mbind option_bind].
      by rewrite ForwardFacts.probs_Some.
    + intros arcs sibs mbr partial (HS & Hl & Hm) Ht.
      unfold CRF2oDependency.forward. rewrite (Hp HS Hl None).
      cbn [mbind option_bind].
      rewrite ForwardFacts.probs_Some by exact Hm. cbn [mbind option_bind].
      destruct partial.
      * rewrite (Hp HS Hl). cbn [mbind option_bind]. by eexists.
      * unfold CRF2oDependency.gold_scores. fold valid.
        rewrite (ForwardFacts.mapM_Some_fmap _
          (λ p : nat * nat, scores p.1 p.2 (Z.to_nat (arcs p.1 p.2))) valid).
        2:{ apply list.Forall_forall. intros p Hp'.
            rewrite decide_True; [done|]. by apply Ht. }
        cbn [mbind option_bind].
        rewrite (ForwardFacts.mapM_Some_fmap _
          (λ p : nat * nat,
             s_sib p.1 p.2 (Z.to_nat (arcs p.1 p.2)) (Z.to_nat (sibs p.1 p.2)))).
        2:{ apply list.Forall_forall. intros p Hp'.
            apply list_elem_of_filter in Hp' as [_ Hp'].
            rewrite decide_True; [done|]. by apply Ht. }
        cbn [mbind option_bind]. by eexists.
    + intros target mbr partial out Hout.
      destruct (ForwardFacts.dep2o_forward_inv _ _ _ _ _ _ _ _ _ _ Hout)
        as (HS & Hl & Hm & _).
      split; [exact (conj HS (conj Hl Hm))|].
      revert Hout. unfold CRF2oDependency.forward. rewrite (Hp HS Hl None).
      cbn [mbind option_bind].
      rewrite ForwardFacts.probs_Some by exact Hm. cbn [mbind option_bind].
      destruct target as [[arcs sibs]|].
      * destruct (if partial then _ else _) as [g|];
          cbn [mbind option_bind]; [|discriminate].
        intros [= <-]. by eexists.
      * by intros [= <-].
  - assert (Hp : 0 < S → (∀ b, b < B → CRFConstituency.lens S cmask b < S) →
      CRFConstituency.partition S B scores cmask
      = Some (logZ (CRFConstituency.inside S B scores cmask)
                   (CRFConstituency.lens S cmask))).
    { intros HS Hl. unfold CRFConstituency.partition.
      by rewrite ForwardFacts.gather_lens_Some. }
    split_and!.
    + intros mbr (HS & Hl & Hm). unfold CRFConstituency.forward.
      rewrite (Hp HS Hl). cbn [mbind option_bind].
      by rewrite ForwardFacts.probs_Some.
    + intros target mbr (HS & Hl & Hm). unfold CRFConstituency.forward.
      rewrite (Hp HS Hl). cbn [mbind option_bind].
      rewrite ForwardFacts.probs_Some by exact Hm. cbn [mbind option_bind].
      by eexists.
    + intros target mbr out Hout.
      destruct (ForwardFacts.con_forward_inv _ _ _ _ _ _ _ _ Hout)
        as (HS & Hl & Hm).
      split; [exact (conj HS (conj Hl Hm))|].
      revert Hout. unfold CRFConstituency.forward. rewrite (Hp HS Hl).
      cbn [mbind option_bind].
      rewrite ForwardFacts.probs_Some by exact Hm. cbn [mbind option_bind].
      destruct target as [target|].
      * intros [= <-]. by eexists.
      * by intros [= <-].
Qed.

Lemma C3_forward_interface_witness :
  let cmask : nat → nat → nat → bool := λ _ i j, (i <? j) && (j <? 4) in
  (0 < 4 ∧ (∀ b, b < 1 → mask_lens 4 (words 3) b < 4) ∧ (true = true → 2 ≤ 4))
  ∧ (0 < 4 ∧ (∀ b, b < 1 → CRFConstituency.lens 4 cmask b < 4)
     ∧ (false = true → 2 ≤ 4))
  ∧ CRFDependency.forward (λ _ x, x) 4 1 zeros (words 3) None true false
    = Some (Probs zeros)
  ∧ CRF2oDependency.forward (λ _ x, x) 4 1 (zeros, sib_zeros) (words 3) None
                            true false
    = Some (Probs zeros)
  ∧ CRFConstituency.forward (λ _ x, x) 4 1 zeros cmask None false
    = Some (Probs zeros).
Proof.
  intros cmask.
  assert (H1 : 0 < 4) by lia.
  assert (H2 : ∀ b, b < 1 → mask_lens 4 (words 3) b < 4).
  { intros b Hb. replace b with 0 by lia. vm_compute. lia. }
  assert (H3 : ∀ b, b < 1 → CRFConstituency.lens 4 cmask b < 4).
  { intros b Hb. replace b with 0 by lia. vm_compute. lia. }
  assert (H4 : true = true → 2 ≤ 4) by (intros _; lia).
  assert (H5 : false = true → 2 ≤ 4) by (intros _; lia).
  refine (conj (conj H1 (conj H2 H4)) (conj (conj H1 (conj H3 H5)) _)).
  destruct (C3_forward_interface (λ _ x, x) 4 1 zeros sib_zeros (words 3)
              cmask)
    as (_ & _ & _ & (E1 & _) & (E2 & _) & (E3 & _)).
  split_and!.
  - exact (E1 true false (conj H1 (conj H2 H4))).
  - exact (E2 true false (conj H1 (conj H2 H4))).
  - exact (E3 false (conj H1 (conj H3 H5))).
Defined.

(** C3 as stated fails: the three entry points do not share one signature;
    the marginal flag of the second-order CRF defaults to [True]. *)
Lemma C3_signature_counterexample : ¬ Described.uniform_signature.
Proof. intros Hc. specialize (Hc Signature.CRF2oDependency). discriminate. Qed.

(* ===================================================================== *)
(** * Further properties *)
(* ===================================================================== *)

Import CRFDependencyFacts CRFDependencyRelated ExtRealFacts ForwardFacts
       CRFDependencyMore CRFConstituencyMore CRF2oDependencyMore
       CRF2oDependencyFinite.

(** X1. First-order CRF: the table entries of a sentence among the positions
    [0..L] depend only on the length of the sentence and on its scores
    among these positions, not on the batch size, the padded length, the
    other sentences or the scores at further positions. *)
Theorem dep_inside_sentence_local {A : Type} `{LogDomain A}
    (S B : nat) (scores : CRFDependency.arc_scores A) (mask : nat → nat → bool)
    (S' B' : nat) (scores' : CRFDependency.arc_scores A)
    (mask' : nat → nat → bool) (b b' L x y : nat) :
  b < B → b' < B' → L < S → L < S' →
  mask_lens S mask b = mask_lens S' mask' b' →
  (∀ u v, u ≤ L → v ≤ L → scores b u v = scores' b' u v) →
  x ≤ L → y ≤ L →
  tget S S B (CRFDependency.s_c (CRFDependency.inside S B scores mask None))
       x y b
  = tget S' S' B'
      (CRFDependency.s_c (CRFDependency.inside S' B' scores' mask' None))
      x y b'
  ∧ tget S S B (CRFDependency.s_i (CRFDependency.inside S B scores mask None))
         x y b
    = tget S' S' B'
        (CRFDependency.s_i (CRFDependency.inside S' B' scores' mask' None))
        x y b'.
Proof.
  intros Hb Hb' HL HL' Hlens Hsc Hx Hy.
  apply (inside_local S B scores mask None S' B' scores' mask' None b b' L);
    try done.
  intros u v Hu Hv _. simpl. by apply Hsc.
Qed.

Lemma dep_inside_sentence_local_witness :
  tget 4 4 1 (CRFDependency.s_c
    (CRFDependency.inside 4 1 zeros (words 2) None)) 0 2 0
  = tget 3 3 2 (CRFDependency.s_c
      (CRFDependency.inside 3 2 zeros (words 2) None)) 0 2 1.
Proof.
  refine (proj1 (dep_inside_sentence_local 4 1 zeros (words 2)
                   3 2 zeros (words 2) 0 1 2 0 2 _ _ _ _ _ _ _ _));
    try lia; try reflexivity.
Defined.

(** X2. First-order CRF: [logZ] of a batch is the sum of the entries of its
    sentences, and the entry of a sentence is the one a call on that
    sentence alone, cut to its length, computes. *)
Theorem dep_partition_batch {A : Type} `{LogDomain A}
    (S B : nat) (scores : CRFDependency.arc_scores A)
    (mask : nat → nat → bool) :
  0 < S → (∀ b, b < B → mask_lens S mask b < S) →
  (∀ b i, b < B → i < S → mask b i = true → i ≤ mask_lens S mask b) →
  ∃ zs, length zs = B
    ∧ CRFDependency.partition S B scores mask None = Some (tsum zs)
    ∧ ∀ b z, zs !! b = Some z →
        CRFDependency.partition (mask_lens S mask b + 1) 1
          (λ _, scores b) (λ _, mask b) None
        = Some (tsum [z]).
Proof.
  intros HS Hl Hm.
  exists ((λ b, tget S S B
             (CRFDependency.s_c (CRFDependency.inside S B scores mask None))
             0 (mask_lens S mask b) b) <$> seq 0 B).
  split_and!.
  - by rewrite length_fmap, length_seq.
  - unfold CRFDependency.partition. by rewrite gather_lens_Some.
  - intros b z Hz. apply list_lookup_fmap_Some in Hz as (b0 & -> & Hb0).
    apply lookup_seq in Hb0 as [-> Hb]. cbn [Nat.add].
    set (L := mask_lens S mask b).
    assert (HL : L < S) by (by apply Hl).
    assert (Ht : mask_lens (L + 1) (λ _, mask b) 0 = L).
    { apply (mask_lens_trim S mask b L); [done|]. intros i Hi Hmi.
      by apply Hm. }
    unfold CRFDependency.partition.
    rewrite gather_lens_Some;
      [|lia|intros b0 Hb0; replace b0 with 0 by lia; rewrite Ht; lia].
    cbn [seq fmap list_fmap option_fmap option_map]. rewrite Ht.
    do 3 f_equal. symmetry.
    apply (inside_local S B scores mask None (L + 1) 1
             (λ _, scores b) (λ _, mask b) None b 0 L);
      [done|lia|done|lia|by rewrite Ht|by intros|lia|lia].
Qed.

Lemma dep_partition_batch_witness :
  ∃ zs, length zs = 2
    ∧ CRFDependency.partition 4 2 zeros (words 3) None
      = Some (tsum zs).
Proof.
  assert (H1 : 0 < 4) by lia.
  assert (H2 : ∀ b, b < 2 → mask_lens 4 (words 3) b < 4).
  { intros b Hb. vm_compute. lia. }
  assert (H3 : ∀ b i, b < 2 → i < 4 → words 3 b i = true
                      → i ≤ mask_lens 4 (words 3) b).
  { intros b i Hb Hi _. vm_compute. lia. }
  destruct (dep_partition_batch 4 2 zeros (words 3) H1 H2 H3)
    as (zs & Hlen & Hp & _).
  exists zs. exact (conj Hlen Hp).
Defined.

(** X3. First-order CRF, exact arithmetic: when every input score is a real
    number or [-inf], no entry of the tables is NaN or [+inf], with or
    without candidates, and neither is [logZ]. *)
Theorem dep_inside_no_nan (S B : nat) (scores : CRFDependency.arc_scores ext)
    (mask : nat → nat → bool) (cands : option (nat → nat → Z)) :
  (∀ b x y, b < B → x < S → y < S → finite_or_ninf (scores b x y) = true) →
  (∀ x y b, x < S → y < S → b < B →
     finite_or_ninf
       (tget S S B
          (CRFDependency.s_c (CRFDependency.inside S B scores mask cands))
          x y b) = true
     ∧ finite_or_ninf
         (tget S S B
            (CRFDependency.s_i (CRFDependency.inside S B scores mask cands))
            x y b) = true)
  ∧ ∀ z, CRFDependency.partition S B scores mask cands = Some z →
         finite_or_ninf z = true.
Proof.
  intros Hs. split; [by apply inside_ok|].
  intros z. unfold CRFDependency.partition. intros Hz.
  apply fmap_Some in Hz as (zs & Hzs & ->).
  apply esum_ok, list.Forall_forall. intros a Ha.
  apply list_elem_of_lookup in Ha as [b Ha].
  destruct (gather_lens_lookup _ _ _ _ _ _ _ Hzs Ha) as (Hb & HL & ->).
  apply inside_ok; (done || lia).
Qed.

Lemma dep_inside_no_nan_witness :
  finite_or_ninf
    (tget 4 4 1
       (CRFDependency.s_c
          (CRFDependency.inside 4 1 (bump 1 2 5) (words 3)
             (Some (λ _ _, 0%Z))))
       0 3 0) = true.
Proof.
  assert (H1 : ∀ b x y, b < 1 → x < 4 → y < 4
                        → finite_or_ninf (bump 1 2 5 b x y) = true).
  { intros b x y _ _ _. unfold bump. by destruct (_ && _). }
  destruct (dep_inside_no_nan 4 1 (bump 1 2 5) (words 3)
              (Some (λ _ _, 0%Z)) H1) as [Ht _].
  destruct (Ht 0 3 0) as [E _]; [lia..|]. exact E.
Defined.

(** X4. First-order CRF, exact arithmetic: with finite scores, [logZ] is a
    real number, and so is the loss under full supervision when the batch
    has a valid position. *)
Theorem dep_loss_finite
    (grad : (CRFDependency.arc_scores ext → ext)
            → CRFDependency.arc_scores ext → CRFDependency.arc_scores ext)
    (S B : nat) (scores : CRFDependency.arc_scores ext)
    (mask : nat → nat → bool) (target : nat → nat → Z) (mbr : bool) :
  0 < S → (∀ b, b < B → mask_lens S mask b < S) →
  (∀ b x y, b < B → x < S → y < S → is_finite (scores b x y) = true) →
  (∀ p, p ∈ positions S B → (0 ≤ target p.1 p.2 < Z.of_nat S)%Z) →
  0 < mask_total S B mask →
  ∃ z r probs,
    CRFDependency.partition S B scores mask None = Some (Fin z)
    ∧ CRFDependency.forward grad S B scores mask (Some target) mbr false
      = Some (LossProbs (Fin r) probs).
Proof.
  intros HS Hl Hfin Ht Htot.
  assert (Hp : ∃ z, CRFDependency.partition S B scores mask None
                    = Some (Fin z)).
  { unfold CRFDependency.partition. rewrite gather_lens_Some by done.
    cbn [fmap option_fmap option_map]. apply is_finite_Fin' , esum_finite.
    apply Forall_fmap, list.Forall_forall. intros b Hb%elem_of_seq.
    apply inside_root_finite; [lia|apply Hl; lia|done]. }
  assert (H2S : 2 ≤ S) by exact (mask_total_two S B mask Htot Hl).
  destruct Hp as [z Hp]. unfold CRFDependency.forward. rewrite Hp.
  cbn [mbind option_bind].
  rewrite probs_Some by (intros _; exact H2S). cbn [mbind option_bind].
  unfold CRFDependency.gold_scores.
  rewrite (mapM_Some_fmap _
             (λ p : nat * nat, scores p.1 p.2 (Z.to_nat (target p.1 p.2)))).
  2:{ apply list.Forall_forall. intros p Hp'. by rewrite decide_True by auto. }
  cbn [mbind option_bind]. rewrite masked_select_fmap.
  set (gold := tsum _).
  assert (Hg : is_finite gold = true).
  { apply esum_finite, Forall_fmap, list.Forall_forall. intros p Hp'.
    apply list_elem_of_filter in Hp' as [_ Hp'].
    unfold positions in Hp'. apply list_elem_of_bind in Hp' as (b & Hp' & Hb).
    apply list_elem_of_fmap_1 in Hp' as (i & -> & Hi%elem_of_seq).
    apply elem_of_seq in Hb. simpl.
    specialize (Ht (b, i)). simpl in Ht.
    apply Hfin; [lia|lia|].
    assert ((0 ≤ target b i < Z.of_nat S)%Z); [|lia].
    apply Ht. unfold positions. apply list_elem_of_bind. exists b.
    split; [|apply elem_of_seq; lia].
    apply list_elem_of_fmap_2, elem_of_seq. lia. }
  apply is_finite_Fin in Hg as [g Hg]. rewrite Hg.
  exists z. eexists. eexists. split; [done|].
  cbn [sub divn ext_loss esub eneg eadd edivn].
  destruct (Nat.eqb_spec (mask_total S B mask) 0) as [E|_]; [lia|]. done.
Qed.

Lemma dep_loss_finite_witness :
  ∃ z r probs,
    CRFDependency.partition 4 1 (bump 1 2 5) (words 3) None = Some (Fin z)
    ∧ CRFDependency.forward (λ _ x, x) 4 1 (bump 1 2 5) (words 3)
        (Some (λ _ _, 0%Z)) false false
      = Some (LossProbs (Fin r) probs).
Proof.
  assert (H1 : 0 < 4) by lia.
  assert (H2 : ∀ b, b < 1 → mask_lens 4 (words 3) b < 4).
  { intros b Hb. vm_compute. lia. }
  assert (H3 : ∀ b x y, b < 1 → x < 4 → y < 4
                        → is_finite (bump 1 2 5 b x y) = true).
  { intros b x y _ _ _. unfold bump. by destruct (_ && _). }
  assert (H4 : ∀ p, p ∈ positions 4 1
                    → (0 ≤ (λ _ _ : nat, 0%Z) p.1 p.2 < Z.of_nat 4)%Z).
  { intros p _. simpl. lia. }
  assert (H5 : 0 < mask_total 4 1 (words 3)) by (vm_compute; lia).
  exact (dep_loss_finite (λ _ x, x) 4 1 (bump 1 2 5) (words 3) (λ _ _, 0%Z)
           false H1 H2 H3 H4 H5).
Defined.

(** X5. First-order CRF, exact arithmetic: under partial annotation with no
    annotated head, the candidates exclude nothing: the restricted pass
    computes the entries of the unrestricted one on every sentence, hence
    the same [logZ], and the loss is zero; for finite scores and masks that
    are true at the positions [1..length] of each sentence. *)
Theorem dep_partial_unannotated
    (grad : (CRFDependency.arc_scores ext → ext)
            → CRFDependency.arc_scores ext → CRFDependency.arc_scores ext)
    (S B : nat) (scores : CRFDependency.arc_scores ext)
    (mask : nat → nat → bool) (target : nat → nat → Z) (mbr : bool) :
  0 < S → (∀ b, b < B → mask_lens S mask b < S) →
  (∀ b x y, b < B → x < S → y < S → is_finite (scores b x y) = true) →
  (∀ b i, b < B → 1 ≤ i ≤ mask_lens S mask b → mask b i = true) →
  (∀ b i, b < B → 1 ≤ i ≤ mask_lens S mask b → (target b i < 0)%Z) →
  0 < mask_total S B mask →
  (∀ b x y, b < B → x ≤ mask_lens S mask b → y ≤ mask_lens S mask b →
     tget S S B
       (CRFDependency.s_c (CRFDependency.inside S B scores mask (Some target)))
       x y b
     = tget S S B
         (CRFDependency.s_c (CRFDependency.inside S B scores mask None)) x y b
     ∧ tget S S B
         (CRFDependency.s_i
            (CRFDependency.inside S B scores mask (Some target)))
         x y b
       = tget S S B
           (CRFDependency.s_i (CRFDependency.inside S B scores mask None))
           x y b)
  ∧ CRFDependency.partition S B scores mask (Some target)
    = CRFDependency.partition S B scores mask None
  ∧ ∃ probs,
      CRFDependency.forward grad S B scores mask (Some target) mbr true
      = Some (LossProbs (Fin 0) probs).
Proof.
  intros HS Hl Hfin Hm Ht Htot.
  assert (H2S : 2 ≤ S) by exact (mask_total_two S B mask Htot Hl).
  assert (Hloc : ∀ b x y, b < B →
    x ≤ mask_lens S mask b → y ≤ mask_lens S mask b →
    tget S S B
      (CRFDependency.s_c (CRFDependency.inside S B scores mask (Some target)))
      x y b
    = tget S S B
        (CRFDependency.s_c (CRFDependency.inside S B scores mask None)) x y b
    ∧ tget S S B
        (CRFDependency.s_i
           (CRFDependency.inside S B scores mask (Some target)))
        x y b
      = tget S S B
          (CRFDependency.s_i (CRFDependency.inside S B scores mask None))
          x y b).
  { intros b x0 y0 Hb Hx0 Hy0.
    apply (inside_local S B scores mask (Some target) S B scores mask None
             b b (mask_lens S mask b));
      [exact Hb|exact Hb|apply Hl; lia|apply Hl; lia|done| |exact Hx0
      |exact Hy0].
    intros x y Hx Hy _.
    unfold CRFDependency.inside_scores, restrict.
    assert (Hmask : ∀ i, i ≤ mask_lens S mask b →
              (if i =? 0 then true else mask b i) = true).
    { intros i Hi. destruct (Nat.eqb_spec i 0); [done|].
      apply Hm; lia. }
    rewrite !Hmask by done.
    assert (Hc : ((if (y =? 0)%nat then (-1)%Z else target b y) <? 0)%Z
                 = true).
    { destruct (Nat.eqb_spec y 0); [done|].
      apply Z.ltb_lt, Ht; lia. }
    by rewrite Hc, orb_true_r. }
  assert (Hg : gather_lens S B
                 (CRFDependency.s_c
                    (CRFDependency.inside S B scores mask (Some target)))
                 (mask_lens S mask)
               = gather_lens S B
                   (CRFDependency.s_c
                      (CRFDependency.inside S B scores mask None))
                   (mask_lens S mask)).
  { rewrite !gather_lens_Some by done. apply (f_equal Some).
    apply fmap_seq_ext. intros b Hb.
    apply (Hloc b 0 (mask_lens S mask b)); lia. }
  split; [exact Hloc|]. split.
  { unfold CRFDependency.partition. by rewrite Hg. }
  assert (Hp : ∃ z, CRFDependency.partition S B scores mask None
                    = Some (Fin z)).
  { unfold CRFDependency.partition. rewrite gather_lens_Some by done.
    cbn [fmap option_fmap option_map]. apply is_finite_Fin' , esum_finite.
    apply Forall_fmap, list.Forall_forall. intros b Hb%elem_of_seq.
    apply inside_root_finite; [lia|apply Hl; lia|done]. }
  destruct Hp as [z Hp]. unfold CRFDependency.forward. rewrite Hp.
  cbn [mbind option_bind].
  rewrite probs_Some by (intros _; exact H2S). cbn [mbind option_bind].
  rewrite Hg. unfold CRFDependency.partition in Hp.
  rewrite gather_lens_Some in Hp |- * by done.
  cbn [fmap option_fmap option_map] in Hp.
  injection Hp as Hp. cbn [mbind option_bind].
  change (tsum ?l) with (esum l). rewrite Hp.
  eexists. apply (f_equal Some). apply (f_equal (λ l, LossProbs l _)).
  cbn [sub divn ext_loss esub eneg eadd edivn].
  destruct (Nat.eqb_spec (mask_total S B mask) 0) as [E|_]; [lia|].
  f_equal. unfold Rdiv. replace (z + - z)%R with 0%R by lra.
  apply Rmult_0_l.
Qed.

Lemma dep_partial_unannotated_witness :
  ∃ probs,
    CRFDependency.forward (λ _ x, x) 4 1 (bump 1 2 5) (words 3)
      (Some (λ _ _, (-1)%Z)) false true
    = Some (LossProbs (Fin 0) probs).
Proof.
  assert (H1 : 0 < 4) by lia.
  assert (H2 : ∀ b, b < 1 → mask_lens 4 (words 3) b < 4).
  { intros b Hb. vm_compute. lia. }
  assert (H3 : ∀ b x y, b < 1 → x < 4 → y < 4
                        → is_finite (bump 1 2 5 b x y) = true).
  { intros b x y _ _ _. unfold bump. by destruct (_ && _). }
  assert (H4 : ∀ b i, b < 1 → 1 ≤ i ≤ mask_lens 4 (words 3) b
                      → words 3 b i = true).
  { intros b i _. change (mask_lens 4 (words 3) b) with 3. intros Hi.
    unfold words. apply andb_true_iff. split.
    - apply Nat.ltb_lt. lia.
    - apply Nat.leb_le. lia. }
  assert (H5 : ∀ b i, b < 1 → 1 ≤ i ≤ mask_lens 4 (words 3) b
                      → ((λ _ _ : nat, (-1)%Z) b i < 0)%Z).
  { intros b i _ _. simpl. lia. }
  assert (H6 : 0 < mask_total 4 1 (words 3)) by (vm_compute; lia).
  exact (proj2 (proj2 (dep_partial_unannotated (λ _ x, x) 4 1 (bump 1 2 5)
                         (words 3) (λ _ _, (-1)%Z) false H1 H2 H3 H4 H5 H6))).
Defined.

(** X6. First-order CRF, exact arithmetic: in the pass restricted by
    candidates, for scores that are real numbers or [-inf], the incomplete
    span of an arc that the candidates exclude is [-inf]: an arc into an
    annotated dependent from a head other than the annotated one, and an
    arc that touches a masked-out position other than the root. *)
Theorem dep_partial_excluded_arc (S B : nat)
    (scores : CRFDependency.arc_scores ext) (mask : nat → nat → bool)
    (target : nat → nat → Z) (h d b : nat) :
  (∀ b x y, b < B → x < S → y < S → finite_or_ninf (scores b x y) = true) →
  b < B → h < S → d < S → h ≠ d →
  (1 ≤ d ∧ (0 ≤ target b d)%Z ∧ target b d ≠ Z.of_nat h)
  ∨ (1 ≤ d ∧ mask b d = false) ∨ (1 ≤ h ∧ mask b h = false) →
  tget S S B
    (CRFDependency.s_i (CRFDependency.inside S B scores mask (Some target)))
    h d b = NInf.
Proof.
  intros Hok Hb Hh Hd Hne Hex.
  pose proof (inside_ok S B scores mask (Some target) Hok) as Hall.
  destruct (inside_spec S B scores mask (Some target)) as (_ & Hrec & _).
  assert (Hsc : CRFDependency.inside_scores scores mask (Some target) h d b
                = NInf).
  { unfold CRFDependency.inside_scores, restrict.
    destruct Hex as [(Hd1 & Ht0 & Htne)|[[Hd1 Hmd]|[Hh1 Hmh]]].
    - rewrite (proj2 (Nat.eqb_neq d 0)) by lia.
      rewrite (proj2 (Z.eqb_neq _ _) Htne).
      rewrite (proj2 (Z.ltb_ge _ _) Ht0). done.
    - rewrite (proj2 (Nat.eqb_neq d 0)) by lia. rewrite Hmd.
      by rewrite !andb_false_r.
    - rewrite (proj2 (Nat.eqb_neq h 0)) by lia. rewrite Hmh.
      by rewrite andb_false_l, andb_false_r. }
  assert (Hlse : ∀ i w, i + w < S →
    finite_or_ninf
      (lse ((λ c, add (C S B (CRFDependency.inside S B scores mask (Some target))
                         i (i + c) b)
                      (C S B (CRFDependency.inside S B scores mask (Some target))
                         (i + w) (i + c + 1) b)) <$> seq 0 w)) = true).
  { intros i w Hi. apply elogsumexp_ok, Forall_fmap, list.Forall_forall.
    intros c Hc%elem_of_seq. apply eadd_ok; apply Hall; lia. }
  destruct (decide (h < d)) as [Hlt|Hge].
  - destruct (Hrec (d - h) h b) as (_ & E2 & _); [lia..|].
    replace (h + (d - h)) with d in E2 by lia.
    unfold I at 1 in E2. rewrite E2, Hsc.
    apply eadd_ninf_r. specialize (Hlse h (d - h)).
    replace (h + (d - h)) with d in Hlse by lia. apply Hlse. lia.
  - destruct (Hrec (h - d) d b) as (E1 & _); [lia..|].
    replace (d + (h - d)) with h in E1 by lia.
    unfold I at 1 in E1. rewrite E1, Hsc.
    apply eadd_ninf_r. specialize (Hlse d (h - d)).
    replace (d + (h - d)) with h in Hlse by lia. apply Hlse. lia.
Qed.

Lemma dep_partial_excluded_arc_witness :
  tget 4 4 1
    (CRFDependency.s_i
       (CRFDependency.inside 4 1 (bump 1 2 5) (words 3) (Some (λ _ _, 0%Z))))
    3 2 0 = NInf.
Proof.
  assert (H1 : ∀ b x y, b < 1 → x < 4 → y < 4
                        → finite_or_ninf (bump 1 2 5 b x y) = true).
  { intros b x y _ _ _. unfold bump. by destruct (_ && _). }
  assert (H2 : 0 < 1) by lia.
  assert (H3 : 3 < 4) by lia.
  assert (H4 : 2 < 4) by lia.
  assert (H5 : 3 ≠ 2) by lia.
  pose (target := λ _ _ : nat, 0%Z).
  assert (H6 : (1 ≤ 2 ∧ (0 ≤ target 0%nat 2%nat)%Z ∧ target 0 2 ≠ Z.of_nat 3)
               ∨ (1 ≤ 2 ∧ words 3 0 2 = false)
               ∨ (1 ≤ 3 ∧ words 3 0 3 = false)).
  { left. unfold target. simpl. lia. }
  exact (dep_partial_excluded_arc 4 1 (bump 1 2 5) (words 3) target
           3 2 0 H1 H2 H3 H4 H5 H6).
Defined.

(** X8. Constituency CRF: the chart entries of a sentence among the positions
    [0..L] depend only on its scores of the spans among these positions,
    not on the batch size, the padded length, the masks, the other
    sentences or the scores of further spans. *)
Theorem con_chart_sentence_local {A : Type} `{LogDomain A}
    (S B : nat) (scores : CRFConstituency.span_scores A)
    (mask : nat → nat → nat → bool)
    (S' B' : nat) (scores' : CRFConstituency.span_scores A)
    (mask' : nat → nat → nat → bool) (b b' L x y : nat) :
  b < B → b' < B' → L < S → L < S' →
  (∀ u v, u < v → v ≤ L → scores b u v = scores' b' u v) →
  x ≤ L → y ≤ L →
  tget S S B (CRFConstituency.inside S B scores mask) x y b
  = tget S' S' B' (CRFConstituency.inside S' B' scores' mask') x y b'.
Proof. apply chart_local. Qed.

Lemma con_chart_sentence_local_witness :
  tget 4 4 1 (CRFConstituency.inside 4 1 zeros (λ _ _ _, true)) 0 2 0
  = tget 3 3 2 (CRFConstituency.inside 3 2 zeros (λ _ _ _, false)) 0 2 1.
Proof.
  refine (con_chart_sentence_local 4 1 zeros (λ _ _ _, true)
            3 2 zeros (λ _ _ _, false) 0 1 2 0 2 _ _ _ _ _ _ _);
    try lia; try reflexivity.
Defined.

(** X9. Constituency CRF: [logZ] of a batch is the sum of the entries of its
    sentences, and the entry of a sentence is the one a call on that
    sentence alone, cut to its length, computes. *)
Theorem con_partition_batch {A : Type} `{LogDomain A}
    (S B : nat) (scores : CRFConstituency.span_scores A)
    (mask : nat → nat → nat → bool) :
  0 < S → (∀ b, b < B → CRFConstituency.lens S mask b < S) →
  (∀ b j, b < B → j < S → mask b 0 j = true
          → j ≤ CRFConstituency.lens S mask b) →
  ∃ zs, length zs = B
    ∧ CRFConstituency.partition S B scores mask = Some (tsum zs)
    ∧ ∀ b z, zs !! b = Some z →
        CRFConstituency.partition (CRFConstituency.lens S mask b + 1) 1
          (λ _, scores b) (λ _, mask b)
        = Some (tsum [z]).
Proof.
  intros HS Hl Hm.
  exists ((λ b, tget S S B (CRFConstituency.inside S B scores mask)
                  0 (CRFConstituency.lens S mask b) b) <$> seq 0 B).
  split_and!.
  - by rewrite length_fmap, length_seq.
  - unfold CRFConstituency.partition. by rewrite gather_lens_Some.
  - intros b z Hz. apply list_lookup_fmap_Some in Hz as (b0 & -> & Hb0).
    apply lookup_seq in Hb0 as [-> Hb]. cbn [Nat.add].
    set (L := CRFConstituency.lens S mask b).
    assert (HL : L < S) by (by apply Hl).
    assert (Ht : CRFConstituency.lens (L + 1) (λ _, mask b) 0 = L).
    { apply (lens_trim S mask b L); [done|]. intros j Hj Hmj.
      by apply Hm. }
    unfold CRFConstituency.partition.
    rewrite gather_lens_Some;
      [|lia|intros b0 Hb0; replace b0 with 0 by lia; rewrite Ht; lia].
    cbn [seq fmap list_fmap option_fmap option_map]. rewrite Ht.
    do 3 f_equal. symmetry.
    apply (chart_local S B scores mask (L + 1) 1
             (λ _, scores b) (λ _, mask b) b 0 L);
      [done|lia|done|lia|by intros|lia|lia].
Qed.

Lemma con_partition_batch_witness :
  let mask : nat → nat → nat → bool := λ _ i j, (i <? j) && (j <? 4) in
  ∃ zs, length zs = 2
    ∧ CRFConstituency.partition 5 2 zeros mask = Some (tsum zs).
Proof.
  intros mask.
  assert (H1 : 0 < 5) by lia.
  assert (H2 : ∀ b, b < 2 → CRFConstituency.lens 5 mask b < 5).
  { intros b Hb. vm_compute. lia. }
  assert (H3 : ∀ b j, b < 2 → j < 5 → mask b 0 j = true
                      → j ≤ CRFConstituency.lens 5 mask b).
  { intros b j _ _. change (CRFConstituency.lens 5 mask b) with 3.
    unfold mask. intros [_ Hj%Nat.ltb_lt]%andb_true_iff. lia. }
  destruct (con_partition_batch 5 2 zeros mask H1 H2 H3)
    as (zs & Hlen & Hp & _).
  exists zs. exact (conj Hlen Hp).
Defined.

(** X10. Constituency CRF, exact arithmetic: with finite scores, a chart
    entry is finite when it lies above the diagonal and is [-inf]
    otherwise; [logZ] is a real number when every sentence has at least one
    word, and so is the loss, whatever the target. *)
Theorem con_loss_finite
    (grad : (CRFConstituency.span_scores ext → ext)
            → CRFConstituency.span_scores ext
            → CRFConstituency.span_scores ext)
    (S B : nat) (scores : CRFConstituency.span_scores ext)
    (mask target : nat → nat → nat → bool) (mbr : bool) :
  0 < B → (∀ b, b < B → 1 ≤ CRFConstituency.lens S mask b < S) →
  (∀ b x y, b < B → x < S → y < S → is_finite (scores b x y) = true) →
  (∀ x y b, x < S → y < S → b < B →
     tget S S B (CRFConstituency.inside S B scores mask) x y b = NInf ↔ y ≤ x)
  ∧ ∃ z r probs,
      CRFConstituency.partition S B scores mask = Some (Fin z)
      ∧ CRFConstituency.forward grad S B scores mask (Some target) mbr
        = Some (LossProbs (Fin r) probs).
Proof.
  intros HB Hl Hfin. split.
  { intros x y b Hx Hy Hb. split.
    - intros E. destruct (decide (y ≤ x)) as [|Hxy]; [done|].
      pose proof (chart_finite S B scores mask x y b Hfin Hb) as Hf.
      rewrite E in Hf. discriminate Hf; lia.
    - intros Hxy. exact (chart_lower S B scores mask x y b Hx Hy Hb Hxy). }
  assert (HS : 0 < S) by (specialize (Hl 0 HB); lia).
  assert (Hp : ∃ z, CRFConstituency.partition S B scores mask = Some (Fin z)).
  { unfold CRFConstituency.partition.
    rewrite gather_lens_Some by (done || intros; by apply Hl).
    cbn [fmap option_fmap option_map]. apply is_finite_Fin', esum_finite.
    apply Forall_fmap, list.Forall_forall. intros b Hb%elem_of_seq.
    apply chart_finite; [done|lia|..]; apply Hl; lia. }
  assert (H2S : 2 ≤ S) by (specialize (Hl 0 HB); lia).
  destruct Hp as [z Hp]. unfold CRFConstituency.forward. rewrite Hp.
  cbn [mbind option_bind].
  rewrite probs_Some by (intros _; exact H2S). cbn [mbind option_bind].
  set (gold := tsum _).
  assert (Hg : is_finite gold = true).
  { apply esum_finite, Forall_fmap, list.Forall_forall. intros p Hp'.
    apply list_elem_of_filter in Hp' as [_ Hp'].
    unfold CRFConstituency.spans in Hp'.
    apply list_elem_of_bind in Hp' as (b & Hp' & Hb%elem_of_seq).
    apply list_elem_of_bind in Hp' as (i & Hp' & Hi%elem_of_seq).
    apply list_elem_of_fmap_1 in Hp' as (j & -> & Hj%elem_of_seq).
    simpl. apply Hfin; lia. }
  apply is_finite_Fin in Hg as [g Hg]. rewrite Hg.
  exists z. eexists. eexists. split; [done|].
  cbn [sub divn ext_loss esub eneg eadd edivn].
  set (total := sum_list _).
  assert (Htot : 0 < total).
  { unfold total. destruct B as [|B']; [lia|].
    cbn [seq fmap list_fmap sum_list sum_list_with].
    specialize (Hl 0 HB). unfold Datatypes.id. lia. }
  destruct (Nat.eqb_spec total 0) as [E|_]; [lia|]. done.
Qed.

Lemma con_loss_finite_witness :
  let mask : nat → nat → nat → bool := λ _ i j, (i <? j) && (j <? 4) in
  ∃ z r probs,
    CRFConstituency.partition 5 1 (bump 1 2 5) mask = Some (Fin z)
    ∧ CRFConstituency.forward (λ _ x, x) 5 1 (bump 1 2 5) mask
        (Some (λ _ _ _, true)) false
      = Some (LossProbs (Fin r) probs).
Proof.
  intros mask.
  assert (H1 : 0 < 1) by lia.
  assert (H2 : ∀ b, b < 1 → 1 ≤ CRFConstituency.lens 5 mask b < 5).
  { intros b Hb. vm_compute. lia. }
  assert (H3 : ∀ b x y, b < 1 → x < 5 → y < 5
                        → is_finite (bump 1 2 5 b x y) = true).
  { intros b x y _ _ _. unfold bump. by destruct (_ && _). }
  exact (proj2 (con_loss_finite (λ _ x, x) 5 1 (bump 1 2 5) mask
                  (λ _ _ _, true) false H1 H2 H3)).
Defined.

(** X11. Second-order CRF: the table entries of a sentence among the positions
    [0..L] depend only on the length of the sentence and on its arc and
    sibling scores among these positions. *)
Theorem dep2o_inside_sentence_local {A : Type} `{LogDomain A}
    (S B : nat) (s_arc : CRF2oDependency.arc_scores A)
    (s_sib : CRF2oDependency.sib_scores A) (mask : nat → nat → bool)
    (S' B' : nat) (s_arc' : CRF2oDependency.arc_scores A)
    (s_sib' : CRF2oDependency.sib_scores A) (mask' : nat → nat → bool)
    (b b' L x y : nat) :
  b < B → b' < B' → L < S → L < S' →
  mask_lens S mask b = mask_lens S' mask' b' →
  (∀ u v, u ≤ L → v ≤ L → s_arc b u v = s_arc' b' u v) →
  (∀ u v z, u ≤ L → v ≤ L → z ≤ L → s_sib b u v z = s_sib' b' u v z) →
  x ≤ L → y ≤ L →
  let t := CRF2oDependency.inside S B s_arc s_sib mask None in
  let t' := CRF2oDependency.inside S' B' s_arc' s_sib' mask' None in
  tget S S B (CRF2oDependency.s_c t) x y b
  = tget S' S' B' (CRF2oDependency.s_c t') x y b'
  ∧ tget S S B (CRF2oDependency.s_i t) x y b
    = tget S' S' B' (CRF2oDependency.s_i t') x y b'
  ∧ tget S S B (CRF2oDependency.s_s t) x y b
    = tget S' S' B' (CRF2oDependency.s_s t') x y b'.
Proof.
  intros Hb Hb' HL HL' Hlens Hsa Hsb Hx Hy t t'.
  apply (inside2o_local S B s_arc s_sib mask None
           S' B' s_arc' s_sib' mask' None b b' L); try done.
  intros u v Hu Hv _. simpl. by apply Hsa.
Qed.

Lemma dep2o_inside_sentence_local_witness :
  tget 4 4 1 (CRF2oDependency.s_c
    (CRF2oDependency.inside 4 1 zeros sib_zeros (words 2) None)) 0 2 0
  = tget 3 3 2 (CRF2oDependency.s_c
      (CRF2oDependency.inside 3 2 zeros sib_zeros (words 2) None)) 0 2 1.
Proof.
  refine (proj1 (dep2o_inside_sentence_local 4 1 zeros sib_zeros (words 2)
                   3 2 zeros sib_zeros (words 2) 0 1 2 0 2
                   _ _ _ _ _ _ _ _ _));
    try lia; try reflexivity.
Defined.

(** X12. Second-order CRF, exact arithmetic: when every arc and sibling
    score is a real number or [-inf], no entry of the three tables is NaN
    or [+inf], with or without candidates, and neither is [logZ]. *)
Theorem dep2o_inside_no_nan (S B : nat)
    (s_arc : CRF2oDependency.arc_scores ext)
    (s_sib : CRF2oDependency.sib_scores ext)
    (mask : nat → nat → bool) (cands : option (nat → nat → Z)) :
  (∀ b x y, b < B → x < S → y < S → finite_or_ninf (s_arc b x y) = true) →
  (∀ b x y z, b < B → x < S → y < S → z < S →
     finite_or_ninf (s_sib b x y z) = true) →
  let t := CRF2oDependency.inside S B s_arc s_sib mask cands in
  (∀ x y b, x < S → y < S → b < B →
     finite_or_ninf (tget S S B (CRF2oDependency.s_c t) x y b) = true
     ∧ finite_or_ninf (tget S S B (CRF2oDependency.s_i t) x y b) = true
     ∧ finite_or_ninf (tget S S B (CRF2oDependency.s_s t) x y b) = true)
  ∧ ∀ z, CRF2oDependency.partition S B s_arc s_sib mask cands = Some z →
         finite_or_ninf z = true.
Proof.
  intros Hsa Hsb t. split; [by apply inside2o_ok|].
  intros z. unfold CRF2oDependency.partition. intros Hz.
  apply fmap_Some in Hz as (zs & Hzs & ->).
  apply esum_ok, list.Forall_forall. intros a Ha.
  apply list_elem_of_lookup in Ha as [b Ha].
  destruct (gather_lens_lookup _ _ _ _ _ _ _ Hzs Ha) as (Hb & HL & ->).
  apply inside2o_ok; (done || lia).
Qed.

Lemma dep2o_inside_no_nan_witness :
  finite_or_ninf
    (tget 4 4 1
       (CRF2oDependency.s_c
          (CRF2oDependency.inside 4 1 (bump 1 2 5) sib_zeros (words 3)
             (Some (λ _ _, 0%Z))))
       0 3 0) = true.
Proof.
  assert (H1 : ∀ b x y, b < 1 → x < 4 → y < 4
                        → finite_or_ninf (bump 1 2 5 b x y) = true).
  { intros b x y _ _ _. unfold bump. by destruct (_ && _). }
  assert (H2 : ∀ b x y z, b < 1 → x < 4 → y < 4 → z < 4
                          → finite_or_ninf (sib_zeros b x y z) = true).
  { intros. reflexivity. }
  destruct (dep2o_inside_no_nan 4 1 (bump 1 2 5) sib_zeros (words 3)
              (Some (λ _ _, 0%Z)) H1 H2) as [Ht _].
  destruct (Ht 0 3 0) as [E _]; [lia..|]. exact E.
Defined.

(** X13. Second-order CRF: the sibling table is symmetric. *)
Theorem dep2o_sibling_symmetric {A : Type} `{LogDomain A} (S B : nat)
    (s_arc : CRF2oDependency.arc_scores A)
    (s_sib : CRF2oDependency.sib_scores A) (mask : nat → nat → bool)
    (cands : option (nat → nat → Z)) (x y b : nat) :
  x < S → y < S → b < B →
  let t := CRF2oDependency.inside S B s_arc s_sib mask cands in
  tget S S B (CRF2oDependency.s_s t) x y b
  = tget S S B (CRF2oDependency.s_s t) y x b.
Proof.
  intros Hx Hy Hb t.
  destruct (CRF2oDependencyFacts.inside2o_spec S B s_arc s_sib mask cands)
    as (_ & Hrec & _).
  fold t in Hrec.
  assert (Hsym : ∀ i w, 1 ≤ w → i + w < S →
            tget S S B (CRF2oDependency.s_s t) (i + w) i b
            = tget S S B (CRF2oDependency.s_s t) i (i + w) b).
  { intros i w Hw Hi.
    destruct (Hrec w i b Hw Hi Hb) as (_ & _ & E3 & E4 & _).
    unfold CRF2oDependencyFacts.Sb in E3, E4. by rewrite E3, E4. }
  destruct (decide (x = y)) as [->|Hne]; [done|].
  destruct (decide (x < y)).
  - replace y with (x + (y - x)) by lia. symmetry. apply Hsym; lia.
  - replace x with (y + (x - y)) by lia. apply Hsym; lia.
Qed.

Lemma dep2o_sibling_symmetric_witness :
  tget 4 4 1 (CRF2oDependency.s_s
    (CRF2oDependency.inside 4 1 (bump 1 2 5) sib_zeros (words 3) None)) 1 3 0
  = tget 4 4 1 (CRF2oDependency.s_s
      (CRF2oDependency.inside 4 1 (bump 1 2 5) sib_zeros (words 3) None))
      3 1 0.
Proof.
  refine (dep2o_sibling_symmetric 4 1 (bump 1 2 5) sib_zeros (words 3) None
            1 3 0 _ _ _); lia.
Defined.

(** X14. Second-order CRF, exact arithmetic: with finite scores, [logZ] is a
    real number, and so is the loss under full supervision when the batch
    has a valid position. *)
Theorem dep2o_loss_finite
    (grad : (CRF2oDependency.arc_scores ext → ext)
            → CRF2oDependency.arc_scores ext → CRF2oDependency.arc_scores ext)
    (S B : nat) (s_arc : CRF2oDependency.arc_scores ext)
    (s_sib : CRF2oDependency.sib_scores ext)
    (mask : nat → nat → bool) (arcs sibs : nat → nat → Z) (mbr : bool) :
  0 < S → (∀ b, b < B → mask_lens S mask b < S) →
  (∀ b x y, b < B → x < S → y < S → is_finite (s_arc b x y) = true) →
  (∀ b x y z, b < B → x < S → y < S → z < S →
     is_finite (s_sib b x y z) = true) →
  (∀ p, p ∈ positions S B → mask p.1 p.2 = true →
        (0 ≤ arcs p.1 p.2 < Z.of_nat S)%Z ∧ (sibs p.1 p.2 < Z.of_nat S)%Z) →
  0 < mask_total S B mask →
  ∃ z r probs,
    CRF2oDependency.partition S B s_arc s_sib mask None = Some (Fin z)
    ∧ CRF2oDependency.forward grad S B (s_arc, s_sib) mask
        (Some (arcs, sibs)) mbr false
      = Some (LossProbs (Fin r) probs).
Proof.
  intros HS Hl Hfa Hfs Ht Htot.
  assert (Hp : ∃ z, CRF2oDependency.partition S B s_arc s_sib mask None
                    = Some (Fin z)).
  { unfold CRF2oDependency.partition. rewrite gather_lens_Some by done.
    cbn [fmap option_fmap option_map]. apply is_finite_Fin', esum_finite.
    apply Forall_fmap, list.Forall_forall. intros b Hb%elem_of_seq.
    apply inside2o_root_finite; [lia|done|done|apply Hl; lia]. }
  assert (H2S : 2 ≤ S) by exact (mask_total_two S B mask Htot Hl).
  destruct Hp as [z Hp]. unfold CRF2oDependency.forward. rewrite Hp.
  cbn [mbind option_bind].
  rewrite probs_Some by (intros _; exact H2S). cbn [mbind option_bind].
  unfold CRF2oDependency.gold_scores.
  set (valid := filter (λ p : nat * nat, mask p.1 p.2 = true) (positions S B)).
  assert (Hv : ∀ p, p ∈ valid →
            p.1 < B ∧ p.2 < S
            ∧ (0 ≤ arcs p.1 p.2 < Z.of_nat S)%Z ∧ (sibs p.1 p.2 < Z.of_nat S)%Z).
  { intros p Hp'. apply list_elem_of_filter in Hp' as [Hm Hp'].
    destruct (Ht p Hp' Hm) as [Ha Hs].
    unfold positions in Hp'. apply list_elem_of_bind in Hp' as (b & Hp' & Hb).
    apply list_elem_of_fmap_1 in Hp' as (i & -> & Hi%elem_of_seq).
    apply elem_of_seq in Hb. simpl in *. lia. }
  rewrite (mapM_Some_fmap _
             (λ p : nat * nat, s_arc p.1 p.2 (Z.to_nat (arcs p.1 p.2))) valid).
  2:{ apply list.Forall_forall. intros p Hp'.
      rewrite decide_True; [done|]. apply Hv in Hp'. lia. }
  cbn [mbind option_bind].
  rewrite (mapM_Some_fmap _
             (λ p : nat * nat, s_sib p.1 p.2 (Z.to_nat (arcs p.1 p.2))
                                 (Z.to_nat (sibs p.1 p.2)))
             (filter (λ p : nat * nat, (0 < sibs p.1 p.2)%Z) valid)).
  2:{ apply list.Forall_forall. intros p Hp'.
      apply list_elem_of_filter in Hp' as [_ Hp'].
      rewrite decide_True; [done|]. apply Hv in Hp'. lia. }
  cbn [mbind option_bind].
  set (ga := tsum _). set (gs := tsum _).
  assert (Hga : is_finite ga = true).
  { apply esum_finite, Forall_fmap, list.Forall_forall. intros p Hp'.
    apply Hv in Hp'. simpl. apply Hfa; lia. }
  assert (Hgs : is_finite gs = true).
  { apply esum_finite, Forall_fmap, list.Forall_forall. intros p Hp'.
    apply list_elem_of_filter in Hp' as [Hpos Hp'].
    apply Hv in Hp'. simpl. apply Hfs; lia. }
  apply is_finite_Fin in Hga as [a Hga]. apply is_finite_Fin in Hgs as [c Hgs].
  rewrite Hga, Hgs.
  exists z. eexists. eexists. split; [done|].
  cbn [add sub divn ext_domain ext_loss esub eneg eadd edivn].
  destruct (Nat.eqb_spec (mask_total S B mask) 0) as [E|_]; [lia|]. done.
Qed.

Lemma dep2o_loss_finite_witness :
  ∃ z r probs,
    CRF2oDependency.partition 4 1 (bump 1 2 5) sib_zeros (words 3) None
    = Some (Fin z)
    ∧ CRF2oDependency.forward (λ _ x, x) 4 1 (bump 1 2 5, sib_zeros) (words 3)
        (Some (λ _ _, 0%Z, λ _ _, (-1)%Z)) false false
      = Some (LossProbs (Fin r) probs).
Proof.
  assert (H1 : 0 < 4) by lia.
  assert (H2 : ∀ b, b < 1 → mask_lens 4 (words 3) b < 4).
  { intros b Hb. vm_compute. lia. }
  assert (H3 : ∀ b x y, b < 1 → x < 4 → y < 4
                        → is_finite (bump 1 2 5 b x y) = true).
  { intros b x y _ _ _. unfold bump. by destruct (_ && _). }
  assert (H4 : ∀ b x y z, b < 1 → x < 4 → y < 4 → z < 4
                          → is_finite (sib_zeros b x y z) = true).
  { intros. reflexivity. }
  pose (arcs := λ _ _ : nat, 0%Z). pose (sibs := λ _ _ : nat, (-1)%Z).
  assert (H5 : ∀ p, p ∈ positions 4 1 → words 3 p.1 p.2 = true →
                 (0 ≤ arcs p.1 p.2 < Z.of_nat 4)%Z
                 ∧ (sibs p.1 p.2 < Z.of_nat 4)%Z).
  { intros p _ _. unfold arcs, sibs. simpl. lia. }
  assert (H6 : 0 < mask_total 4 1 (words 3)) by (vm_compute; lia).
  exact (dep2o_loss_finite (λ _ x, x) 4 1 (bump 1 2 5) sib_zeros (words 3)
           arcs sibs false H1 H2 H3 H4 H5 H6).
Defined.

(** X15. Second-order CRF, exact arithmetic: under partial annotation with
    no annotated head, the candidates exclude nothing: the restricted pass
    gives the [logZ] of the unrestricted one and the loss is zero; for
    finite scores and masks that are true at the positions [1..length] of
    each sentence. *)
Theorem dep2o_partial_unannotated
    (grad : (CRF2oDependency.arc_scores ext → ext)
            → CRF2oDependency.arc_scores ext → CRF2oDependency.arc_scores ext)
    (S B : nat) (s_arc : CRF2oDependency.arc_scores ext)
    (s_sib : CRF2oDependency.sib_scores ext)
    (mask : nat → nat → bool) (arcs sibs : nat → nat → Z) (mbr : bool) :
  0 < S → (∀ b, b < B → mask_lens S mask b < S) →
  (∀ b x y, b < B → x < S → y < S → is_finite (s_arc b x y) = true) →
  (∀ b x y z, b < B → x < S → y < S → z < S →
     is_finite (s_sib b x y z) = true) →
  (∀ b i, b < B → 1 ≤ i ≤ mask_lens S mask b → mask b i = true) →
  (∀ b i, b < B → 1 ≤ i ≤ mask_lens S mask b → (arcs b i < 0)%Z) →
  0 < mask_total S B mask →
  CRF2oDependency.partition S B s_arc s_sib mask (Some arcs)
  = CRF2oDependency.partition S B s_arc s_sib mask None
  ∧ ∃ probs,
      CRF2oDependency.forward grad S B (s_arc, s_sib) mask (Some (arcs, sibs))
        mbr true
      = Some (LossProbs (Fin 0) probs).
Proof.
  intros HS Hl Hfa Hfs Hm Ht Htot.
  assert (H2S : 2 ≤ S) by exact (mask_total_two S B mask Htot Hl).
  assert (Hg : CRF2oDependency.partition S B s_arc s_sib mask (Some arcs)
               = CRF2oDependency.partition S B s_arc s_sib mask None).
  { unfold CRF2oDependency.partition.
    rewrite !gather_lens_Some by done. apply (f_equal Some).
    apply (f_equal tsum).
    apply fmap_seq_ext. intros b Hb.
    apply (inside2o_local S B s_arc s_sib mask (Some arcs)
             S B s_arc s_sib mask None b b (mask_lens S mask b));
      [lia|lia|apply Hl; lia|apply Hl; lia|done| |done|lia|lia].
    intros x y Hx Hy _.
    unfold CRF2oDependency.inside_arc, restrict.
    assert (Hmask : ∀ i, i ≤ mask_lens S mask b →
              (if i =? 0 then true else mask b i) = true).
    { intros i Hi. destruct (Nat.eqb_spec i 0); [done|].
      apply Hm; lia. }
    rewrite !Hmask by done.
    assert (Hc : ((if (y =? 0)%nat then (-1)%Z else arcs b y) <? 0)%Z
                 = true).
    { destruct (Nat.eqb_spec y 0); [done|].
      apply Z.ltb_lt, Ht; lia. }
    by rewrite Hc, orb_true_r. }
  split; [exact Hg|].
  assert (Hp : ∃ z, CRF2oDependency.partition S B s_arc s_sib mask None
                    = Some (Fin z)).
  { unfold CRF2oDependency.partition. rewrite gather_lens_Some by done.
    cbn [fmap option_fmap option_map]. apply is_finite_Fin', esum_finite.
    apply Forall_fmap, list.Forall_forall. intros b Hb%elem_of_seq.
    apply inside2o_root_finite; [lia|done|done|apply Hl; lia]. }
  destruct Hp as [z Hp]. unfold CRF2oDependency.forward. rewrite Hp.
  cbn [mbind option_bind].
  rewrite probs_Some by (intros _; exact H2S). cbn [mbind option_bind].
  rewrite Hg, Hp. cbn [mbind option_bind].
  eexists. apply (f_equal Some). apply (f_equal (λ l, LossProbs l _)).
  cbn [sub divn ext_loss esub eneg eadd edivn].
  destruct (Nat.eqb_spec (mask_total S B mask) 0) as [E|_]; [lia|].
  f_equal. unfold Rdiv. replace (z + - z)%R with 0%R by lra.
  apply Rmult_0_l.
Qed.

Lemma dep2o_partial_unannotated_witness :
  ∃ probs,
    CRF2oDependency.forward (λ _ x, x) 4 1 (bump 1 2 5, sib_zeros) (words 3)
      (Some (λ _ _, (-1)%Z, λ _ _, (-1)%Z)) false true
    = Some (LossProbs (Fin 0) probs).
Proof.
  assert (H1 : 0 < 4) by lia.
  assert (H2 : ∀ b, b < 1 → mask_lens 4 (words 3) b < 4).
  { intros b Hb. vm_compute. lia. }
  assert (H3 : ∀ b x y, b < 1 → x < 4 → y < 4
                        → is_finite (bump 1 2 5 b x y) = true).
  { intros b x y _ _ _. unfold bump. by destruct (_ && _). }
  assert (H4 : ∀ b x y z, b < 1 → x < 4 → y < 4 → z < 4
                          → is_finite (sib_zeros b x y z) = true).
  { intros. reflexivity. }
  assert (H5 : ∀ b i, b < 1 → 1 ≤ i ≤ mask_lens 4 (words 3) b
                      → words 3 b i = true).
  { intros b i _. change (mask_lens 4 (words 3) b) with 3. intros Hi.
    unfold words. apply andb_true_iff. split.
    - apply Nat.ltb_lt. lia.
    - apply Nat.leb_le. lia. }
  pose (arcs := λ _ _ : nat, (-1)%Z).
  assert (H6 : ∀ b i, b < 1 → 1 ≤ i ≤ mask_lens 4 (words 3) b
                      → (arcs b i < 0)%Z).
  { intros b i _ _. unfold arcs. lia. }
  assert (H7 : 0 < mask_total 4 1 (words 3)) by (vm_compute; lia).
  exact (proj2 (dep2o_partial_unannotated (λ _ x, x) 4 1 (bump 1 2 5)
                  sib_zeros (words 3) arcs (λ _ _, (-1)%Z) false
                  H1 H2 H3 H4 H5 H6 H7)).
Defined.

Lemma stripe_wraps_rows_witness :
  ∃ v, stripe docstring_heap docstring_x 2 3 (1, 3) 1
       = Some (docstring_heap, v)
    ∧ read docstring_heap v [0; 2] = read docstring_heap docstring_x [2; 0].
Proof.
  assert (H1 : valid docstring_heap docstring_x).
  { split; [done|]. exists (seq 0 25). split; [done|].
    intros idx Hr. pose proof (TensorFacts.dot_row_major_lt idx [5; 5] Hr).
    unfold addr. simpl in *. lia. }
  assert (H2 : is_contiguous docstring_x = true) by reflexivity.
  assert (H3 : toffset docstring_x = 0) by reflexivity.
  assert (H4 : tsize docstring_x = [5; 5]) by reflexivity.
  assert (H5 : 0 < 5) by lia.
  assert (H6 : ∀ r c, r < 2 → c < 3 →
            StripeFlat.stripe_flat 5 (1, 3) 1 r c < 5 * 5).
  { intros r c Hr Hc. unfold StripeFlat.stripe_flat. simpl. lia. }
  destruct (StripeFlatFacts.stripe_wraps_rows docstring_heap docstring_x
              5 5 [] 2 3 (1, 3) 1 H1 H2 H3 H4 H5 H5 H6)
    as (v & Hs & _ & Hread).
  exists v. split; [done|].
  exact (Hread 0 2 [] ltac:(lia) ltac:(lia) eq_refl).
Defined.

Lemma stripe_raises_past_table_witness :
  stripe docstring_heap docstring_x 2 3 (3, 3) 1 = None.
Proof.
  assert (H1 : docstring_heap !! tloc docstring_x = Some (seq 0 25))
    by reflexivity.
  assert (H2 : length (seq 0 25) = 5 * 5 * numel []) by reflexivity.
  assert (H3 : tstride docstring_x = row_major (tsize docstring_x))
    by reflexivity.
  assert (H4 : tsize docstring_x = [5; 5]) by reflexivity.
  assert (H5 : 0 < 2) by lia.
  assert (H6 : 0 < 3) by lia.
  assert (H7 : 0 < numel []) by (simpl; lia).
  assert (H8 : 5 * 5 ≤ StripeFlat.stripe_flat 5 (3, 3) 1 (2 - 1) (3 - 1))
    by (vm_compute; lia).
  exact (StripeFlatFacts.stripe_raises_past_table docstring_heap docstring_x (seq 0 25)
           5 5 [] 2 3 (3, 3) 1 H1 H2 H3 H4 H5 H6 H7 H8).
Defined.

Lemma pad_blocks_witness :
  ∃ res dims,
    Pad.pad [Pad.mkArray [3] [1; 2; 3]; Pad.mkArray [1] [4]] 0 (Some 5)
    = Some res
    ∧ Pad.shape res = 2 :: dims ∧ length dims = 1.
Proof.
  pose (tensors := [Pad.mkArray [3] [1; 2; 3]; Pad.mkArray [1] [4]]).
  assert (H1 : tensors ≠ []) by done.
  assert (H2 : 0 < 1) by lia.
  assert (H3 : ∀ t, t ∈ tensors →
            Pad.well_formed t ∧ length (Pad.shape t) = 1).
  { intros t Ht. unfold tensors in Ht.
    apply elem_of_cons in Ht as [->|Ht]; [done|].
    apply list_elem_of_singleton in Ht as ->. done. }
  assert (H4 : ∀ L t s, Some 5 = Some L → t ∈ tensors
                        → Pad.shape t !! 0 = Some s → s ≤ L).
  { intros L t s [= <-] Ht Hs. unfold tensors in Ht.
    apply elem_of_cons in Ht as [->|Ht].
    - injection Hs as <-. lia.
    - apply list_elem_of_singleton in Ht as ->. injection Hs as <-. lia. }
  destruct (PadSpec.pad_blocks tensors 0 (Some 5) 1 H1 H2 H3 H4)
    as (res & dims & Hp & Hs & Hl & _).
  exists res, dims. exact (conj Hp (conj Hs Hl)).
Defined.

Lemma pad_raises_witness :
  Pad.pad [Pad.mkArray [3] [1; 2; 3]; Pad.mkArray [1] [4]] 0 (Some 2) = None
  ∧ Pad.pad [Pad.mkArray [2; 1] [3; 4]; Pad.mkArray [2] [1; 2]] 9 None = None.
Proof.
  split.
  - destruct (PadSpec.pad_raises [Pad.mkArray [3] [1; 2; 3]; Pad.mkArray [1] [4]]
                0 (Some 2)) as (_ & H & _).
    apply (H 2 (Pad.mkArray [3] [1; 2; 3]) 3); [done|by left|done|lia].
  - destruct (PadSpec.pad_raises [Pad.mkArray [2; 1] [3; 4]; Pad.mkArray [2] [1; 2]]
                9 None) as (_ & _ & H).
    apply (H (Pad.mkArray [2; 1] [3; 4]) (Pad.mkArray [2] [1; 2]));
      [done|by right; left|simpl; lia].
Defined.

(** X21. [has_number] is false on every string, digits or not: the characters
    of a string are compared with the integers 0 to 9.  On a token that
    yields other items it is true exactly when an item is one of these
    integers. *)
Theorem has_number_never_on_strings :
  (∀ token : Tokens.pystr, Tokens.has_number (Tokens.chars token) = false)
  ∧ ∀ items : list Tokens.pyobj,
      Tokens.has_number items = true
      ↔ ∃ z, Tokens.PyInt z ∈ items ∧ (0 ≤ z ≤ 9)%Z.
Proof.
  split.
  - intros token. apply TokensFacts.has_number_false.
    unfold Tokens.chars. by apply Forall_fmap, list.Forall_forall.
  - intros items. rewrite TokensFacts.has_number_true. split.
    + intros ([s|z] & Hx & Hin); [done|]. exists z. split; [done|].
      simpl in Hin. apply bool_decide_eq_true in Hin.
      unfold Tokens.num_set in Hin.
      apply list_elem_of_fmap in Hin as (k & -> & Hk%elem_of_seq). lia.
    + intros (z & Hz & Hr). exists (Tokens.PyInt z). split; [done|].
      simpl. apply bool_decide_eq_true. unfold Tokens.num_set.
      apply list_elem_of_fmap. exists (Z.to_nat z). split; [lia|].
      apply elem_of_seq. lia.
Qed.

(** X22. The four character tests hold on the empty token; [ispunct] and
    [isfullwidth] never raise; [islatin] and [isdigit] raise exactly when
    a character without a name comes before any character that fails the
    test. *)
Theorem character_tests_edges (category east_asian_width : N → string)
    (name : N → option string) :
  Tokens.ispunct category [] = Some true
  ∧ Tokens.isfullwidth east_asian_width [] = Some true
  ∧ Tokens.islatin name [] = Some true
  ∧ Tokens.isdigit name [] = Some true
  ∧ (∀ token, is_Some (Tokens.ispunct category token)
              ∧ is_Some (Tokens.isfullwidth east_asian_width token))
  ∧ (∀ token,
       Tokens.islatin name token = None
       ↔ ∃ l1 c l2, token = l1 ++ c :: l2
           ∧ Forall (λ c', ∃ nm, name c' = Some nm
                                 ∧ Tokens.contains "LATIN" nm = true) l1
           ∧ name c = None)
  ∧ (∀ token,
       Tokens.isdigit name token = None
       ↔ ∃ l1 c l2, token = l1 ++ c :: l2
           ∧ Forall (λ c', ∃ nm, name c' = Some nm
                                 ∧ Tokens.contains "DIGIT" nm = true) l1
           ∧ name c = None).
Proof.
  assert (Hgen : ∀ (sub : string) token,
    Tokens.py_all (λ c, Tokens.contains sub <$> name c) token = None
    ↔ ∃ l1 c l2, token = l1 ++ c :: l2
        ∧ Forall (λ c', ∃ nm, name c' = Some nm
                              ∧ Tokens.contains sub nm = true) l1
        ∧ name c = None).
  { intros sub token. rewrite TokensFacts.py_all_None. split.
    - intros (l1 & c & l2 & -> & H1 & Hc). exists l1, c, l2.
      split_and!; [done| |].
      + eapply list.Forall_impl; [done|]. intros c' Hc'. simpl in Hc'.
        destruct (name c') as [nm|]; [|done]. exists nm.
        split; [done|]. by injection Hc'.
      + by destruct (name c).
    - intros (l1 & c & l2 & -> & H1 & Hc). exists l1, c, l2.
      split_and!; [done| |by rewrite Hc].
      eapply list.Forall_impl; [done|]. intros c' (nm & -> & Hnm).
      simpl. by rewrite Hnm. }
  split_and!; try done.
  - intros token. unfold Tokens.ispunct, Tokens.isfullwidth.
    rewrite !TokensFacts.py_all_total. split; by eexists.
  - intros token. apply Hgen.
  - intros token. apply Hgen.
Qed.

(** X23. A mask that is true at every position of a sentence makes [forward]
    raise in the three CRFs, whatever the other arguments: the gather of
    [logZ] then reads at index [seq_len], outside the table. *)
Theorem forward_full_mask_raises {A : Type} `{LossDomain A}
    (grad : ((nat → nat → nat → A) → A)
            → (nat → nat → nat → A) → (nat → nat → nat → A))
    (S B : nat) (scores : nat → nat → nat → A)
    (s_sib : nat → nat → nat → nat → A)
    (mask : nat → nat → bool) (cmask : nat → nat → nat → bool) (b : nat) :
  b < B →
  ((∀ i, i < S → mask b i = true) →
   (∀ target mbr partial,
      CRFDependency.forward grad S B scores mask target mbr partial = None)
   ∧ (∀ target mbr partial,
        CRF2oDependency.forward grad S B (scores, s_sib) mask target mbr
                                partial = None))
  ∧ ((∀ j, j < S → cmask b 0 j = true) →
     ∀ target mbr,
       CRFConstituency.forward grad S B scores cmask target mbr = None).
Proof.
  intros Hb.
  assert (Hall : ∀ f : nat → bool, (∀ i, i < S → f i = true) →
            length (filter (λ i, f i = true) (seq 0 S)) = S).
  { intros f Hf.
    transitivity (length (seq 0 S)); [|apply length_seq]. f_equal.
    assert (Hgen : ∀ l : list nat, Forall (λ i, f i = true) l
                     → filter (λ i, f i = true) l = l).
    { induction 1 as [|i l Hi _ IH]; [done|].
      rewrite filter_cons_True by done. by rewrite IH. }
    apply Hgen, list.Forall_forall. intros i Hi%elem_of_seq. apply Hf. lia. }
  split.
  - intros Hm.
    assert (Hl : S ≤ mask_lens S mask b).
    { unfold mask_lens. by rewrite (Hall (mask b)). }
    split; intros target mbr partial.
    + unfold CRFDependency.forward, CRFDependency.partition.
      by rewrite (gather_lens_None S B _ _ b).
    + unfold CRF2oDependency.forward, CRF2oDependency.partition.
      by rewrite (gather_lens_None S B _ _ b).
  - intros Hm target mbr.
    assert (Hl : S ≤ CRFConstituency.lens S cmask b).
    { unfold CRFConstituency.lens. by rewrite (Hall (cmask b 0)). }
    unfold CRFConstituency.forward, CRFConstituency.partition.
    by rewrite (gather_lens_None S B _ _ b).
Qed.

Lemma forward_full_mask_raises_witness :
  CRFDependency.forward (λ _ x, x) 3 1 zeros (λ _ _, true) None false false
  = None.
Proof.
  assert (H1 : 0 < 1) by lia.
  destruct (forward_full_mask_raises (λ _ x, x) 3 1 zeros sib_zeros
              (λ _ _, true) (λ _ _ _, true) 0 H1) as [Hd _].
  destruct (Hd (λ _ _, eq_refl)) as [E _].
  exact (E None false false).
Defined.

Import ExtOrder ExtOrderFacts.

(** The loss of a restricted pass whose [logZ] is at most the finite
    [logZ] of the unrestricted pass. *)
Lemma partial_loss_nonneg (z : R) (zr : ext) (total : nat) :
  ext_le zr (Fin z) → 0 < total →
  divn (sub (Fin z) zr) total = PInf
  ∨ ∃ r, divn (sub (Fin z) zr) total = Fin r ∧ (0 <= r)%R.
Proof.
  intros Hle Htot. destruct zr as [|r| |]; simpl in Hle; try done.
  - by left.
  - right. cbn [sub divn ext_loss esub eneg eadd edivn].
    destruct (Nat.eqb_spec total 0) as [E|_]; [lia|].
    eexists. split; [done|]. unfold Rdiv. apply Rmult_le_pos; [lra|].
    left. apply Rinv_0_lt_compat, lt_0_INR. lia.
Qed.

(** X7. First-order CRF, exact arithmetic: under partial annotation the loss
    is never negative: the candidates can only remove trees, so the
    restricted [logZ] is at most the unrestricted one; the loss is [+inf]
    when the candidates admit no tree. *)
Theorem dep_partial_loss_nonneg
    (grad : (CRFDependency.arc_scores ext → ext)
            → CRFDependency.arc_scores ext → CRFDependency.arc_scores ext)
    (S B : nat) (scores : CRFDependency.arc_scores ext)
    (mask : nat → nat → bool) (target : nat → nat → Z) (mbr : bool) :
  0 < S → (∀ b, b < B → mask_lens S mask b < S) →
  (∀ b x y, b < B → x < S → y < S → is_finite (scores b x y) = true) →
  0 < mask_total S B mask →
  ∃ loss probs,
    CRFDependency.forward grad S B scores mask (Some target) mbr true
    = Some (LossProbs loss probs)
    ∧ (loss = PInf ∨ ∃ r, loss = Fin r ∧ (0 <= r)%R).
Proof.
  intros HS Hl Hfin Htot.
  assert (Hp : ∃ z, CRFDependency.partition S B scores mask None
                    = Some (Fin z)).
  { unfold CRFDependency.partition. rewrite gather_lens_Some by done.
    cbn [fmap option_fmap option_map]. apply is_finite_Fin', esum_finite.
    apply Forall_fmap, list.Forall_forall. intros b Hb%elem_of_seq.
    apply inside_root_finite; [lia|apply Hl; lia|done]. }
  assert (H2S : 2 ≤ S) by exact (mask_total_two S B mask Htot Hl).
  destruct Hp as [z Hp]. unfold CRFDependency.forward. rewrite Hp.
  cbn [mbind option_bind].
  rewrite probs_Some by (intros _; exact H2S). cbn [mbind option_bind].
  unfold CRFDependency.partition in Hp.
  rewrite gather_lens_Some in Hp |- * by done.
  cbn [fmap option_fmap option_map] in Hp. injection Hp as Hp.
  cbn [mbind option_bind].
  eexists _, _. split; [done|].
  apply partial_loss_nonneg; [|done].
  rewrite <- Hp.
  apply ext_le_sum, Forall2_fmap_seq. intros b Hb.
  apply (inside_related ext_le S B scores mask (Some target)
           S B scores mask None b b (mask_lens S mask b));
    try done; try lia.
  - simpl. lra.
  - intros ????. apply ext_le_add.
  - intros l l' _. apply ext_le_lse.
  - apply Hl; lia.
  - apply Hl; lia.
  - intros x y Hx Hy _.
    assert (Hok : finite_or_ninf (scores b y x) = true).
    { apply is_finite_ok, Hfin; [lia|..]; specialize (Hl b); lia. }
    unfold CRFDependency.inside_scores, restrict.
    case_match; [by apply ext_le_refl|by apply ext_le_ninf].
Qed.

Lemma dep_partial_loss_nonneg_witness :
  ∃ loss probs,
    CRFDependency.forward (λ _ x, x) 4 1 (bump 1 2 5) (words 3)
      (Some (λ _ _, 0%Z)) false true
    = Some (LossProbs loss probs)
    ∧ (loss = PInf ∨ ∃ r, loss = Fin r ∧ (0 <= r)%R).
Proof.
  assert (H1 : 0 < 4) by lia.
  assert (H2 : ∀ b, b < 1 → mask_lens 4 (words 3) b < 4).
  { intros b Hb. vm_compute. lia. }
  assert (H3 : ∀ b x y, b < 1 → x < 4 → y < 4
                        → is_finite (bump 1 2 5 b x y) = true).
  { intros b x y _ _ _. unfold bump. by destruct (_ && _). }
  assert (H4 : 0 < mask_total 4 1 (words 3)) by (vm_compute; lia).
  exact (dep_partial_loss_nonneg (λ _ x, x) 4 1 (bump 1 2 5) (words 3)
           (λ _ _, 0%Z) false H1 H2 H3 H4).
Defined.

(** X16. Second-order CRF, exact arithmetic: under partial annotation the loss
    is never negative; it is [+inf] when the candidates admit no tree. *)
Theorem dep2o_partial_loss_nonneg
    (grad : (CRF2oDependency.arc_scores ext → ext)
            → CRF2oDependency.arc_scores ext → CRF2oDependency.arc_scores ext)
    (S B : nat) (s_arc : CRF2oDependency.arc_scores ext)
    (s_sib : CRF2oDependency.sib_scores ext)
    (mask : nat → nat → bool) (arcs sibs : nat → nat → Z) (mbr : bool) :
  0 < S → (∀ b, b < B → mask_lens S mask b < S) →
  (∀ b x y, b < B → x < S → y < S → is_finite (s_arc b x y) = true) →
  (∀ b x y z, b < B → x < S → y < S → z < S →
     is_finite (s_sib b x y z) = true) →
  0 < mask_total S B mask →
  ∃ loss probs,
    CRF2oDependency.forward grad S B (s_arc, s_sib) mask (Some (arcs, sibs))
      mbr true
    = Some (LossProbs loss probs)
    ∧ (loss = PInf ∨ ∃ r, loss = Fin r ∧ (0 <= r)%R).
Proof.
  intros HS Hl Hfa Hfs Htot.
  assert (Hp : ∃ z, CRF2oDependency.partition S B s_arc s_sib mask None
                    = Some (Fin z)).
  { unfold CRF2oDependency.partition. rewrite gather_lens_Some by done.
    cbn [fmap option_fmap option_map]. apply is_finite_Fin', esum_finite.
    apply Forall_fmap, list.Forall_forall. intros b Hb%elem_of_seq.
    apply inside2o_root_finite; [lia|done|done|apply Hl; lia]. }
  assert (H2S : 2 ≤ S) by exact (mask_total_two S B mask Htot Hl).
  destruct Hp as [z Hp]. unfold CRF2oDependency.forward. rewrite Hp.
  cbn [mbind option_bind].
  rewrite probs_Some by (intros _; exact H2S). cbn [mbind option_bind].
  unfold CRF2oDependency.partition in Hp |- *.
  rewrite gather_lens_Some in Hp |- * by done.
  cbn [fmap option_fmap option_map] in Hp |- *. injection Hp as Hp.
  cbn [mbind option_bind].
  eexists _, _. split; [done|].
  apply partial_loss_nonneg; [|done].
  rewrite <- Hp.
  apply ext_le_sum, Forall2_fmap_seq. intros b Hb.
  apply (inside2o_related ext_le S B s_arc s_sib mask (Some arcs)
           S B s_arc s_sib mask None b b (mask_lens S mask b));
    try done; try lia.
  - simpl. lra.
  - intros ????. apply ext_le_add.
  - intros l l' _. apply ext_le_lse.
  - apply Hl; lia.
  - apply Hl; lia.
  - intros x y Hx Hy _.
    assert (Hok : finite_or_ninf (s_arc b y x) = true).
    { apply is_finite_ok, Hfa; [lia|..]; specialize (Hl b); lia. }
    unfold CRF2oDependency.inside_arc, restrict.
    case_match; [by apply ext_le_refl|by apply ext_le_ninf].
  - intros x y z' Hx Hy Hz. apply ext_le_refl, is_finite_ok, Hfs;
      [lia|..]; specialize (Hl b); lia.
Qed.

Lemma dep2o_partial_loss_nonneg_witness :
  ∃ loss probs,
    CRF2oDependency.forward (λ _ x, x) 4 1 (bump 1 2 5, sib_zeros) (words 3)
      (Some (λ _ _, 0%Z, λ _ _, (-1)%Z)) false true
    = Some (LossProbs loss probs)
    ∧ (loss = PInf ∨ ∃ r, loss = Fin r ∧ (0 <= r)%R).
Proof.
  assert (H1 : 0 < 4) by lia.
  assert (H2 : ∀ b, b < 1 → mask_lens 4 (words 3) b < 4).
  { intros b Hb. vm_compute. lia. }
  assert (H3 : ∀ b x y, b < 1 → x < 4 → y < 4
                        → is_finite (bump 1 2 5 b x y) = true).
  { intros b x y _ _ _. unfold bump. by destruct (_ && _). }
  assert (H4 : ∀ b x y z, b < 1 → x < 4 → y < 4 → z < 4
                          → is_finite (sib_zeros b x y z) = true).
  { intros. reflexivity. }
  assert (H5 : 0 < mask_total 4 1 (words 3)) by (vm_compute; lia).
  exact (dep2o_partial_loss_nonneg (λ _ x, x) 4 1 (bump 1 2 5) sib_zeros
           (words 3) (λ _ _, 0%Z) (λ _ _, (-1)%Z) false H1 H2 H3 H4 H5).
Defined.
